(** * shadow-drop: commitment tree, proofs and hex codec

    A shallow embedding of the two TypeScript Merkle modules of the
    repository:

    - the _local_ module (placeholder hash computed in the browser), and
    - the _delegated_ module (Poseidon hash computed by the backend API).

    JavaScript values are modelled as follows.
    - [Uint8Array]: a list of bytes.
    - a JavaScript string: a Rocq [string]; every character is one UTF-16
      code unit in the range 0..255 (wallet addresses, hex strings and the
      hash prefixes are all ASCII).
    - an integral [number] used as an index: an integer of [Z].
    - a [number] used as an amount: an IEEE-754 binary64 value
      ([spec_float] with precision 53 and maximal exponent 1024).
    - [bigint]: an integer of [Z].
    - [undefined], where an array read can produce it: [None].
    - a thrown exception: the [Throw] case of [result]. *)

From Stdlib Require Import ZArith NArith String Ascii Bool Lia.
From Stdlib Require Import List.
From Stdlib Require Import Strings.Byte.
From Stdlib Require Import SpecFloat.
Import ListNotations.
Local Open Scope Z_scope.

(** ** Exceptions *)

Inductive exn : Type :=
| TypeError
| RangeError
| SyntaxError
| Error (msg : string).

Inductive result (A : Type) : Type :=
| Ok (a : A)
| Throw (e : exn).
Arguments Ok {A} a.
Arguments Throw {A} e.

Definition bind {A B : Type} (r : result A) (k : A -> result B) : result B :=
  match r with
  | Ok a => k a
  | Throw e => Throw e
  end.

Notation "x <- r ;; k" := (bind r (fun x => k))
  (at level 61, r at next level, right associativity).

(** [Array.prototype.map] with a callback that may throw. *)
Fixpoint mapM {A B : Type} (f : A -> result B) (l : list A) : result (list B) :=
  match l with
  | [] => Ok []
  | a :: l' => b <- f a ;; bs <- mapM f l' ;; Ok (b :: bs)
  end.

(** ** Bytes and typed arrays *)

Definition Uint8Array : Type := list byte.

(** A JavaScript value that is either a [Uint8Array] or [undefined]. *)
Definition value : Type := option Uint8Array.

Definition Z_of_byte (b : byte) : Z := Z.of_N (Byte.to_N b).

(** Storing a number into a [Uint8Array] keeps it modulo 256. *)
Definition byte_of_Z (z : Z) : byte :=
  match Byte.of_N (Z.to_N (Z.land z 255)) with
  | Some b => b
  | None => x00
  end.

(** [arr[i]]: [undefined] outside the array. *)
Definition get {A : Type} (arr : list A) (i : Z) : option A :=
  if i <? 0 then None else nth_error arr (Z.to_nat i).

(** [new Uint8Array(n)] *)
Definition new_Uint8Array (n : nat) : Uint8Array := repeat x00 n.

(** [dst.set(src, offset)], for a source that fits. *)
Definition set (dst src : Uint8Array) (offset : nat) : Uint8Array :=
  firstn offset dst ++ src ++ skipn (offset + length src) dst.

(** [new TextEncoder().encode(s)]: UTF-8, one or two bytes per code unit
    below 256. *)
Definition utf8_of_ascii (c : ascii) : Uint8Array :=
  let n := Z.of_N (N_of_ascii c) in
  if n <? 128 then [byte_of_Z n]
  else [byte_of_Z (Z.lor 192 (Z.shiftr n 6)); byte_of_Z (Z.lor 128 (Z.land n 63))].

Fixpoint TextEncoder_encode (s : string) : Uint8Array :=
  match s with
  | EmptyString => []
  | String c s' => utf8_of_ascii c ++ TextEncoder_encode s'
  end.

(** ** 32-bit integer operations of JavaScript *)

(** [z >>> 0]: [z] modulo 2^32. *)
Definition ToUint32 (z : Z) : Z := Z.land z 0xffffffff.

Definition ToInt32 (z : Z) : Z :=
  let int32bit := ToUint32 z in
  if 0x80000000 <=? int32bit then int32bit - 0x100000000 else int32bit.

(** [a ^ b] *)
Definition xor32 (a b : Z) : Z := ToInt32 (Z.lxor (ToInt32 a) (ToInt32 b)).

(** [Math.imul(a, b)] *)
Definition imul (a b : Z) : Z := ToInt32 (ToInt32 a * ToInt32 b).

(** [view.setUint32(offset, v, true)]: four bytes, little-endian. *)
Definition le_bytes (n : nat) (v : Z) : Uint8Array :=
  map (fun k => byte_of_Z (Z.shiftr v (8 * Z.of_nat k))) (seq 0 n).

Definition setUint32 (buf : Uint8Array) (offset : nat) (v : Z) : Uint8Array :=
  set buf (le_bytes 4 (ToUint32 v)) offset.

(** ** Numbers used as amounts *)

(** A JavaScript [number]: an IEEE-754 binary64 value. *)
Definition number : Type := spec_float.

Definition number_mul (x y : number) : number := SFmul 53 1024 x y.

(** The integral number [z]. *)
Definition number_of_Z (z : Z) : number := binary_normalize 53 1024 z 0 false.

(** [BigInt(Math.floor(x))]: the largest integer not above a finite [x];
    [BigInt] throws a [RangeError] on [NaN] and on the infinities, which
    [Math.floor] leaves as they are. *)
Definition BigInt_floor (x : number) : result Z :=
  match x with
  | S754_zero _ => Ok 0
  | S754_finite s m e => Ok (Z.shiftl (if s then Z.neg m else Z.pos m) e)
  | S754_infinity _ | S754_nan => Throw RangeError
  end.

(** [BigInt(x)]: the integer that [x] is; [BigInt] throws a [RangeError]
    when [x] is no integer ([NaN], an infinity, or a number with a
    fractional part). *)
Definition BigInt_of_number (x : number) : result Z :=
  match x with
  | S754_zero _ => Ok 0
  | S754_finite s m e =>
      let v := Z.shiftl (Z.pos m) e in
      if Z.shiftl v (- e) =? Z.pos m
      then Ok (if s then - v else v)
      else Throw RangeError
  | S754_infinity _ | S754_nan => Throw RangeError
  end.

(** [view.setBigUint64(0, v, true)] on a fresh 8-byte buffer: [v] modulo
    2^64, little-endian. *)
Definition setBigUint64 (buf : Uint8Array) (offset : nat) (v : Z) : Uint8Array :=
  set buf (le_bytes 8 (Z.land v 0xffffffffffffffff)) offset.

(** ** Strings *)

Definition ascii_of_Z (z : Z) : ascii := ascii_of_N (Z.to_N z).
Definition Z_of_ascii (c : ascii) : Z := Z.of_N (N_of_ascii c).

(** The digit of value [d] ([0 <= d < 16]) as [toString(16)] prints it. *)
Definition hex_digit (d : Z) : ascii :=
  if d <? 10 then ascii_of_Z (48 + d) else ascii_of_Z (87 + d).

Fixpoint hex_of_nonneg (fuel : nat) (n : Z) (acc : string) : string :=
  let acc' := String (hex_digit (n mod 16)) acc in
  match fuel with
  | O => acc'
  | S fuel' => if n / 16 =? 0 then acc' else hex_of_nonneg fuel' (n / 16) acc'
  end.

(** [n.toString(16)] for an integral number or a bigint [n]. *)
Definition toString16 (n : Z) : string :=
  if n <? 0
  then String "-" (hex_of_nonneg (Z.to_nat (Z.log2 (- n))) (- n) "")
  else hex_of_nonneg (Z.to_nat (Z.log2 n)) n "".

Fixpoint string_repeat (c : ascii) (n : nat) : string :=
  match n with
  | O => EmptyString
  | S n' => String c (string_repeat c n')
  end.

(** [s.padStart(n, c)] for a one-character filler. *)
Definition padStart (s : string) (n : nat) (c : ascii) : string :=
  String.append (string_repeat c (n - String.length s)) s.

(** [parts.join('')] *)
Definition join (parts : list string) : string :=
  fold_right String.append EmptyString parts.

(** [s.substr(start, len)] and [s.substring(start, stop)] for
    [0 <= start <= stop]. *)
Definition substr (s : string) (start len : nat) : string :=
  String.substring start len s.

Definition substring (s : string) (start stop : nat) : string :=
  String.substring start (stop - start) s.

(** The value of a hexadecimal digit, of either case. *)
Definition hex_value (c : ascii) : option Z :=
  let n := Z_of_ascii c in
  if (48 <=? n) && (n <=? 57) then Some (n - 48)
  else if (97 <=? n) && (n <=? 102) then Some (n - 87)
  else if (65 <=? n) && (n <=? 70) then Some (n - 55)
  else None.

(** White space and line terminators among the code units below 256. *)
Definition is_white_space (c : ascii) : bool :=
  let n := Z_of_ascii c in
  ((9 <=? n) && (n <=? 13)) || (n =? 32) || (n =? 160).

Fixpoint skip_white_space (s : string) : string :=
  match s with
  | String c s' => if is_white_space c then skip_white_space s' else s
  | EmptyString => s
  end.

(** The longest prefix of hexadecimal digits, read as a number:
    [None] when there is no digit. *)
Fixpoint hex_prefix (s : string) (acc : option Z) : option Z :=
  match s with
  | String c s' =>
      match hex_value c with
      | Some d =>
          hex_prefix s' (Some (16 * match acc with Some a => a | None => 0 end + d))
      | None => acc
      end
  | EmptyString => acc
  end.

Definition strip_0x (s : string) : string :=
  match s with
  | String "0" (String "x" s') => s'
  | String "0" (String "X" s') => s'
  | _ => s
  end.

(** [parseInt(s, 16)]; [None] is [NaN]. *)
Definition parseInt16 (s : string) : option Z :=
  let s := skip_white_space s in
  let '(neg, s) :=
    match s with
    | String "-" s' => (true, s')
    | String "+" s' => (false, s')
    | _ => (false, s)
    end in
  match hex_prefix (strip_0x s) None with
  | Some v => Some (if neg then - v else v)
  | None => None
  end.

(** [bytes[i] = v] for a number [v]: [NaN] is stored as 0. *)
Definition ToUint8 (v : option Z) : byte :=
  match v with
  | Some z => byte_of_Z z
  | None => x00
  end.

(** ** The source of randomness

    [crypto.getRandomValues] reads the next bytes of an unknown infinite
    sequence. *)
Definition entropy : Type := nat -> byte.

Definition getRandomValues (n : nat) (g : entropy) : Uint8Array * entropy :=
  (map g (seq 0 n), fun k => g (k + n)%nat).

(** The [j]-th block of 32 bytes of the sequence. *)
Definition draw (g : entropy) (j : nat) : Uint8Array :=
  map (fun k => g (32 * j + k)%nat) (seq 0 32).

(** ** The local hash (module [merkle], local variant) *)

Module Local.

Definition TREE_DEPTH : nat := 8.

Record hstate : Type := { h1 : Z; h2 : Z; h3 : Z; h4 : Z }.

Definition simpleHash_init : hstate :=
  {| h1 := 0x811c9dc5; h2 := 0x01000193; h3 := 0xdeadbeef; h4 := 0xcafebabe |}.

(** One iteration of the loop over [data]. *)
Definition simpleHash_step (h : hstate) (d : byte) : hstate :=
  {| h1 := imul (xor32 (h1 h) (Z_of_byte d)) 0x01000193;
     h2 := imul (xor32 (h2 h) (Z_of_byte d)) 0x811c9dc5;
     h3 := imul (xor32 (h3 h) (Z_of_byte d)) 0x1b873593;
     h4 := imul (xor32 (h4 h) (Z_of_byte d)) 0xcc9e2d51 |}.

Definition simpleHash_result (h : hstate) : Uint8Array :=
  let result := new_Uint8Array 32 in
  let result := setUint32 result 0 (ToUint32 (h1 h)) in
  let result := setUint32 result 4 (ToUint32 (h2 h)) in
  let result := setUint32 result 8 (ToUint32 (h3 h)) in
  let result := setUint32 result 12 (ToUint32 (h4 h)) in
  let result := setUint32 result 16 (ToUint32 (xor32 (h1 h) (h2 h))) in
  let result := setUint32 result 20 (ToUint32 (xor32 (h2 h) (h3 h))) in
  let result := setUint32 result 24 (ToUint32 (xor32 (h3 h) (h4 h))) in
  let result := setUint32 result 28 (ToUint32 (xor32 (h4 h) (h1 h))) in
  result.

Definition simpleHash (data : Uint8Array) : Uint8Array :=
  simpleHash_result (fold_left simpleHash_step data simpleHash_init).

Definition poseidonHash2 (a b : Uint8Array) : Uint8Array :=
  let combined := new_Uint8Array (length a + length b + 9) in
  let prefix := TextEncoder_encode "poseidon2" in
  let combined := set combined prefix 0 in
  let combined := set combined a (length prefix) in
  let combined := set combined b (length prefix + length a) in
  simpleHash combined.

Definition poseidonHash3 (a b c : Uint8Array) : Uint8Array :=
  let combined := new_Uint8Array (length a + length b + length c + 9) in
  let prefix := TextEncoder_encode "poseidon3" in
  let combined := set combined prefix 0 in
  let combined := set combined a (length prefix) in
  let combined := set combined b (length prefix + length a) in
  let combined := set combined c (length prefix + length a + length b) in
  simpleHash combined.

(** A call [poseidonHash2(x, y)] whose arguments come from array reads:
    reading [.length] of [undefined] is a [TypeError]. *)
Definition poseidonHash2_val (x y : value) : result Uint8Array :=
  match x, y with
  | Some a, Some b => Ok (poseidonHash2 a b)
  | _, _ => Throw TypeError
  end.

Record Recipient : Type := {
  wallet : string;
  amount : number;
  secret : option Uint8Array
}.

(** An element of [recipientsWithSecrets]. *)
Record RecipientWithSecret : Type := {
  rs_wallet : string;
  rs_amount : number;
  rs_secret : Uint8Array
}.

Record MerkleProof : Type := {
  leafIndex : Z;
  siblings : list value;
  leaf : value
}.

Definition computeLeafHash (wallet : string) (amount : number) (secret : Uint8Array)
  : result Uint8Array :=
  let walletBytes := TextEncoder_encode wallet in
  amountLamports <- BigInt_floor (number_mul amount (number_of_Z 1000000000)) ;;
  let amountBytes := new_Uint8Array 8 in
  let amountBytes := setBigUint64 amountBytes 0 amountLamports in
  Ok (poseidonHash3 walletBytes amountBytes secret).

Definition computeNullifier (secret : Uint8Array) (leafIndex : number)
  : result Uint8Array :=
  let indexBytes := new_Uint8Array 8 in
  index <- BigInt_of_number leafIndex ;;
  let indexBytes := setBigUint64 indexBytes 0 index in
  Ok (poseidonHash2 secret indexBytes).

Definition generateSecret (g : entropy) : Uint8Array * entropy :=
  let secret := new_Uint8Array 32 in
  getRandomValues (length secret) g.

(** [recipients.map(r => ({ ...r, secret: r.secret || generateSecret() }))]:
    every object is truthy, so only a missing secret draws a new one. *)
Fixpoint assignSecrets (recipients : list Recipient) (g : entropy)
  : list RecipientWithSecret * entropy :=
  match recipients with
  | [] => ([], g)
  | r :: rest =>
      let '(s, g1) :=
        match secret r with
        | Some s => (s, g)
        | None => generateSecret g
        end in
      let '(rest', g2) := assignSecrets rest g1 in
      ({| rs_wallet := wallet r; rs_amount := amount r; rs_secret := s |} :: rest', g2)
  end.

(** [while (leaves.length < paddedSize) leaves.push(new Uint8Array(32))] *)
Definition pad (leaves : list Uint8Array) (paddedSize : nat) : list Uint8Array :=
  leaves ++ repeat (new_Uint8Array 32) (paddedSize - length leaves).

(** The inner loop over [j = 0, 2, 4, ...]: at the last entry of a level
    of odd length [currentLevel[j + 1]] is [undefined], and the hash
    throws. *)
Fixpoint nextLevel (currentLevel : list Uint8Array) : result (list Uint8Array) :=
  match currentLevel with
  | [] => Ok []
  | [a] => parent <- poseidonHash2_val (Some a) None ;; Ok [parent]
  | a :: b :: rest =>
      parent <- poseidonHash2_val (Some a) (Some b) ;;
      more <- nextLevel rest ;;
      Ok (parent :: more)
  end.

(** The outer loop: [depth] further levels pushed onto [tree]. *)
Fixpoint buildLevels (depth : nat) (tree : list (list Uint8Array))
    (currentLevel : list Uint8Array)
  : result (list (list Uint8Array) * list Uint8Array) :=
  match depth with
  | O => Ok (tree, currentLevel)
  | S depth' =>
      next <- nextLevel currentLevel ;;
      buildLevels depth' (tree ++ [next]) next
  end.

Record MerkleTree : Type := {
  root : value;
  leaves : list Uint8Array;
  tree : list (list Uint8Array)
}.

(** The levels [ls] stacked on [currentLevel], each one produced from the
    level below it by the inner loop. *)
Fixpoint chain (currentLevel : list Uint8Array) (ls : list (list Uint8Array)) : Prop :=
  match ls with
  | [] => True
  | l :: ls' => nextLevel currentLevel = Ok l /\ chain l ls'
  end.

(** The build once the secrets are assigned: leaves, padding, levels. *)
Definition buildFrom (recipientsWithSecrets : list RecipientWithSecret)
  : result MerkleTree :=
  leaves <- mapM (fun r => computeLeafHash (rs_wallet r) (rs_amount r) (rs_secret r))
                 recipientsWithSecrets ;;
  let paddedSize := Nat.shiftl 1 TREE_DEPTH in
  let leaves := pad leaves paddedSize in
  built <- buildLevels TREE_DEPTH [leaves] leaves ;;
  let '(tree, currentLevel) := built in
  Ok {| root := get currentLevel 0; leaves := hd [] tree; tree := tree |}.

Definition buildMerkleTree (recipients : list Recipient) (g : entropy)
  : result MerkleTree * entropy :=
  let '(recipientsWithSecrets, g') := assignSecrets recipients g in
  (buildFrom recipientsWithSecrets, g').

(** The loop of [getMerkleProof], from level [i] upwards: reading an entry
    of a level that does not exist is a [TypeError]. *)
Fixpoint proofLoop (tree : list (list Uint8Array)) (depth : nat) (i : Z) (idx : Z)
    (siblings : list value) : result (list value) :=
  match depth with
  | O => Ok siblings
  | S depth' =>
      let siblingIdx := if Z.rem idx 2 =? 0 then idx + 1 else idx - 1 in
      match get tree i with
      | None => Throw TypeError
      | Some level =>
          proofLoop tree depth' (i + 1) (idx / 2) (siblings ++ [get level siblingIdx])
      end
  end.

Definition getMerkleProof (tree : list (list Uint8Array)) (leafIndex : Z)
  : result MerkleProof :=
  siblings <- proofLoop tree TREE_DEPTH 0 leafIndex [] ;;
  match get tree 0 with
  | None => Throw TypeError
  | Some level0 =>
      Ok {| leafIndex := leafIndex; siblings := siblings; leaf := get level0 leafIndex |}
  end.

(** The amounts on which [computeLeafHash] does not throw: the product
    with 10^9 is finite. *)
Definition payable (amount : number) : bool :=
  match BigInt_floor (number_mul amount (number_of_Z 1000000000)) with
  | Ok _ => true
  | Throw _ => false
  end.

(** The siblings that the loop of [getMerkleProof] reads when it walks up
    the given levels from [idx]. *)
Fixpoint path (levels : list (list Uint8Array)) (idx : Z) : list value :=
  match levels with
  | [] => []
  | level :: above =>
      get level (if Z.rem idx 2 =? 0 then idx + 1 else idx - 1) :: path above (idx / 2)
  end.

(** The first loop of [verifyMerkleProof]. *)
Fixpoint climb (siblings : list value) (current : value) (idx : Z) : result value :=
  match siblings with
  | [] => Ok current
  | s :: rest =>
      let isRight := Z.rem idx 2 =? 1 in
      next <- (if isRight then poseidonHash2_val s current
               else poseidonHash2_val current s) ;;
      climb rest (Some next) (idx / 2)
  end.

(** [x !== y] on array reads: two [undefined] are equal. *)
Definition differ (x y : option byte) : bool :=
  match x, y with
  | Some a, Some b => negb (Byte.eqb a b)
  | None, None => false
  | _, _ => true
  end.

(** The second loop: the first 32 entries are compared. *)
Definition sameRoot (current root : value) : result bool :=
  match current, root with
  | Some c, Some r =>
      Ok (forallb (fun i => negb (differ (get c (Z.of_nat i)) (get r (Z.of_nat i))))
                  (seq 0 32))
  | _, _ => Throw TypeError
  end.

(** The first 32 entries of two arrays agree. *)
Definition same32 (current root : Uint8Array) : bool :=
  forallb (fun i => negb (differ (get current (Z.of_nat i)) (get root (Z.of_nat i))))
          (seq 0 32).

Definition verifyMerkleProof (root leaf : value) (leafIndex : Z) (siblings : list value)
  : result bool :=
  current <- climb siblings leaf leafIndex ;;
  sameRoot current root.

Definition toHex (bytes : Uint8Array) : string :=
  join (map (fun b => padStart (toString16 (Z_of_byte b)) 2 "0") bytes).

(** The loop of [fromHex] over [i = 0 .. n - 1], written from the last
    index down. *)
Fixpoint fromHex_bytes (hex : string) (n : nat) : Uint8Array :=
  match n with
  | O => []
  | S i => fromHex_bytes hex i ++ [ToUint8 (parseInt16 (substr hex (i * 2) 2))]
  end.

(** [new Uint8Array(hex.length / 2)] truncates a fractional length. *)
Definition fromHex (hex : string) : Uint8Array :=
  fromHex_bytes hex (String.length hex / 2)%nat.

End Local.


(** ** Library calls used by the delegated module *)

(** [Buffer.from(bytes).toString("hex")] *)
Definition Buffer_toString_hex (bytes : Uint8Array) : string :=
  join (map (fun b => padStart (toString16 (Z_of_byte b)) 2 "0") bytes).

Fixpoint all_white_space (s : string) : bool :=
  match s with
  | String c s' => is_white_space c && all_white_space s'
  | EmptyString => true
  end.

(** The digits of a hexadecimal literal, which white space may follow. *)
Fixpoint hex_literal (s : string) (acc : option Z) : option Z :=
  match s with
  | String c s' =>
      match hex_value c with
      | Some d =>
          hex_literal s' (Some (16 * match acc with Some a => a | None => 0 end + d))
      | None => if all_white_space s then acc else None
      end
  | EmptyString => acc
  end.

(** [BigInt("0x" + h)]: a [SyntaxError] unless [h] is a non-empty run of
    hexadecimal digits. *)
Definition BigInt_0x (h : string) : result Z :=
  match hex_literal h None with
  | Some v => Ok v
  | None => Throw SyntaxError
  end.

(** The base-58 alphabet of [bs58]. *)
Definition base58_alphabet : string :=
  "123456789ABCDEFGHJKLMNPQRSTUVWXYZabcdefghijkmnopqrstuvwxyz".

Fixpoint index_of (c : ascii) (s : string) (i : Z) : option Z :=
  match s with
  | String c' s' => if Ascii.eqb c c' then Some i else index_of c s' (i + 1)
  | EmptyString => None
  end.

Fixpoint base58_value (s : string) (acc : Z) : option Z :=
  match s with
  | String c s' =>
      match index_of c base58_alphabet 0 with
      | Some d => base58_value s' (58 * acc + d)
      | None => None
      end
  | EmptyString => Some acc
  end.

Fixpoint leading_ones (s : string) : nat :=
  match s with
  | String "1" s' => S (leading_ones s')
  | _ => O
  end.

(** The bytes of [n], most significant first, without leading zeros. *)
Fixpoint be_bytes (fuel : nat) (n : Z) (acc : Uint8Array) : Uint8Array :=
  match fuel with
  | O => acc
  | S fuel' => if n =? 0 then acc else be_bytes fuel' (n / 256) (byte_of_Z n :: acc)
  end.

Definition bs58_decode (s : string) : option Uint8Array :=
  match base58_value s 0 with
  | Some n => Some (repeat x00 (leading_ones s) ++ be_bytes (String.length s) n [])
  | None => None
  end.

(** [new PublicKey(wallet).toBuffer()] of [@solana/web3.js]: the base-58
    decoding of the address, which must be 32 bytes long. *)
Definition PublicKey_toBuffer (wallet : string) : result Uint8Array :=
  match bs58_decode wallet with
  | Some bytes =>
      if (length bytes =? 32)%nat then Ok bytes
      else Throw (Error "Invalid public key input")
  | None => Throw (Error "Non-base58 character")
  end.

(** ** The delegated module *)

(** What the backend answers to one request. *)
Inductive response : Type :=
| Rejected                  (* [fetch] rejects: no answer at all *)
| NotOk (text : string)     (* an answer whose [ok] is false *)
| OkNotJson                 (* [ok], but [response.json()] throws *)
| OkJson (hash : string).   (* [ok], [String(data.hash)] is [hash] *)

(** What [poseidonHash] makes of an answer. *)
Definition hash_of_response (r : response) : result Z :=
  match r with
  | Rejected => Throw TypeError
  | NotOk _ => Throw (Error "Poseidon Hash Failed")
  | OkNotJson => Throw SyntaxError
  | OkJson hash => BigInt_0x hash
  end.

(** The backend: its answer to the request number [k] (in the order in
    which [fetch] is called) carrying the body [inputs]. *)
Definition backend : Type := nat -> list string -> response.

(** The requests sent so far, oldest first. *)
Definition log : Type := list (list string).

(** An [async] function: it sends requests and settles with a value or a
    rejection. *)
Definition async (A : Type) : Type := log -> result A * log.

Definition ret {A : Type} (r : result A) : async A := fun l => (r, l).

Definition await {A B : Type} (m : async A) (k : A -> async B) : async B :=
  fun l =>
    match m l with
    | (Ok a, l') => k a l'
    | (Throw e, l') => (Throw e, l')
    end.

Notation "x <~ m ;; k" := (await m (fun x => k))
  (at level 61, m at next level, right associativity).

(** Every promise of the list is started, in order; each one sends its
    request at once. *)
Fixpoint start_all {A : Type} (ms : list (async A)) (l : log) : list (result A) * log :=
  match ms with
  | [] => ([], l)
  | m :: ms' =>
      let '(r, l1) := m l in
      let '(rs, l2) := start_all ms' l1 in
      (r :: rs, l2)
  end.

(** The settled results of the promises: all values, or a rejection.
    When several promises reject, [Promise.all] rejects with the reason of
    the one that rejects first in time, which depends on when the answers
    arrive and is not modelled: the first rejection of the list is taken
    here.  So that a build is rejected can be read off [settle], but not
    with which exception; the theorems below only state that there is
    one. *)
Fixpoint settle {A : Type} (rs : list (result A)) : result (list A) :=
  match rs with
  | [] => Ok []
  | r :: rs' =>
      match r, settle rs' with
      | Ok a, Ok more => Ok (a :: more)
      | Throw e, _ => Throw e
      | Ok _, Throw e => Throw e
      end
  end.

(** [await Promise.all(ms)] *)
Definition Promise_all {A : Type} (ms : list (async A)) : async (list A) :=
  fun l => let '(rs, l') := start_all ms l in (settle rs, l').



Module Delegated.

Definition TREE_DEPTH : nat := 8.

Section WithBackend.

Variable service : backend.

(** [i.toString(16)] padded to an even number of digits. *)
Definition hexInput (i : Z) : string :=
  let hex := toString16 i in
  if Nat.eqb (Nat.modulo (String.length hex) 2) 0 then hex else String "0" hex.

(** An entry of [inputs] read from an array may be [undefined], on which
    [toString] is a [TypeError]. *)
Definition poseidonHash (inputs : list (option Z)) : async Z :=
  fun l =>
    match mapM (fun i => match i with
                         | Some i => Ok (hexInput i)
                         | None => Throw TypeError
                         end) inputs with
    | Throw e => (Throw e, l)
    | Ok hexInputs =>
        (hash_of_response (service (length l) hexInputs), l ++ [hexInputs])
    end.

Record Recipient : Type := {
  wallet : string;
  amount : Z;
  secret : option Uint8Array
}.

Record RecipientWithSecret : Type := {
  rs_wallet : string;
  rs_amount : Z;
  rs_secret : Uint8Array
}.

(** [secret[31] &= 0x1f] *)
Definition mask31 (secret : Uint8Array) : Uint8Array :=
  match nth_error secret 31 with
  | Some b => firstn 31 secret ++ [byte_of_Z (Z.land (Z_of_byte b) 0x1f)] ++ skipn 32 secret
  | None => secret
  end.

Definition generateSecret (g : entropy) : Uint8Array * entropy :=
  let secret := new_Uint8Array 32 in
  let '(secret, g') := getRandomValues (length secret) g in
  (mask31 secret, g').

Definition bigIntToBytes (bn : Z) : Uint8Array :=
  let hex := toString16 bn in
  let hex := if Nat.eqb (Nat.modulo (String.length hex) 2) 0 then hex else String "0" hex in
  let len := 32%nat in
  let needed := (len * 2)%nat in
  let hex := padStart hex needed "0" in
  map (fun i =>
         if (i * 2 <? String.length hex)%nat
         then ToUint8 (parseInt16 (substring hex (i * 2) (i * 2 + 2)))
         else x00)
      (seq 0 32).

Definition computeLeafHash (wallet : string) (amount : Z) (secret : Uint8Array)
  : async Uint8Array :=
  walletPubkey <~ ret (PublicKey_toBuffer wallet) ;;
  walletBn <~ ret (BigInt_0x (Buffer_toString_hex walletPubkey)) ;;
  let amountLamports := amount in
  secretBn <~ ret (BigInt_0x (Buffer_toString_hex secret)) ;;
  hash <~ poseidonHash [Some walletBn; Some amountLamports; Some secretBn] ;;
  ret (Ok (bigIntToBytes hash)).

Definition computeNullifier (secret : Uint8Array) (leafIndex : number)
  : async Uint8Array :=
  secretBn <~ ret (BigInt_0x (Buffer_toString_hex secret)) ;;
  indexBn <~ ret (BigInt_of_number leafIndex) ;;
  hash <~ poseidonHash [Some secretBn; Some indexBn] ;;
  ret (Ok (bigIntToBytes hash)).

Fixpoint assignSecrets (recipients : list Recipient) (g : entropy)
  : list RecipientWithSecret * entropy :=
  match recipients with
  | [] => ([], g)
  | r :: rest =>
      let '(s, g1) :=
        match secret r with
        | Some s => (s, g)
        | None => generateSecret g
        end in
      let '(rest', g2) := assignSecrets rest g1 in
      ({| rs_wallet := wallet r; rs_amount := amount r; rs_secret := s |} :: rest', g2)
  end.

(** [while (leavesBn.length < paddedSize) leavesBn.push(0n)] *)
Definition pad (leavesBn : list Z) (paddedSize : nat) : list Z :=
  leavesBn ++ repeat 0 (paddedSize - length leavesBn).

(** The promises pushed onto [levelPromises], for [j = 0, 2, 4, ...]. *)
Fixpoint levelPromises (currentLevel : list Z) : list (async Z) :=
  match currentLevel with
  | [] => []
  | [a] => [poseidonHash [Some a; None]]
  | a :: b :: rest => poseidonHash [Some a; Some b] :: levelPromises rest
  end.

Fixpoint buildLevels (depth : nat) (currentLevel : list Z) : async (list Z) :=
  match depth with
  | O => ret (Ok currentLevel)
  | S depth' =>
      nextLevel <~ Promise_all (levelPromises currentLevel) ;;
      buildLevels depth' nextLevel
  end.

Record MerkleTree : Type := {
  root : Uint8Array;
  leaves : list Uint8Array
}.

(** The build once the secrets are assigned: leaves, padding, levels. *)
Definition buildFrom (recipientsWithSecrets : list RecipientWithSecret)
  : async MerkleTree :=
  leavesBn <~ Promise_all
      (map (fun r =>
              leafBytes <~ computeLeafHash (rs_wallet r) (rs_amount r) (rs_secret r) ;;
              ret (BigInt_0x (Buffer_toString_hex leafBytes)))
           recipientsWithSecrets) ;;
  let paddedSize := Nat.shiftl 1 TREE_DEPTH in
  let leavesBn := pad leavesBn paddedSize in
  currentLevel <~ buildLevels TREE_DEPTH leavesBn ;;
  match get currentLevel 0 with
  | None => ret (Throw TypeError)
  | Some rootBn =>
      let leavesBytes := map bigIntToBytes leavesBn in
      ret (Ok {| root := bigIntToBytes rootBn; leaves := leavesBytes |})
  end.

Definition buildMerkleTree (recipients : list Recipient) (g : entropy)
  : async MerkleTree * entropy :=
  let '(recipientsWithSecrets, g') := assignSecrets recipients g in
  (buildFrom recipientsWithSecrets, g').

Definition toHex (bytes : Uint8Array) : string :=
  join (map (fun b => padStart (toString16 (Z_of_byte b)) 2 "0") bytes).

Fixpoint fromHex_bytes (hex : string) (n : nat) : Uint8Array :=
  match n with
  | O => []
  | S i => fromHex_bytes hex i ++ [ToUint8 (parseInt16 (substring hex (i * 2) (i * 2 + 2)))]
  end.

Definition fromHex (hex : string) : Uint8Array :=
  fromHex_bytes hex (String.length hex / 2)%nat.

End WithBackend.

End Delegated.


(** ** Objects and references

    The value-level functions above take and return the contents of
    arrays.  To speak of which objects a build reads, creates and hands
    back, the functions below run the same build on a store of objects:
    a reference is a position in the store, and [new] appends. *)

Definition loc : Type := nat.

Module Store.

Section Objects.

(** The type of amounts: [number] or [bigint]. *)
Variable A : Type.

Inductive object : Type :=
| Bytes (bytes : Uint8Array)                               (* a [Uint8Array] *)
| Rec (wallet : string) (amount : A) (secret : option loc) (* a recipient *)
| Arr (elems : list loc).                                  (* an array of objects *)

Definition store : Type := list object.

Definition alloc (h : store) (o : object) : loc * store := (length h, h ++ [o]).

(** The references that an object holds. *)
Definition refs (o : object) : list loc :=
  match o with
  | Bytes _ => []
  | Rec _ _ (Some l) => [l]
  | Rec _ _ None => []
  | Arr elems => elems
  end.

(** [reaches h l l']: following references from [l] leads to [l']. *)
Inductive reaches (h : store) : loc -> loc -> Prop :=
| reaches_here (l : loc) : reaches h l l
| reaches_step (l m l' : loc) (o : object) :
    nth_error h l = Some o -> In m (refs o) -> reaches h m l' -> reaches h l l'.

(** No object of the store refers outside the store. *)
Definition closed (h : store) : Prop :=
  forall (l m : loc) (o : object),
    nth_error h l = Some o -> In m (refs o) -> (m < length h)%nat.

Variable generateSecret : entropy -> Uint8Array * entropy.

(** [r => ({ ...r, secret: r.secret || generateSecret() })]: a new object
    is made; the object [r] is read only. *)
Definition withSecret (r : loc) (h : store) (g : entropy)
  : result loc * store * entropy :=
  match nth_error h r with
  | Some (Rec w a s) =>
      let '(sl, h1, g1) :=
        match s with
        | Some l => (l, h, g)
        | None =>
            let '(bytes, g1) := generateSecret g in
            let '(l, h1) := alloc h (Bytes bytes) in
            (l, h1, g1)
        end in
      let '(r', h2) := alloc h1 (Rec w a (Some sl)) in
      (Ok r', h2, g1)
  | _ => (Throw TypeError, h, g)
  end.

(** [recipients.map(...)] over the entries of the array. *)
Fixpoint assignSecrets (rs : list loc) (h : store) (g : entropy)
  : result (list loc) * store * entropy :=
  match rs with
  | [] => (Ok [], h, g)
  | r :: rest =>
      match withSecret r h g with
      | (Ok r', h1, g1) =>
          match assignSecrets rest h1 g1 with
          | (Ok rest', h2, g2) => (Ok (r' :: rest'), h2, g2)
          | (Throw e, h2, g2) => (Throw e, h2, g2)
          end
      | (Throw e, h1, g1) => (Throw e, h1, g1)
      end
  end.

Definition read_bytes (h : store) (l : loc) : option Uint8Array :=
  match nth_error h l with
  | Some (Bytes bytes) => Some bytes
  | _ => None
  end.

(** The wallet, the amount and the bytes of the secret of a recipient
    that has one. *)
Definition read_rec (h : store) (r : loc) : option (string * A * Uint8Array) :=
  match nth_error h r with
  | Some (Rec w a (Some l)) =>
      match read_bytes h l with
      | Some s => Some (w, a, s)
      | None => None
      end
  | _ => None
  end.

Fixpoint read_all {X : Type} (f : loc -> option X) (ls : list loc) : option (list X) :=
  match ls with
  | [] => Some []
  | l :: ls' =>
      match f l, read_all f ls' with
      | Some x, Some xs => Some (x :: xs)
      | _, _ => None
      end
  end.

(** One new [Uint8Array] for each of the given contents. *)
Fixpoint alloc_all (h : store) (xs : list Uint8Array) : list loc * store :=
  match xs with
  | [] => ([], h)
  | x :: xs' =>
      let '(l, h1) := alloc h (Bytes x) in
      let '(ls, h2) := alloc_all h1 xs' in
      (l :: ls, h2)
  end.

(** One new array, of new [Uint8Array]s, for each level: the reference of
    the array and those of its entries. *)
Fixpoint alloc_levels (h : store) (levels : list (list Uint8Array))
  : list (loc * list loc) * store :=
  match levels with
  | [] => ([], h)
  | level :: more =>
      let '(es, h1) := alloc_all h level in
      let '(a, h2) := alloc h1 (Arr es) in
      let '(rest, h3) := alloc_levels h2 more in
      ((a, es) :: rest, h3)
  end.

(** The objects of [h'] from position [n] on refer to positions from [n]
    on only. *)
Definition above (n : nat) (h' : store) : Prop :=
  forall (l m : loc) (o : object),
    (n <= l)%nat -> nth_error h' l = Some o -> In m (refs o) -> (n <= m)%nat.

(** What the caller can still reach of a secret at [s] after a build that
    turned the store [h] into [h'] and returned the references [outs]:
    nothing, neither from the objects it had nor from those returned. *)
Definition unreachable (h h' : store) (outs : list loc) (s : loc) : Prop :=
  forall l : loc, (l < length h)%nat \/ In l outs -> ~ reaches h' l s.

(** The recipient at [r] has no secret. *)
Definition lacks (h : store) (r : loc) : bool :=
  match nth_error h r with
  | Some (Rec _ _ None) => true
  | _ => false
  end.

(** How many recipients of the list have no secret. *)
Definition missing (h : store) (rs : list loc) : nat := length (filter (lacks h) rs).

(** What [generateSecret] makes of the 32 bytes it draws. *)
Variable secretOf : Uint8Array -> Uint8Array.

(** The build, started with the source of randomness [g], assigned
    secrets to the recipients [rs] of the store [h], which gave the
    recipients [rws], and ended with the store [h'], the references [outs]
    returned and the source of randomness [g']: the objects of [h] are as
    they were; each recipient that had no secret got the next block of 32
    random bytes (one block for each such recipient, in the order of the
    list) as its secret, held by a new object that the caller cannot
    reach; and the blocks drawn are used up. *)
Definition discarded (g g' : entropy) (h h' : store) (rs rws outs : list loc) : Prop :=
  (forall (l : loc) (o : object), nth_error h l = Some o -> nth_error h' l = Some o) /\
  (forall (i : nat) (r : loc) (w : string) (a : A),
      nth_error rs i = Some r ->
      nth_error h r = Some (Rec w a None) ->
      exists r' s : loc,
        nth_error rws i = Some r' /\
        nth_error h' r' = Some (Rec w a (Some s)) /\
        (length h <= s)%nat /\
        nth_error h' s = Some (Bytes (secretOf (draw g (missing h (firstn i rs))))) /\
        unreachable h h' outs s) /\
  (forall k : nat, g' k = g (k + 32 * missing h rs)%nat).

End Objects.

Arguments Bytes {A} bytes.
Arguments Rec {A} wallet amount secret.
Arguments Arr {A} elems.
Arguments alloc {A} h o.
Arguments refs {A} o.
Arguments reaches {A} h _ _.
Arguments closed {A} h.
Arguments above {A} n h'.
Arguments withSecret {A} generateSecret r h g.
Arguments assignSecrets {A} generateSecret rs h g.
Arguments read_bytes {A} h l.
Arguments read_rec {A} h r.
Arguments alloc_all {A} h xs.
Arguments alloc_levels {A} h levels.
Arguments unreachable {A} h h' outs s.
Arguments lacks {A} h r.
Arguments missing {A} h rs.
Arguments discarded {A} secretOf g g' h h' rs rws outs.

End Store.

(** The local build on a store. *)
Module LocalStore.
Import Store.

(** The references of the returned object: [root] is [undefined] or an
    entry of the top level, [leaves] is the array [tree[0]]. *)
Record MerkleTree : Type := {
  root : option loc;
  leaves : loc;
  tree : loc
}.

(** The references that the returned object holds. *)
Definition outs (t : MerkleTree) : list loc :=
  match root t with
  | Some l => [l; leaves t; tree t]
  | None => [leaves t; tree t]
  end.

Definition recipientWithSecret (v : string * number * Uint8Array)
  : Local.RecipientWithSecret :=
  let '(w, a, s) := v in
  {| Local.rs_wallet := w; Local.rs_amount := a; Local.rs_secret := s |}.

Definition buildMerkleTree (recipients : loc) (h : store number) (g : entropy)
  : result MerkleTree * store number * entropy :=
  match nth_error h recipients with
  | Some (Arr rs) =>
      match assignSecrets Local.generateSecret rs h g with
      | (Ok recipientsWithSecrets, h1, g1) =>
          match read_all (read_rec h1) recipientsWithSecrets with
          | Some values =>
              match Local.buildFrom (map recipientWithSecret values) with
              | Ok t =>
                  let '(levels, h2) := alloc_levels h1 (Local.tree t) in
                  let '(tr, h3) := alloc h2 (Arr (map fst levels)) in
                  (Ok {| root := get (snd (last levels (0%nat, []))) 0;
                         leaves := fst (hd (0%nat, []) levels);
                         tree := tr |},
                   h3, g1)
              | Throw e => (Throw e, h1, g1)
              end
          | None => (Throw TypeError, h1, g1)
          end
      | (Throw e, h1, g1) => (Throw e, h1, g1)
      end
  | _ => (Throw TypeError, h, g)
  end.

End LocalStore.

(** The delegated build on a store. *)
Module DelegatedStore.
Import Store.

Record MerkleTree : Type := {
  root : loc;
  leaves : loc
}.

Definition outs (t : MerkleTree) : list loc := [root t; leaves t].

Definition recipientWithSecret (v : string * Z * Uint8Array)
  : Delegated.RecipientWithSecret :=
  let '(w, a, s) := v in
  {| Delegated.rs_wallet := w; Delegated.rs_amount := a; Delegated.rs_secret := s |}.

Definition buildMerkleTree (service : backend) (recipients : loc)
    (h : store Z) (g : entropy) (l : log)
  : result MerkleTree * store Z * entropy * log :=
  match nth_error h recipients with
  | Some (Arr rs) =>
      match assignSecrets Delegated.generateSecret rs h g with
      | (Ok recipientsWithSecrets, h1, g1) =>
          match read_all (read_rec h1) recipientsWithSecrets with
          | Some values =>
              match Delegated.buildFrom service (map recipientWithSecret values) l with
              | (Ok t, l') =>
                  let '(rt, h2) := alloc h1 (Bytes (Delegated.root t)) in
                  let '(es, h3) := alloc_all h2 (Delegated.leaves t) in
                  let '(lv, h4) := alloc h3 (Arr es) in
                  (Ok {| root := rt; leaves := lv |}, h4, g1, l')
              | (Throw e, l') => (Throw e, h1, g1, l')
              end
          | None => (Throw TypeError, h1, g1, l)
          end
      | (Throw e, h1, g1) => (Throw e, h1, g1, l)
      end
  | _ => (Throw TypeError, h, g, l)
  end.

End DelegatedStore.

(** ** The module of program addresses

    [generateMerkleRoot] builds the tree with the delegated module; its
    recipients carry no secret. *)

Module Solana.

Definition generateMerkleRoot (service : backend) (recipients : list (string * Z))
    (g : entropy) : async Uint8Array * entropy :=
  let '(built, g') :=
    Delegated.buildMerkleTree service
      (map (fun r => {| Delegated.wallet := fst r; Delegated.amount := snd r;
                        Delegated.secret := None |}) recipients) g in
  (t <~ built ;; ret (Ok (Delegated.root t)), g').

End Solana.

(** ** The network provider

    The choice of the network is kept in the local storage of the browser
    and read again when the page is loaded. *)

Module Network.

Inductive NetworkType : Type := localnet | devnet.

Definition name (n : NetworkType) : string :=
  match n with
  | localnet => "localnet"
  | devnet => "devnet"
  end.

(** [localStorage]: the item stored under each key, if any. *)
Definition storage : Type := string -> option string.

Definition getItem (st : storage) (key : string) : option string := st key.

Definition setItem (st : storage) (key value : string) : storage :=
  fun k => if String.eqb k key then Some value else st k.

(** The initial state of [NetworkProvider]. *)
Definition initialNetwork (st : storage) (hostname : string) : NetworkType :=
  let byHost := if String.eqb hostname "localhost" then localnet else devnet in
  match getItem st "shadow-drop-network" with
  | Some saved =>
      if String.eqb saved "localnet" then localnet
      else if String.eqb saved "devnet" then devnet
      else byHost
  | None => byHost
  end.

(** [setNetwork]: the choice is stored, and the page is loaded again. *)
Definition setNetwork (newNetwork : NetworkType) (st : storage) : storage :=
  setItem st "shadow-drop-network" (name newNetwork).

(** [NETWORK_CONFIGS[network].explorerUrl] *)
Definition explorerUrl (network : NetworkType) : string :=
  match network with
  | localnet => "https://explorer.solana.com/?cluster=custom&customUrl=http://localhost:8899"
  | devnet => "https://explorer.solana.com/?cluster=devnet"
  end.

Definition getExplorerUrl (network : NetworkType) (type value : string) : string :=
  match network with
  | localnet =>
      "https://explorer.solana.com/" ++ type ++ "/" ++ value
        ++ "?cluster=custom&customUrl=http://localhost:8899"
  | devnet =>
      "https://explorer.solana.com/" ++ type ++ "/" ++ value ++ "?cluster=devnet"
  end.

End Network.

(** ** The hook module

    [hexToBytes] of the hook that connects to the program: always 32
    bytes, each read from two characters of the string. *)

(** [s.slice(start, stop)] for [0 <= start <= stop]. *)
Definition slice (s : string) (start stop : nat) : string :=
  String.substring start (stop - start) s.

Module Hooks.

(** The loop over [i = 0 .. n - 1], written from the last index down. *)
Fixpoint hexToBytes_bytes (hex : string) (n : nat) : Uint8Array :=
  match n with
  | O => []
  | S i => hexToBytes_bytes hex i ++ [ToUint8 (parseInt16 (slice hex (i * 2) (i * 2 + 2)))]
  end.

Definition hexToBytes (hex : string) : Uint8Array := hexToBytes_bytes hex 32.

End Hooks.

(** ** Canonical hexadecimal strings *)

(** The hexadecimal digits of either case. *)
Definition hex_digits : list ascii :=
  ["0"; "1"; "2"; "3"; "4"; "5"; "6"; "7"; "8"; "9";
   "a"; "b"; "c"; "d"; "e"; "f"; "A"; "B"; "C"; "D"; "E"; "F"]%char.

(** The lowercase of a hexadecimal digit. *)
Definition lower_digit (c : ascii) : ascii :=
  let n := Z_of_ascii c in
  if (65 <=? n) && (n <=? 70) then ascii_of_Z (n + 32) else c.

Fixpoint lower_digits (s : string) : string :=
  match s with
  | String c s' => String (lower_digit c) (lower_digits s')
  | EmptyString => EmptyString
  end.

(** The byte that [fromHex], [hexToBytes] and [bigIntToBytes] store at
    position [i]: the two characters from position [2 i] on, parsed. *)
Definition byte_at (hex : string) (i : nat) : byte :=
  ToUint8 (parseInt16 (String.substring (i * 2) 2 hex)).


Definition is_lower_hex (c : ascii) : bool :=
  let n := Z_of_ascii c in
  ((48 <=? n) && (n <=? 57)) || ((97 <=? n) && (n <=? 102)).

Fixpoint all_lower_hex (s : string) : bool :=
  match s with
  | String c s' => is_lower_hex c && all_lower_hex s'
  | EmptyString => true
  end.

Definition lower_hex_digits : list ascii :=
  ["0"; "1"; "2"; "3"; "4"; "5"; "6"; "7"; "8"; "9";
   "a"; "b"; "c"; "d"; "e"; "f"]%char.

(** The two characters that [toHex] writes for one byte. *)
Definition hex2 (b : byte) : string := padStart (toString16 (Z_of_byte b)) 2 "0".

(** The number that a run of hexadecimal digits denotes after the digits
    of [acc]. *)
Fixpoint hex_number (s : string) (acc : Z) : Z :=
  match s with
  | String c s' =>
      hex_number s' (16 * acc + match hex_value c with Some d => d | None => 0 end)
  | EmptyString => acc
  end.

Fixpoint all_hex (s : string) : bool :=
  match s with
  | String c s' =>
      match hex_value c with Some _ => all_hex s' | None => false end
  | EmptyString => true
  end.

(** [a ^ b] on two entries of a [Uint8Array]. *)
Definition byte_xor (a b : byte) : byte :=
  byte_of_Z (Z.lxor (Z_of_byte a) (Z_of_byte b)).

(** The number whose bytes, most significant first, are [bytes]. *)
Definition be_value (bytes : Uint8Array) : Z :=
  fold_left (fun acc b => 256 * acc + Z_of_byte b) bytes 0.

(** The number whose bytes, least significant first, are [bytes]. *)
Definition le_value (bytes : Uint8Array) : Z :=
  fold_right (fun b acc => Z_of_byte b + 256 * acc) 0 bytes.

(** Lowercase hexadecimal digits only, an even number of them. *)
Definition canonical (s : string) : bool :=
  all_lower_hex s && Nat.even (String.length s).

(** ** Sample inputs *)

Definition sample_entropy : entropy := fun k => byte_of_Z (Z.of_nat k * 7 + 3).

Definition walletA : string := "7wjDqUQUpnudD25MELXBiayNiMrStXaKAdrLMwzccu7v".
Definition walletB : string := "5C5x84vdrZi1h89u4g7VBsKyrBk5AQ1RjnrFFd5KvWuj".
Definition secretB : Uint8Array := map (fun k => byte_of_Z (Z.of_nat k)) (seq 1 32).

Module Samples.

Definition recipientA : Local.Recipient :=
  {| Local.wallet := walletA; Local.amount := number_of_Z 1000; Local.secret := None |}.

Definition recipientB : Local.Recipient :=
  {| Local.wallet := walletB; Local.amount := number_of_Z 2000;
     Local.secret := Some secretB |}.

Definition two : list Local.Recipient := [recipientA; recipientB].

(** 256 and 512 recipients. *)
Definition full : list Local.Recipient := repeat recipientB 256.
Definition crowd : list Local.Recipient := repeat recipientB 512.

Definition no_tree : Local.MerkleTree :=
  {| Local.root := None; Local.leaves := []; Local.tree := [] |}.

Definition tree_of (r : result Local.MerkleTree * entropy) : Local.MerkleTree :=
  match fst r with
  | Ok t => t
  | Throw _ => no_tree
  end.

Definition two_tree : Local.MerkleTree :=
  Eval vm_compute in tree_of (Local.buildMerkleTree two sample_entropy).

Definition empty_tree : Local.MerkleTree :=
  Eval vm_compute in tree_of (Local.buildMerkleTree [] sample_entropy).

(** Two recipients of the delegated module, and a backend that fails on
    its second request. *)
Definition paidA : Delegated.Recipient :=
  {| Delegated.wallet := walletA; Delegated.amount := 1000; Delegated.secret := None |}.

Definition paidB : Delegated.Recipient :=
  {| Delegated.wallet := walletB; Delegated.amount := 2000;
     Delegated.secret := Some secretB |}.



(** A store of the caller: two recipients, the secret of the second one,
    and the array of the two. *)
Definition held : Store.store number :=
  [Store.Rec walletA (number_of_Z 1000) None;
   Store.Bytes secretB;
   Store.Rec walletB (number_of_Z 2000) (Some 1%nat);
   Store.Arr [0%nat; 2%nat]].

Definition held_tree : LocalStore.MerkleTree :=
  Eval vm_compute in
    match fst (fst (LocalStore.buildMerkleTree 3%nat held sample_entropy)) with
    | Ok t => t
    | Throw _ => {| LocalStore.root := None; LocalStore.leaves := 0%nat;
                    LocalStore.tree := 0%nat |}
    end.

(** A recipient whose amount is not finite, and one whose secret has no
    byte. *)
Definition spendthrift : Local.Recipient :=
  {| Local.wallet := walletA; Local.amount := S754_infinity false; Local.secret := None |}.

Definition hollow : Delegated.Recipient :=
  {| Delegated.wallet := walletB; Delegated.amount := 2000; Delegated.secret := Some [] |}.

(** A backend that answers every request, with a hash that depends on the
    position of the request. *)
Definition steady : backend :=
  fun k _ => OkJson (hex_of_nonneg (S k) (Z.of_nat k + 1) "").

Definition steady_tree : Delegated.MerkleTree :=
  Eval vm_compute in
    match fst (fst (Delegated.buildMerkleTree steady [paidA; paidB] sample_entropy) []) with
    | Ok t => t
    | Throw _ => {| Delegated.root := []; Delegated.leaves := [] |}
    end.

Definition steady_log : log :=
  Eval vm_compute in
    snd (fst (Delegated.buildMerkleTree steady [paidA; paidB] sample_entropy) []).

Definition payees : list (string * Z) := [(walletA, 1000); (walletB, 2000)].

Definition steady_root : Uint8Array :=
  Eval vm_compute in
    match fst (fst (Solana.generateMerkleRoot steady payees sample_entropy) []) with
    | Ok rootBytes => rootBytes
    | Throw _ => []
    end.

Definition steady_root_log : log :=
  Eval vm_compute in snd (fst (Solana.generateMerkleRoot steady payees sample_entropy) []).

Definition no_item : Network.storage := fun _ => None.

(** The store of the caller for the delegated module, and the object
    that the delegated build returns on it. *)
Definition held_paid : Store.store Z :=
  [Store.Rec walletA 1000 None;
   Store.Bytes secretB;
   Store.Rec walletB 2000 (Some 1%nat);
   Store.Arr [0%nat; 2%nat]].

Definition held_paid_tree : DelegatedStore.MerkleTree :=
  Eval vm_compute in
    match fst (fst (fst (DelegatedStore.buildMerkleTree steady 3%nat held_paid
                           sample_entropy []))) with
    | Ok t => t
    | Throw _ => {| DelegatedStore.root := 0%nat; DelegatedStore.leaves := 0%nat |}
    end.

(** A backend that answers every request with the last of its inputs, and
    the tree and the requests of a build with it. *)
Definition echo : backend := fun _ inputs => OkJson (last inputs EmptyString).

Definition echo_tree : Delegated.MerkleTree :=
  Eval vm_compute in
    match fst (fst (Delegated.buildMerkleTree echo [paidA] sample_entropy) []) with
    | Ok t => t
    | Throw _ => {| Delegated.root := []; Delegated.leaves := [] |}
    end.

Definition echo_log : log :=
  Eval vm_compute in snd (fst (Delegated.buildMerkleTree echo [paidA] sample_entropy) []).

(** A source of randomness that gives zero bytes only, and the local tree
    built with it. *)
Definition zero_entropy : entropy := fun _ => x00.

Definition zero_tree : Local.MerkleTree :=
  Eval vm_compute in tree_of (Local.buildMerkleTree [recipientA] zero_entropy).

(** A backend that always answers with the same hash, and 256 and 512
    recipients of the delegated module. *)
Definition calm : backend := fun _ _ => OkJson "1f".

Definition paid_full : list Delegated.Recipient := repeat paidB 256.
Definition paid_crowd : list Delegated.Recipient := repeat paidB 512.

(** The number 0.5. *)
Definition half : number := binary_normalize 53 1024 1 (-1) false.

End Samples.

(** * Properties *)

Ltac div_lia := Z.div_mod_to_equations; lia.

(** ** Lists read two entries at a time *)

Lemma pair_ind {A : Type} (P : list A -> Prop) :
  P [] -> (forall a, P [a]) -> (forall a b l, P l -> P (a :: b :: l)) ->
  forall l, P l.
Proof.
  intros H0 H1 H2 l.
  assert (H : P l /\ forall a, P (a :: l)).
  { induction l as [|x l [IH1 IH2]]; split; auto. }
  apply H.
Qed.

Lemma get_nth_error {A : Type} (l : list A) (n : nat) :
  get l (Z.of_nat n) = nth_error l n.
Proof.
  unfold get. destruct (Z.ltb_spec (Z.of_nat n) 0); [lia|].
  now rewrite Nat2Z.id.
Qed.

Lemma get_negative {A : Type} (l : list A) (i : Z) : i < 0 -> get l i = None.
Proof.
  intros H. unfold get. destruct (Z.ltb_spec i 0); [reflexivity|lia].
Qed.

Lemma get_beyond {A : Type} (l : list A) (i : Z) :
  Z.of_nat (length l) <= i -> get l i = None.
Proof.
  intros H. unfold get. destruct (Z.ltb_spec i 0); [reflexivity|].
  apply nth_error_None. lia.
Qed.

Lemma get_Some_range {A : Type} (l : list A) (i : Z) (x : A) :
  get l i = Some x -> 0 <= i < Z.of_nat (length l).
Proof.
  unfold get. destruct (Z.ltb_spec i 0) as [Hi|Hi]; [discriminate|].
  intros E. assert (Z.to_nat i < length l)%nat.
  { apply nth_error_Some. congruence. }
  lia.
Qed.

Lemma get_In {A : Type} (l : list A) (i : Z) (x : A) : get l i = Some x -> In x l.
Proof.
  unfold get. destruct (i <? 0); [discriminate|]. apply nth_error_In.
Qed.

Lemma get_in_range {A : Type} (l : list A) (i : Z) :
  0 <= i < Z.of_nat (length l) -> exists x, get l i = Some x.
Proof.
  intros Hr. unfold get. destruct (Z.ltb_spec i 0) as [Hi|Hi]; [lia|].
  destruct (nth_error l (Z.to_nat i)) eqn:E; [eauto|].
  apply nth_error_None in E. lia.
Qed.

Module LocalFacts.
Import Local.

(** *** One level *)

Lemma nextLevel_length (cur next : list Uint8Array) :
  nextLevel cur = Ok next -> length cur = (2 * length next)%nat.
Proof.
  revert next. induction cur as [| a | a b l IH] using pair_ind; intros next H.
  - inversion H. reflexivity.
  - discriminate.
  - simpl in H. destruct (nextLevel l) as [more|e]; [|discriminate].
    inversion H; subst. simpl. rewrite (IH more eq_refl). lia.
Qed.

Lemma nextLevel_even (cur : list Uint8Array) :
  Nat.even (length cur) = true -> exists next, nextLevel cur = Ok next.
Proof.
  induction cur as [| a | a b l IH] using pair_ind; intros H.
  - exists []. reflexivity.
  - discriminate.
  - destruct (IH H) as [more E]. exists (poseidonHash2 a b :: more).
    simpl. rewrite E. reflexivity.
Qed.

Lemma nextLevel_odd (cur : list Uint8Array) :
  Nat.even (length cur) = false -> nextLevel cur = Throw TypeError.
Proof.
  induction cur as [| a | a b l IH] using pair_ind; intros H.
  - discriminate.
  - reflexivity.
  - simpl. rewrite (IH H). reflexivity.
Qed.

Lemma nextLevel_nth (cur next : list Uint8Array) :
  nextLevel cur = Ok next ->
  forall (j : nat) (a b : Uint8Array),
    nth_error cur (2 * j) = Some a ->
    nth_error cur (2 * j + 1) = Some b ->
    nth_error next j = Some (poseidonHash2 a b).
Proof.
  revert next. induction cur as [| x | x y l IH] using pair_ind; intros next H j a b Ha Hb.
  - destruct j; discriminate.
  - discriminate.
  - simpl in H. destruct (nextLevel l) as [more|e] eqn:E; [|discriminate].
    inversion H; subst. destruct j as [|j].
    + simpl in *. congruence.
    + replace (2 * S j)%nat with (S (S (2 * j))) in Ha by lia.
      replace (2 * S j + 1)%nat with (S (S (2 * j + 1))) in Hb by lia.
      simpl in *. eapply IH; eauto.
Qed.

Lemma nextLevel_app (l1 l2 n1 : list Uint8Array) :
  nextLevel l1 = Ok n1 ->
  nextLevel (l1 ++ l2) = (n2 <- nextLevel l2 ;; Ok (n1 ++ n2)).
Proof.
  revert n1. induction l1 as [| x | x y l IH] using pair_ind; intros n1 H.
  - inversion H. simpl. destruct (nextLevel l2); reflexivity.
  - discriminate.
  - simpl in H. destruct (nextLevel l) as [more|e] eqn:E; [|discriminate].
    inversion H; subst. simpl. rewrite (IH more eq_refl).
    destruct (nextLevel l2); reflexivity.
Qed.

(** *** All levels *)

Lemma last_cons {A : Type} (l : list A) (x d : A) : last (x :: l) d = last l x.
Proof.
  revert x d. induction l as [|y l IH]; intros x d; [reflexivity|].
  change (last (x :: y :: l) d) with (last (y :: l) d).
  rewrite IH. symmetry. apply IH.
Qed.

Lemma buildLevels_spec (depth : nat) :
  forall (tree : list (list Uint8Array)) (cur : list Uint8Array) t' top,
    buildLevels depth tree cur = Ok (t', top) ->
    exists ls, t' = tree ++ ls /\ length ls = depth /\ chain cur ls /\ top = last ls cur.
Proof.
  induction depth as [|d IH]; intros tree cur t' top H; simpl in H.
  - inversion H; subst. exists []. rewrite app_nil_r. simpl. auto.
  - destruct (nextLevel cur) as [next|e] eqn:E; [|discriminate]. simpl in H.
    destruct (IH _ _ _ _ H) as (ls & -> & Hlen & Hc & ->).
    exists (next :: ls). rewrite <- app_assoc. simpl.
    repeat split; auto. symmetry. apply last_cons.
Qed.

Lemma buildLevels_ok (depth : nat) :
  forall (tree : list (list Uint8Array)) (cur : list Uint8Array) (k : nat),
    length cur = (k * 2 ^ depth)%nat ->
    exists r, buildLevels depth tree cur = Ok r.
Proof.
  induction depth as [|d IH]; intros tree cur k H; simpl.
  - eauto.
  - destruct (nextLevel_even cur) as [next E].
    { rewrite H. replace (k * 2 ^ S d)%nat with (2 * (k * 2 ^ d))%nat
        by (rewrite Nat.pow_succ_r'; lia).
      rewrite Nat.even_mul. reflexivity. }
    rewrite E. simpl. apply (IH _ _ k).
    apply nextLevel_length in E. rewrite Nat.pow_succ_r' in H. nia.
Qed.

Lemma buildLevels_fail (depth : nat) :
  forall (tree : list (list Uint8Array)) (cur : list Uint8Array),
    (length cur mod 2 ^ depth <> 0)%nat ->
    buildLevels depth tree cur = Throw TypeError.
Proof.
  induction depth as [|d IH]; intros tree cur H; simpl.
  - exfalso. apply H. apply Nat.mod_1_r.
  - destruct (Nat.even (length cur)) eqn:Ev.
    + destruct (nextLevel_even cur Ev) as [next E]. rewrite E. simpl.
      apply IH. intros Hm. apply H.
      apply nextLevel_length in E. rewrite E.
      rewrite Nat.pow_succ_r'.
      rewrite Nat.Div0.mul_mod_distr_l. rewrite Hm. reflexivity.
    + rewrite (nextLevel_odd cur Ev). reflexivity.
Qed.

Lemma chain_nth (cur : list Uint8Array) (ls : list (list Uint8Array)) :
  chain cur ls ->
  forall (i : nat) (lo hi : list Uint8Array),
    nth_error (cur :: ls) i = Some lo ->
    nth_error (cur :: ls) (S i) = Some hi ->
    nextLevel lo = Ok hi.
Proof.
  revert cur. induction ls as [|l ls IH]; intros cur Hc i lo hi Hlo Hhi.
  - destruct i; simpl in Hhi; [discriminate|]. destruct i; discriminate.
  - destruct Hc as [H1 H2]. destruct i as [|i].
    + simpl in *. congruence.
    + simpl in Hlo, Hhi. eapply (IH l H2 i); eauto.
Qed.

Lemma chain_length (cur : list Uint8Array) (ls : list (list Uint8Array)) :
  chain cur ls ->
  forall (i : nat) (level : list Uint8Array),
    nth_error (cur :: ls) i = Some level ->
    length cur = (2 ^ i * length level)%nat.
Proof.
  revert cur. induction ls as [|l ls IH]; intros cur Hc i level Hl.
  - destruct i; simpl in Hl; [|destruct i; discriminate].
    inversion Hl; subst. simpl. lia.
  - destruct Hc as [H1 H2]. destruct i as [|i].
    + simpl in Hl. inversion Hl; subst. simpl. lia.
    + simpl in Hl. apply nextLevel_length in H1.
      rewrite H1, (IH l H2 i level Hl). rewrite Nat.pow_succ_r'. lia.
Qed.

(** *** Leaves *)

Lemma mapM_length {A B : Type} (f : A -> result B) (l : list A) (l' : list B) :
  mapM f l = Ok l' -> length l' = length l.
Proof.
  revert l'. induction l as [|a l IH]; intros l' H; simpl in H.
  - inversion H. reflexivity.
  - destruct (f a); [|discriminate]. simpl in H.
    destruct (mapM f l) eqn:E; [|discriminate]. inversion H; subst.
    simpl. rewrite (IH _ eq_refl). reflexivity.
Qed.

Lemma assignSecrets_length (rs : list Recipient) (g : entropy) :
  length (fst (assignSecrets rs g)) = length rs.
Proof.
  revert g. induction rs as [|r rs IH]; intros g; simpl; [reflexivity|].
  destruct (match secret r with Some s => (s, g) | None => generateSecret g end) as [s g1].
  specialize (IH g1). destruct (assignSecrets rs g1) as [rest g2].
  simpl in *. congruence.
Qed.

Lemma pad_length (ls : list Uint8Array) (n : nat) :
  (length ls <= n)%nat -> length (pad ls n) = n.
Proof.
  intros H. unfold pad. rewrite length_app, repeat_length. lia.
Qed.

Lemma pad_full (ls : list Uint8Array) (n : nat) :
  (n <= length ls)%nat -> pad ls n = ls.
Proof.
  intros H. unfold pad. replace (n - length ls)%nat with 0%nat by lia.
  apply app_nil_r.
Qed.

(** What a successful build returns, in terms of the computed leaves. *)
Lemma buildMerkleTree_Ok (rs : list Recipient) (g : entropy) (t : MerkleTree) :
  fst (buildMerkleTree rs g) = Ok t ->
  exists computed ls,
    mapM (fun r => computeLeafHash (rs_wallet r) (rs_amount r) (rs_secret r))
         (fst (assignSecrets rs g)) = Ok computed /\
    length computed = length rs /\
    tree t = pad computed 256 :: ls /\
    leaves t = pad computed 256 /\
    length ls = 8%nat /\
    chain (pad computed 256) ls /\
    root t = get (last ls (pad computed 256)) 0.
Proof.
  unfold buildMerkleTree, buildFrom. pose proof (assignSecrets_length rs g) as Hlen.
  destruct (assignSecrets rs g) as [rws g']. cbn [fst] in *.
  change (Nat.shiftl 1 TREE_DEPTH) with 256%nat.
  destruct (mapM _ rws) as [computed|e] eqn:E; cbn [bind]; [|discriminate].
  destruct (buildLevels TREE_DEPTH [pad computed 256] (pad computed 256))
    as [[t' top]|e] eqn:B; cbn [bind]; [|discriminate].
  intros H. inversion H; subst; clear H. cbn [root leaves tree].
  destruct (buildLevels_spec _ _ _ _ _ B) as (ls & -> & Hl & Hc & ->).
  exists computed, ls. apply mapM_length in E. cbn [app hd].
  repeat split; auto; congruence.
Qed.

(** *** Structure of a built tree *)

Lemma nth_error_last {A : Type} (l : list A) (x : A) :
  nth_error (x :: l) (length l) = Some (last l x).
Proof.
  revert x. induction l as [|y l IH]; intros x; [reflexivity|].
  change (nth_error (x :: y :: l) (length (y :: l))) with (nth_error (y :: l) (length l)).
  rewrite IH. f_equal. symmetry. apply last_cons.
Qed.

(** C7: a tree returned by the local [buildMerkleTree] for at most 256
    recipients has 9 levels; level [i] has [2^(8-i)] entries (256 at level
    0, 1 at level 8); every entry [j] of level [i+1] is the hash of the
    entries [2j] and [2j+1] of level [i]; and the returned root is entry 0
    of level 8. *)
Theorem tree_invariant (rs : list Recipient) (g : entropy) (t : MerkleTree) :
  (length rs <= 256)%nat ->
  fst (buildMerkleTree rs g) = Ok t ->
  length (tree t) = 9%nat /\
  (forall (i : nat) (level : list Uint8Array),
      nth_error (tree t) i = Some level -> length level = (2 ^ (8 - i))%nat) /\
  (forall i : nat, (i < 8)%nat ->
      exists lo hi,
        nth_error (tree t) i = Some lo /\
        nth_error (tree t) (S i) = Some hi /\
        forall j : nat, (j < length hi)%nat ->
          exists a b,
            nth_error lo (2 * j) = Some a /\
            nth_error lo (2 * j + 1) = Some b /\
            nth_error hi j = Some (poseidonHash2 a b)) /\
  (exists top r,
      nth_error (tree t) 8 = Some top /\ get top 0 = Some r /\ root t = Some r).
Proof.
  intros Hn Hb.
  destruct (buildMerkleTree_Ok rs g t Hb)
    as (computed & ls & _ & Hc & Ht & _ & Hl & Hch & Hr).
  assert (H256 : length (pad computed 256) = 256%nat) by (apply pad_length; lia).
  rewrite Ht.
  assert (Hlev : forall (i : nat) (level : list Uint8Array),
             nth_error (pad computed 256 :: ls) i = Some level ->
             length level = (2 ^ (8 - i))%nat).
  { intros i level Hi.
    assert (i < 9)%nat.
    { assert (Hs : nth_error (pad computed 256 :: ls) i <> None) by congruence.
      apply nth_error_Some in Hs. simpl in Hs. lia. }
    pose proof (chain_length _ _ Hch i level Hi) as Hlen. rewrite H256 in Hlen.
    assert (E : (256 = 2 ^ i * 2 ^ (8 - i))%nat).
    { rewrite <- Nat.pow_add_r. replace (i + (8 - i))%nat with 8%nat by lia. reflexivity. }
    rewrite E in Hlen. apply Nat.mul_cancel_l in Hlen; [lia|].
    apply Nat.pow_nonzero. lia. }
  split; [simpl; lia|]. split; [exact Hlev|]. split.
  - intros i Hi.
    destruct (nth_error (pad computed 256 :: ls) i) as [lo|] eqn:Elo.
    2:{ apply nth_error_None in Elo. simpl in Elo. lia. }
    destruct (nth_error (pad computed 256 :: ls) (S i)) as [hi|] eqn:Ehi.
    2:{ apply nth_error_None in Ehi. simpl in Ehi. lia. }
    exists lo, hi. repeat split; auto.
    pose proof (chain_nth _ _ Hch i lo hi Elo Ehi) as Hnext.
    pose proof (nextLevel_length _ _ Hnext) as Hlen.
    intros j Hj.
    destruct (nth_error lo (2 * j)) as [a|] eqn:Ea.
    2:{ apply nth_error_None in Ea. lia. }
    destruct (nth_error lo (2 * j + 1)) as [b|] eqn:Eb.
    2:{ apply nth_error_None in Eb. lia. }
    exists a, b. repeat split; auto.
    eapply nextLevel_nth; eauto.
  - pose proof (nth_error_last ls (pad computed 256)) as Htop. rewrite Hl in Htop.
    pose proof (Hlev 8%nat _ Htop) as Hlen.
    destruct (last ls (pad computed 256)) as [|r top'] eqn:El; [discriminate|].
    exists (r :: top'), r. repeat split; auto.
Qed.

(** *** Proofs of membership *)

Lemma rem2_even (n : nat) : Z.rem (Z.of_nat (2 * n)) 2 = 0.
Proof. rewrite Z.rem_mod_nonneg by lia. div_lia. Qed.

Lemma rem2_odd (n : nat) : Z.rem (Z.of_nat (2 * n + 1)) 2 = 1.
Proof. rewrite Z.rem_mod_nonneg by lia. div_lia. Qed.

(** One step of the climb: the sibling is there, and hashing the entry
    with its sibling, in the order the parity tells, gives the parent. *)
Lemma step_up (lo hi : list Uint8Array) (idx : Z) (x : Uint8Array) :
  nextLevel lo = Ok hi ->
  get lo idx = Some x ->
  exists s,
    get lo (if Z.rem idx 2 =? 0 then idx + 1 else idx - 1) = Some s /\
    get hi (idx / 2) =
      Some (if Z.rem idx 2 =? 1 then poseidonHash2 s x else poseidonHash2 x s).
Proof.
  intros Hn Hx. pose proof (get_Some_range _ _ _ Hx) as Hr.
  pose proof (nextLevel_length _ _ Hn) as Hlen.
  destruct (Nat.Even_or_Odd (Z.to_nat idx)) as [[j Hj]|[j Hj]];
    assert (Hidx : idx = Z.of_nat (Z.to_nat idx)) by lia;
    rewrite Hj in Hidx; subst idx.
  - rewrite rem2_even. cbn [Z.eqb].
    replace (Z.of_nat (2 * j) + 1) with (Z.of_nat (2 * j + 1)) by lia.
    replace (Z.of_nat (2 * j) / 2) with (Z.of_nat j) by div_lia.
    rewrite !get_nth_error in *.
    destruct (nth_error lo (2 * j + 1)) as [s|] eqn:Es.
    2:{ apply nth_error_None in Es. lia. }
    exists s. split; [reflexivity|]. eapply nextLevel_nth; eauto.
  - rewrite rem2_odd. cbn [Z.eqb Pos.eqb].
    replace (Z.of_nat (2 * j + 1) - 1) with (Z.of_nat (2 * j)) by lia.
    replace (Z.of_nat (2 * j + 1) / 2) with (Z.of_nat j) by div_lia.
    rewrite !get_nth_error in *.
    destruct (nth_error lo (2 * j)) as [s|] eqn:Es.
    2:{ apply nth_error_None in Es. lia. }
    exists s. split; [reflexivity|]. eapply nextLevel_nth; eauto.
Qed.

Lemma proofLoop_path (depth : nat) :
  forall (pre rest : list (list Uint8Array)) (idx : Z) (acc : list value),
    (depth <= length rest)%nat ->
    proofLoop (pre ++ rest) depth (Z.of_nat (length pre)) idx acc =
    Ok (acc ++ path (firstn depth rest) idx).
Proof.
  induction depth as [|d IH]; intros pre rest idx acc Hd.
  - simpl. rewrite app_nil_r. reflexivity.
  - destruct rest as [|level rest]; [simpl in Hd; lia|].
    cbn [proofLoop]. rewrite get_nth_error.
    rewrite nth_error_app2 by lia. rewrite Nat.sub_diag. cbn [nth_error].
    replace (pre ++ level :: rest) with ((pre ++ [level]) ++ rest)
      by (rewrite <- app_assoc; reflexivity).
    replace (Z.of_nat (length pre) + 1) with (Z.of_nat (length (pre ++ [level])))
      by (rewrite length_app; simpl; lia).
    rewrite IH by (simpl in Hd; lia).
    cbn [firstn path]. rewrite <- app_assoc. reflexivity.
Qed.

Lemma climb_chain (ls : list (list Uint8Array)) :
  forall (cur : list Uint8Array) (idx : Z) (x : Uint8Array),
    chain cur ls ->
    get cur idx = Some x ->
    exists y,
      climb (path (firstn (length ls) (cur :: ls)) idx) (Some x) idx = Ok (Some y) /\
      get (last ls cur) (idx / 2 ^ Z.of_nat (length ls)) = Some y.
Proof.
  induction ls as [|l ls IH]; intros cur idx x Hc Hx.
  - exists x. simpl. rewrite Z.div_1_r. auto.
  - destruct Hc as [Hn Hc].
    destruct (step_up _ _ _ _ Hn Hx) as (s & Hs & Hup).
    destruct (IH l (idx / 2) _ Hc Hup) as (y & Hy & Htop).
    exists y. split.
    + cbn [length firstn path climb]. rewrite Hs.
      destruct (Z.rem idx 2 =? 1); cbn [poseidonHash2_val bind]; exact Hy.
    + rewrite last_cons.
      replace (idx / 2 ^ Z.of_nat (length (l :: ls)))
        with (idx / 2 / 2 ^ Z.of_nat (length ls)); [exact Htop|].
      rewrite Z.div_div by lia. f_equal.
      cbn [length]. rewrite Nat2Z.inj_succ, Z.pow_succ_r by lia. reflexivity.
Qed.

Lemma differ_same (x : option byte) : differ x x = false.
Proof.
  destruct x as [b|]; [|reflexivity]. simpl.
  rewrite (Byte.byte_dec_lb eq_refl). reflexivity.
Qed.

Lemma sameRoot_same (c : Uint8Array) : sameRoot (Some c) (Some c) = Ok true.
Proof.
  unfold sameRoot. f_equal. apply forallb_forall. intros i _.
  rewrite differ_same. reflexivity.
Qed.

(** C1: for a tree returned by the local [buildMerkleTree] for at most 256
    recipients and every leaf index [0 <= i < 256], [getMerkleProof]
    returns a proof, and [verifyMerkleProof] applied to the root, the
    proof's leaf, [i] and the proof's siblings returns [true]. *)
Theorem proof_round_trip (rs : list Recipient) (g : entropy) (t : MerkleTree) (i : Z) :
  (length rs <= 256)%nat ->
  fst (buildMerkleTree rs g) = Ok t ->
  0 <= i < 256 ->
  exists p,
    getMerkleProof (tree t) i = Ok p /\
    verifyMerkleProof (root t) (leaf p) i (siblings p) = Ok true.
Proof.
  intros Hn Hb Hi.
  destruct (buildMerkleTree_Ok rs g t Hb)
    as (computed & ls & _ & Hc & Ht & _ & Hl & Hch & Hr).
  assert (H256 : length (pad computed 256) = 256%nat) by (apply pad_length; lia).
  destruct (get_in_range (pad computed 256) i) as [x Hx]; [lia|].
  destruct (climb_chain ls _ i x Hch Hx) as (y & Hclimb & Htop).
  rewrite Hl in Htop, Hclimb.
  change (2 ^ Z.of_nat 8) with 256 in Htop.
  replace (i / 256) with 0 in Htop by (symmetry; apply Z.div_small; lia).
  unfold getMerkleProof. rewrite Ht.
  change TREE_DEPTH with 8%nat.
  pose proof (proofLoop_path 8 [] (pad computed 256 :: ls) i []) as Hp.
  cbn [app length] in Hp. change (Z.of_nat 0) with 0 in Hp.
  rewrite Hp by (simpl; lia). cbn [bind get Z.ltb Z.compare Z.to_nat nth_error].
  eexists. split; [reflexivity|]. cbn [leaf siblings].
  unfold verifyMerkleProof. rewrite Hx, Hclimb. cbn [bind].
  rewrite Hr, Htop. apply sameRoot_same.
Qed.

(** *** Capacity *)

Lemma assignSecrets_amounts (rs : list Recipient) (g : entropy) :
  map rs_amount (fst (assignSecrets rs g)) = map amount rs.
Proof.
  revert g. induction rs as [|r rs IH]; intros g; simpl; [reflexivity|].
  destruct (match secret r with Some s => (s, g) | None => generateSecret g end) as [s g1].
  specialize (IH g1). destruct (assignSecrets rs g1) as [rest g2].
  simpl in *. congruence.
Qed.

Lemma leaves_computed (rws : list RecipientWithSecret) :
  forallb payable (map rs_amount rws) = true ->
  exists computed,
    mapM (fun r => computeLeafHash (rs_wallet r) (rs_amount r) (rs_secret r)) rws
    = Ok computed.
Proof.
  induction rws as [|r rws IH]; intros H; simpl in *.
  - eauto.
  - apply andb_true_iff in H. destruct H as [Hr Hrest].
    destruct (IH Hrest) as [computed E]. rewrite E.
    unfold computeLeafHash, payable in *.
    destruct (BigInt_floor _); [|discriminate]. simpl. eauto.
Qed.

(** The top level over a longer list of leaves starts with the top level
    over its first part. *)
Lemma buildLevels_prefix (depth : nat) :
  forall (l1 l2 : list Uint8Array) (tr1 tr t1 t : list (list Uint8Array))
         (top1 top : list Uint8Array),
    buildLevels depth tr1 l1 = Ok (t1, top1) ->
    buildLevels depth tr (l1 ++ l2) = Ok (t, top) ->
    exists top2, top = top1 ++ top2.
Proof.
  induction depth as [|d IH]; intros l1 l2 tr1 tr t1 t top1 top H1 H; simpl in *.
  - inversion H1; inversion H; subst. eauto.
  - destruct (nextLevel l1) as [n1|e] eqn:E1; [|discriminate]. cbn [bind] in H1.
    rewrite (nextLevel_app l1 l2 n1 E1) in H.
    destruct (nextLevel l2) as [n2|e] eqn:E2; [|discriminate]. cbn [bind] in H.
    eapply IH; eauto.
Qed.

(** A build over a multiple of 256 leaves goes through, and its root is
    the root of the first 256 leaves. *)
Lemma build_multiple (rs : list Recipient) (g : entropy) :
  (256 <= length rs)%nat ->
  forallb payable (map amount rs) = true ->
  (length rs mod 256 = 0)%nat ->
  exists t tr top,
    fst (buildMerkleTree rs g) = Ok t /\
    mapM (fun r => computeLeafHash (rs_wallet r) (rs_amount r) (rs_secret r))
         (fst (assignSecrets rs g)) = Ok (leaves t) /\
    length (leaves t) = length rs /\
    length (tree t) = 9%nat /\
    buildLevels TREE_DEPTH [firstn 256 (leaves t)] (firstn 256 (leaves t))
      = Ok (tr, top) /\
    root t = get top 0.
Proof.
  intros Hn Hp Hm. rewrite <- assignSecrets_amounts with (g := g) in Hp.
  destruct (leaves_computed _ Hp) as [computed E].
  pose proof (mapM_length _ _ _ E) as Hlen.
  rewrite assignSecrets_length in Hlen.
  unfold buildMerkleTree, buildFrom.
  destruct (assignSecrets rs g) as [rws g']. cbn [fst] in *.
  change (Nat.shiftl 1 TREE_DEPTH) with 256%nat.
  rewrite E. cbn [bind]. rewrite pad_full by lia.
  destruct (buildLevels_ok TREE_DEPTH [computed] computed (length rs / 256))
    as [[t' top'] B].
  { rewrite Hlen. change (2 ^ TREE_DEPTH)%nat with 256%nat.
    pose proof (Nat.div_mod_eq (length rs) 256). lia. }
  destruct (buildLevels_ok TREE_DEPTH [firstn 256 computed] (firstn 256 computed) 1)
    as [[tr top] B1].
  { rewrite length_firstn. change (2 ^ TREE_DEPTH)%nat with 256%nat. lia. }
  rewrite B. cbn [bind].
  assert (Hpre : exists top2, top' = top ++ top2).
  { eapply buildLevels_prefix with (l2 := skipn 256 computed); [exact B1|].
    rewrite firstn_skipn. exact B. }
  destruct Hpre as [top2 Ht].
  destruct (buildLevels_spec _ _ _ _ _ B) as (ls & -> & Hl & Hc & Etop).
  destruct (buildLevels_spec _ _ _ _ _ B1) as (ls1 & -> & Hl1 & Hc1 & ->).
  exists {| root := get top' 0;
            leaves := hd [] ([computed] ++ ls);
            tree := [computed] ++ ls |}, ([firstn 256 computed] ++ ls1),
         (last ls1 (firstn 256 computed)).
  cbn [root leaves tree app hd].
  repeat split; auto.
  - simpl. rewrite Hl. reflexivity.
  - rewrite Ht.
    pose proof (nth_error_last ls1 (firstn 256 computed)) as Hlast.
    pose proof (chain_length _ _ Hc1 _ _ Hlast) as Hl256.
    rewrite length_firstn, Hl1 in Hl256.
    destruct (last ls1 (firstn 256 computed)) as [|r rest];
      [|reflexivity].
    cbn [length] in Hl256. rewrite Nat.mul_0_r in Hl256. lia.
Qed.

(** A build over more leaves than 256, not a multiple of 256, reaches a
    level of odd length. *)
Lemma build_not_multiple (rs : list Recipient) (g : entropy) :
  (256 <= length rs)%nat ->
  forallb payable (map amount rs) = true ->
  (length rs mod 256 <> 0)%nat ->
  fst (buildMerkleTree rs g) = Throw TypeError.
Proof.
  intros Hn Hp Hm. rewrite <- assignSecrets_amounts with (g := g) in Hp.
  destruct (leaves_computed _ Hp) as [computed E].
  pose proof (mapM_length _ _ _ E) as Hlen.
  rewrite assignSecrets_length in Hlen.
  unfold buildMerkleTree, buildFrom.
  destruct (assignSecrets rs g) as [rws g']. cbn [fst] in *.
  change (Nat.shiftl 1 TREE_DEPTH) with 256%nat.
  rewrite E. cbn [bind]. rewrite pad_full by lia.
  rewrite buildLevels_fail; [reflexivity|].
  rewrite Hlen. exact Hm.
Qed.

(** *** Indices out of range *)

Lemma path_negative (levels : list (list Uint8Array)) :
  forall idx : Z, idx < 0 -> path levels idx = repeat None (length levels).
Proof.
  induction levels as [|level above IH]; intros idx Hi; [reflexivity|].
  cbn [path length repeat]. rewrite IH by div_lia. f_equal.
  apply get_negative.
  destruct (Z.eqb_spec (Z.rem idx 2) 0) as [E|E]; [|lia].
  pose proof (Z.quot_rem' idx 2). lia.
Qed.

Lemma path_beyond (ls : list (list Uint8Array)) :
  forall (cur : list Uint8Array) (idx : Z),
    chain cur ls ->
    Z.of_nat (length cur) <= idx ->
    path (firstn (length ls) (cur :: ls)) idx = repeat None (length ls).
Proof.
  induction ls as [|l ls IH]; intros cur idx Hc Hi; [reflexivity|].
  destruct Hc as [Hn Hc]. pose proof (nextLevel_length _ _ Hn) as Hlen.
  cbn [length firstn path repeat]. rewrite IH; auto.
  2:{ div_lia. }
  f_equal. apply get_beyond.
  destruct (Z.eqb_spec (Z.rem idx 2) 0) as [E|E]; [lia|].
  rewrite Z.rem_mod_nonneg in E by lia.
  assert (idx <> Z.of_nat (length cur)).
  { intros ->. apply E. rewrite Hlen. div_lia. }
  lia.
Qed.

(** Level 0 of a built tree: the computed leaves, filled up to 256. *)
Lemma leaves_count (rs : list Recipient) (g : entropy) (t : MerkleTree) :
  fst (buildMerkleTree rs g) = Ok t ->
  length (leaves t) = Nat.max 256 (length rs).
Proof.
  intros Hb.
  destruct (buildMerkleTree_Ok rs g t Hb) as (computed & ls & _ & Hc & _ & -> & _).
  unfold pad. rewrite length_app, repeat_length. lia.
Qed.

(** On a built tree, an index that is negative or not below the number of
    entries of level 0 gets a proof that is all [undefined]. *)
Lemma proof_beyond_leaves (rs : list Recipient) (g : entropy) (t : MerkleTree) (idx : Z) :
  fst (buildMerkleTree rs g) = Ok t ->
  idx < 0 \/ Z.of_nat (length (leaves t)) <= idx ->
  getMerkleProof (tree t) idx =
  Ok {| leafIndex := idx; siblings := repeat None 8; leaf := None |}.
Proof.
  intros Hb Hi.
  destruct (buildMerkleTree_Ok rs g t Hb)
    as (computed & ls & _ & Hc & Ht & Hlv & Hl & Hch & Hr).
  rewrite Hlv in Hi.
  unfold getMerkleProof. rewrite Ht. change TREE_DEPTH with 8%nat.
  pose proof (proofLoop_path 8 [] (pad computed 256 :: ls) idx []) as Hp.
  cbn [app length] in Hp. change (Z.of_nat 0) with 0 in Hp.
  rewrite Hp by (simpl; lia). cbn [bind get Z.ltb Z.compare Z.to_nat nth_error].
  assert (Hpath : path (firstn 8 (pad computed 256 :: ls)) idx = repeat None 8).
  { destruct Hi as [Hi|Hi].
    - rewrite path_negative by assumption.
      rewrite length_firstn. simpl. rewrite Hl. reflexivity.
    - transitivity (path (firstn (length ls) (pad computed 256 :: ls)) idx);
        [rewrite Hl; reflexivity|].
      rewrite path_beyond; [rewrite Hl; reflexivity | exact Hch | lia]. }
  rewrite Hpath. do 2 f_equal.
  destruct Hi as [Hi|Hi]; [apply get_negative | apply get_beyond]; lia.
Qed.

(** C4 (amended): [getMerkleProof] checks no index.  On a tree returned by
    the local [buildMerkleTree], for any number [n] of recipients, it
    raises no error whatever the index.  Level 0 of the tree has
    [max 256 n] entries, and for every index that is negative or not
    below that number (with at most 256 recipients: every index outside
    [0, 256)) the proof returned has a leaf and 8 siblings that are all
    [undefined]. *)
Theorem getMerkleProof_out_of_range
    (rs : list Recipient) (g : entropy) (t : MerkleTree) (idx : Z) :
  fst (buildMerkleTree rs g) = Ok t ->
  length (leaves t) = Nat.max 256 (length rs) /\
  (exists p, getMerkleProof (tree t) idx = Ok p) /\
  (idx < 0 \/ Z.of_nat (Nat.max 256 (length rs)) <= idx ->
   getMerkleProof (tree t) idx =
   Ok {| leafIndex := idx; siblings := repeat None 8; leaf := None |}).
Proof.
  intros Hb. pose proof (leaves_count rs g t Hb) as Hn.
  split; [exact Hn|]. split.
  - destruct (buildMerkleTree_Ok rs g t Hb)
      as (computed & ls & _ & _ & Ht & _ & Hl & _).
    unfold getMerkleProof. rewrite Ht. change TREE_DEPTH with 8%nat.
    pose proof (proofLoop_path 8 [] (pad computed 256 :: ls) idx []) as Hp.
    cbn [app length] in Hp. change (Z.of_nat 0) with 0 in Hp.
    rewrite Hp by (simpl; lia).
    cbn [bind get Z.ltb Z.compare Z.to_nat nth_error]. eauto.
  - intros Hi. apply (proof_beyond_leaves rs g t idx Hb). rewrite Hn. exact Hi.
Qed.

(** *** Verification never throws *)

Lemma climb_defined (sibs : list Uint8Array) :
  forall (current : Uint8Array) (idx : Z),
    exists top, climb (map Some sibs) (Some current) idx = Ok (Some top).
Proof.
  induction sibs as [|s sibs IH]; intros current idx; simpl.
  - eauto.
  - destruct (Z.rem idx 2 =? 1); simpl; apply IH.
Qed.

(** C5 (amended): on byte arrays [verifyMerkleProof] always returns a
    plain boolean, whatever the number of siblings and whatever the leaf
    index: [true] when the first 32 entries of the recomputed value equal
    those of the root, [false] otherwise. *)
Theorem verifyMerkleProof_boolean
    (root leaf : Uint8Array) (leafIndex : Z) (siblings : list Uint8Array) :
  exists current,
    climb (map Some siblings) (Some leaf) leafIndex = Ok (Some current) /\
    verifyMerkleProof (Some root) (Some leaf) leafIndex (map Some siblings)
    = Ok (same32 current root) /\
    (same32 current root = true <->
     forall i : nat, (i < 32)%nat -> nth_error current i = nth_error root i).
Proof.
  destruct (climb_defined siblings leaf leafIndex) as [current Hc].
  exists current. split; [assumption|]. split.
  - unfold verifyMerkleProof. rewrite Hc. reflexivity.
  - unfold same32. rewrite forallb_forall. split.
    + intros H i Hi. specialize (H i). rewrite in_seq in H.
      specialize (H ltac:(lia)). rewrite !get_nth_error in H.
      destruct (nth_error current i) as [a|], (nth_error root i) as [b|];
        simpl in H; try discriminate; try reflexivity.
      f_equal. apply Byte.byte_dec_bl. now destruct (Byte.eqb a b).
    + intros H i Hi. apply in_seq in Hi. rewrite !get_nth_error.
      rewrite H by lia. rewrite differ_same. reflexivity.
Qed.

End LocalFacts.

(** ** More on the local tree *)

Module LocalMore.
Import Local LocalFacts.

Lemma mapM_nth {A B : Type} (f : A -> result B) (l : list A) (l' : list B) :
  mapM f l = Ok l' ->
  forall (i : nat) (a : A),
    nth_error l i = Some a -> exists b, nth_error l' i = Some b /\ f a = Ok b.
Proof.
  revert l'. induction l as [|x l IH]; intros l' H i a Hi.
  - destruct i; discriminate.
  - cbn [mapM] in H. destruct (f x) as [y|e] eqn:Ex; [|discriminate]. cbn [bind] in H.
    destruct (mapM f l) as [ys|e] eqn:E; [|discriminate]. inversion H; subst.
    destruct i as [|i]; cbn [nth_error] in *.
    + inversion Hi; subst. eauto.
    + eapply IH; eauto.
Qed.

(** What [assignSecrets] makes of the recipient at position [i]. *)
Lemma assignSecrets_nth (rs : list Recipient) :
  forall (g : entropy) (i : nat) (r : Recipient),
    nth_error rs i = Some r ->
    exists s,
      nth_error (fst (assignSecrets rs g)) i =
        Some {| rs_wallet := wallet r; rs_amount := amount r; rs_secret := s |} /\
      match secret r with
      | Some given => s = given
      | None => length s = 32%nat
      end.
Proof.
  induction rs as [|r0 rs IH]; intros g i r Hi; [destruct i; discriminate|].
  cbn [assignSecrets].
  destruct (match secret r0 with Some s => (s, g) | None => generateSecret g end)
    as [s0 g1] eqn:E0.
  specialize (IH g1). destruct (assignSecrets rs g1) as [rest g2]. cbn [fst] in *.
  destruct i as [|i]; cbn [nth_error] in *.
  - inversion Hi; subst r0. exists s0. split; [reflexivity|].
    destruct (secret r) as [given|].
    + inversion E0. reflexivity.
    + unfold generateSecret, getRandomValues in E0. inversion E0. reflexivity.
  - apply IH. exact Hi.
Qed.

(** X1: in a tree returned by the local [buildMerkleTree] for at most 256
    recipients, [leaves] is level 0 of the tree and has 256 entries;
    entry [i] of a recipient is the leaf hash of its wallet, its amount and
    its secret (the one given, or else a generated one of 32 bytes); every
    entry after the recipients is the array of 32 zero bytes. *)
Theorem leaves_padded (rs : list Recipient) (g : entropy) (t : MerkleTree) :
  (length rs <= 256)%nat ->
  fst (buildMerkleTree rs g) = Ok t ->
  nth_error (tree t) 0 = Some (leaves t) /\
  length (leaves t) = 256%nat /\
  (forall (i : nat) (r : Recipient),
      nth_error rs i = Some r ->
      exists s leaf,
        nth_error (leaves t) i = Some leaf /\
        computeLeafHash (wallet r) (amount r) s = Ok leaf /\
        match secret r with
        | Some given => s = given
        | None => length s = 32%nat
        end) /\
  (forall i : nat,
      (length rs <= i < 256)%nat ->
      nth_error (leaves t) i = Some (new_Uint8Array 32)).
Proof.
  intros Hn Hb.
  destruct (buildMerkleTree_Ok rs g t Hb)
    as (computed & ls & Hm & Hc & Ht & Hlv & Hl & Hch & Hr).
  rewrite Ht, Hlv. split; [reflexivity|].
  split; [apply pad_length; lia|]. split.
  - intros i r Hi.
    destruct (assignSecrets_nth rs g i r Hi) as (s & Hs & Hsec).
    destruct (mapM_nth _ _ _ Hm i _ Hs) as (leaf & Hleaf & Hhash).
    cbn [rs_wallet rs_amount rs_secret] in Hhash.
    exists s, leaf. repeat split; auto.
    unfold pad. rewrite nth_error_app1; [assumption|].
    apply nth_error_Some. congruence.
  - intros i Hi. unfold pad. rewrite nth_error_app2 by lia.
    rewrite nth_error_repeat by lia. reflexivity.
Qed.

Lemma assignSecrets_given (rs : list Recipient) :
  forallb (fun r => match secret r with Some _ => true | None => false end) rs = true ->
  forall g : entropy,
    assignSecrets rs g =
    (map (fun r => {| rs_wallet := wallet r; rs_amount := amount r;
                      rs_secret := match secret r with Some s => s | None => [] end |}) rs,
     g).
Proof.
  induction rs as [|r rs IH]; intros H g; [reflexivity|].
  cbn [forallb] in H. apply andb_true_iff in H. destruct H as [Hr Hrs].
  cbn [assignSecrets map]. destruct (secret r) as [s|]; [|discriminate].
  rewrite (IH Hrs). reflexivity.
Qed.

(** X2: when every recipient comes with its secret, the local
    [buildMerkleTree] draws no random byte, and its result is the same
    whatever the source of randomness. *)
Theorem build_without_randomness (rs : list Recipient) (g1 g2 : entropy) :
  forallb (fun r => match secret r with Some _ => true | None => false end) rs = true ->
  fst (buildMerkleTree rs g1) = fst (buildMerkleTree rs g2) /\
  snd (buildMerkleTree rs g1) = g1.
Proof.
  intros H. unfold buildMerkleTree.
  rewrite !(assignSecrets_given rs H). split; reflexivity.
Qed.

Lemma leaves_RangeError (rws : list RecipientWithSecret) :
  forallb payable (map rs_amount rws) = false ->
  mapM (fun r => computeLeafHash (rs_wallet r) (rs_amount r) (rs_secret r)) rws
  = Throw RangeError.
Proof.
  induction rws as [|r rws IH]; intros H; [discriminate|].
  cbn [map forallb] in H. cbn [mapM].
  unfold computeLeafHash at 1. unfold payable at 1 in H.
  destruct (BigInt_floor (number_mul (rs_amount r) (number_of_Z 1000000000)))
    as [v|e] eqn:E; cbn [bind].
  - cbn [andb] in H. rewrite (IH H). reflexivity.
  - unfold BigInt_floor in E.
    destruct (number_mul (rs_amount r) (number_of_Z 1000000000)); inversion E; reflexivity.
Qed.

(** X3: an amount whose product with 10^9 is not finite ([NaN], an
    infinity, or too large) makes the local [buildMerkleTree] throw a
    [RangeError], whatever the number of recipients. *)
Theorem build_RangeError (rs : list Recipient) (g : entropy) :
  forallb payable (map amount rs) = false ->
  fst (buildMerkleTree rs g) = Throw RangeError.
Proof.
  intros H. rewrite <- assignSecrets_amounts with (g := g) in H.
  unfold buildMerkleTree, buildFrom.
  destruct (assignSecrets rs g) as [rws g']. cbn [fst] in *.
  rewrite (leaves_RangeError rws H). reflexivity.
Qed.

(** *** The index in a verification *)

Lemma climb_mod (sibs : list value) :
  forall (current : value) (idx : Z),
    0 <= idx ->
    climb sibs current idx = climb sibs current (idx mod 2 ^ Z.of_nat (length sibs)).
Proof.
  induction sibs as [|s sibs IH]; intros current idx Hidx.
  - reflexivity.
  - cbn [climb length]. rewrite Nat2Z.inj_succ, Z.pow_succ_r by lia.
    set (p := 2 ^ Z.of_nat (length sibs)).
    assert (Hp : 0 < p) by (apply Z.pow_pos_nonneg; lia).
    assert (Hm : 0 <= idx mod (2 * p) < 2 * p) by (apply Z.mod_pos_bound; lia).
    assert (Hpar : Z.rem (idx mod (2 * p)) 2 = Z.rem idx 2).
    { rewrite !Z.rem_mod_nonneg by lia.
      rewrite Z.rem_mul_r by lia.
      rewrite (Z.mul_comm 2), Z.mod_add by lia. apply Z.mod_mod. lia. }
    assert (Hhalf : idx mod (2 * p) / 2 = (idx / 2) mod p).
    { rewrite Z.rem_mul_r by lia.
      replace (idx mod 2 + 2 * (idx / 2 mod p)) with ((idx / 2 mod p) * 2 + idx mod 2) by lia.
      rewrite Z.div_add_l by lia.
      rewrite (Z.div_small (idx mod 2)) by (apply Z.mod_pos_bound; lia). lia. }
    rewrite Hpar, Hhalf.
    destruct (if Z.rem idx 2 =? 1 then poseidonHash2_val s current
              else poseidonHash2_val current s) as [next|e]; cbn [bind]; [|reflexivity].
    apply IH. apply Z.div_pos; lia.
Qed.

Lemma climb_negative (sibs : list value) :
  forall (current : value) (idx : Z),
    idx < 0 -> climb sibs current idx = climb sibs current 0.
Proof.
  induction sibs as [|s sibs IH]; intros current idx Hidx; [reflexivity|].
  cbn [climb].
  assert (Hpar : (Z.rem idx 2 =? 1) = false).
  { apply Z.eqb_neq. pose proof (Z.rem_nonpos idx 2 ltac:(lia) ltac:(lia)). lia. }
  rewrite Hpar. change (Z.rem 0 2 =? 1) with false. change (0 / 2) with 0.
  destruct (poseidonHash2_val current s) as [next|e]; cbn [bind]; [|reflexivity].
  apply IH. div_lia.
Qed.

(** X4: [verifyMerkleProof] reads only the low bits of the leaf index, as
    many as there are siblings: a non-negative index and the same index
    plus any multiple of [2^siblings.length] give the same answer (with 8
    siblings, [i + 256] verifies exactly as [i]); and every negative index
    gives the answer of the index 0. *)
Theorem verify_index_low_bits
    (root leaf : value) (siblings : list value) (idx k : Z) :
  0 <= idx -> 0 <= k ->
  verifyMerkleProof root leaf (idx + k * 2 ^ Z.of_nat (length siblings)) siblings
  = verifyMerkleProof root leaf idx siblings /\
  verifyMerkleProof root leaf (- idx - 1) siblings
  = verifyMerkleProof root leaf 0 siblings.
Proof.
  intros Hidx Hk. unfold verifyMerkleProof.
  assert (Hp : 0 < 2 ^ Z.of_nat (length siblings)) by (apply Z.pow_pos_nonneg; lia).
  split.
  - rewrite (climb_mod siblings leaf (idx + k * 2 ^ Z.of_nat (length siblings))) by nia.
    rewrite Z.mod_add by lia. rewrite <- climb_mod by assumption. reflexivity.
  - rewrite climb_negative by lia. reflexivity.
Qed.

(** *** The shape of a proof *)

Lemma sibling_lxor (idx : Z) :
  (if Z.rem idx 2 =? 0 then idx + 1 else idx - 1) = Z.lxor idx 1.
Proof.
  destruct (Z.eqb_spec (Z.rem idx 2) 0) as [E|E].
  - apply Z.add_nocarry_lxor.
    apply Z.bits_inj'. intros n Hn. rewrite Z.land_spec, Z.bits_0.
    destruct (Z.eq_dec n 0) as [->|Hn0].
    + rewrite Z.bit0_odd. rewrite <- Z.negb_even.
      assert (Hev : Z.even idx = true).
      { apply Z.even_spec. exists (Z.quot idx 2). pose proof (Z.quot_rem' idx 2). lia. }
      rewrite Hev. reflexivity.
    + replace (Z.testbit 1 n) with false; [apply andb_false_r|].
      symmetry. apply Z.bits_above_log2; [lia|]. change (Z.log2 1) with 0. lia.
  - assert (Hodd : Z.odd idx = true).
    { rewrite <- Z.negb_even. destruct (Z.even idx) eqn:Ev; [|reflexivity].
      exfalso. apply E. apply Z.even_spec in Ev. destruct Ev as [q ->].
      rewrite Z.mul_comm. apply Z.rem_mul. lia. }
    assert (Heven : Z.land (idx - 1) 1 = 0).
    { apply Z.bits_inj'. intros n Hn. rewrite Z.land_spec, Z.bits_0.
      destruct (Z.eq_dec n 0) as [->|Hn0].
      - rewrite Z.bit0_odd. rewrite Z.odd_sub, Hodd. reflexivity.
      - replace (Z.testbit 1 n) with false; [apply andb_false_r|].
        symmetry. apply Z.bits_above_log2; [lia|]. change (Z.log2 1) with 0. lia. }
    pose proof (Z.add_nocarry_lxor (idx - 1) 1 Heven) as Hx.
    replace (idx - 1 + 1) with idx in Hx by lia.
    rewrite Hx at 2. rewrite Z.lxor_assoc, Z.lxor_nilpotent, Z.lxor_0_r. reflexivity.
Qed.

Lemma path_length (levels : list (list Uint8Array)) (idx : Z) :
  length (path levels idx) = length levels.
Proof.
  revert idx. induction levels as [|l ls IH]; intros idx; [reflexivity|].
  cbn [path length]. rewrite IH. reflexivity.
Qed.

Lemma path_nth (levels : list (list Uint8Array)) :
  forall (idx : Z) (k : nat) (level : list Uint8Array),
    nth_error levels k = Some level ->
    nth_error (path levels idx) k =
    Some (get level (Z.lxor (idx / 2 ^ Z.of_nat k) 1)).
Proof.
  induction levels as [|l ls IH]; intros idx k level Hk; [destruct k; discriminate|].
  destruct k as [|k]; cbn [nth_error path] in *.
  - inversion Hk; subst. rewrite sibling_lxor.
    change (2 ^ Z.of_nat 0) with 1. rewrite Z.div_1_r. reflexivity.
  - rewrite (IH _ _ _ Hk). do 3 f_equal.
    rewrite Nat2Z.inj_succ, Z.pow_succ_r by lia.
    rewrite Z.div_div by (try apply Z.pow_pos_nonneg; lia). reflexivity.
Qed.

Lemma proofLoop_short (depth : nat) :
  forall (pre rest : list (list Uint8Array)) (idx : Z) (acc : list value),
    (length rest < depth)%nat ->
    proofLoop (pre ++ rest) depth (Z.of_nat (length pre)) idx acc = Throw TypeError.
Proof.
  induction depth as [|d IH]; intros pre rest idx acc Hd; [lia|].
  cbn [proofLoop]. rewrite get_nth_error.
  destruct rest as [|level rest].
  - rewrite app_nil_r.
    replace (nth_error pre (length pre)) with (@None (list Uint8Array))
      by (symmetry; apply nth_error_None; lia).
    reflexivity.
  - rewrite nth_error_app2 by lia. rewrite Nat.sub_diag. cbn [nth_error].
    replace (pre ++ level :: rest) with ((pre ++ [level]) ++ rest)
      by (rewrite <- app_assoc; reflexivity).
    replace (Z.of_nat (length pre) + 1) with (Z.of_nat (length (pre ++ [level])))
      by (rewrite length_app; simpl; lia).
    apply IH. simpl in Hd. lia.
Qed.

(** X5: [getMerkleProof] throws (a [TypeError]) exactly when the tree has
    fewer than 8 levels.  Otherwise, for every index, it returns the index
    it was given, the entry of level 0 at that index, and 8 siblings, the
    one of level [k] being the entry of that level at
    [floor(index / 2^k) XOR 1] ([undefined] when there is none). *)
Theorem getMerkleProof_shape (tree : list (list Uint8Array)) (idx : Z) :
  ((length tree < 8)%nat -> getMerkleProof tree idx = Throw TypeError) /\
  ((8 <= length tree)%nat ->
   exists p,
     getMerkleProof tree idx = Ok p /\
     leafIndex p = idx /\
     leaf p = get (hd [] tree) idx /\
     length (siblings p) = 8%nat /\
     forall (k : nat) (level : list Uint8Array),
       (k < 8)%nat -> nth_error tree k = Some level ->
       nth_error (siblings p) k = Some (get level (Z.lxor (idx / 2 ^ Z.of_nat k) 1))).
Proof.
  unfold getMerkleProof. change TREE_DEPTH with 8%nat. split; intros Hlen.
  - pose proof (proofLoop_short 8 [] tree idx [] Hlen) as H.
    cbn [app length] in H. change (Z.of_nat 0) with 0 in H. rewrite H. reflexivity.
  - pose proof (proofLoop_path 8 [] tree idx [] Hlen) as H.
    cbn [app length] in H. change (Z.of_nat 0) with 0 in H. rewrite H. cbn [bind].
    destruct tree as [|level0 tree']; [simpl in Hlen; lia|].
    cbn [get Z.ltb Z.compare Z.to_nat nth_error hd].
    eexists. split; [reflexivity|]. cbn [leafIndex leaf siblings].
    repeat split.
    + rewrite path_length, length_firstn. lia.
    + intros k level Hk Hlevel. apply path_nth.
      rewrite nth_error_firstn. destruct (Nat.ltb_spec k 8); [assumption|lia].
Qed.

(** X6: the error for an index out of range surfaces in the
    verification: on a tree built for [n] recipients, the proof that
    [getMerkleProof] returns for an index that is negative or not below
    [max 256 n], the number of leaves of the tree, makes
    [verifyMerkleProof] throw a [TypeError]. *)
Theorem out_of_range_proof_throws
    (rs : list Recipient) (g : entropy) (t : MerkleTree) (idx : Z) :
  fst (buildMerkleTree rs g) = Ok t ->
  idx < 0 \/ Z.of_nat (Nat.max 256 (length rs)) <= idx ->
  exists p,
    getMerkleProof (tree t) idx = Ok p /\
    verifyMerkleProof (root t) (leaf p) idx (siblings p) = Throw TypeError.
Proof.
  intros Hb Hi. eexists. split.
  - apply (LocalFacts.proof_beyond_leaves rs g t idx Hb).
    rewrite (LocalFacts.leaves_count rs g t Hb). exact Hi.
  - unfold verifyMerkleProof. cbn [leaf siblings repeat climb].
    destruct (Z.rem idx 2 =? 1); reflexivity.
Qed.

End LocalMore.

(** ** The local hash *)

Module HashFacts.
Import Local.

Lemma set_next (pre src : Uint8Array) (n : nat) :
  set (pre ++ new_Uint8Array n) src (length pre) =
  (pre ++ src) ++ new_Uint8Array (n - length src).
Proof.
  unfold set, new_Uint8Array.
  rewrite firstn_app, firstn_all, Nat.sub_diag, firstn_O, app_nil_r.
  rewrite skipn_app, skipn_all2 by lia.
  replace (length pre + length src - length pre)%nat with (length src) by lia.
  assert (Hs : forall k n', skipn k (repeat x00 n') = repeat x00 (n' - k)).
  { intros k n'. revert k. induction n' as [|n' IH]; intros k; destruct k; simpl; auto. }
  rewrite Hs. cbn [app]. rewrite <- app_assoc. reflexivity.
Qed.

Lemma set_at_0 (src : Uint8Array) (n : nat) :
  set (new_Uint8Array n) src 0 = src ++ new_Uint8Array (n - length src).
Proof. apply (set_next [] src n). Qed.

Lemma poseidonHash2_preimage (a b : Uint8Array) :
  poseidonHash2 a b = simpleHash (TextEncoder_encode "poseidon2" ++ a ++ b).
Proof.
  unfold poseidonHash2. cbv zeta.
  set (prefix := TextEncoder_encode "poseidon2").
  rewrite set_at_0, set_next.
  rewrite <- (length_app prefix a). rewrite set_next.
  replace (length a + length b + 9 - length prefix - length a - length b)%nat
    with 0%nat by (change (length prefix) with 9%nat; lia).
  cbn [new_Uint8Array repeat]. rewrite app_nil_r, <- !app_assoc. reflexivity.
Qed.

Lemma poseidonHash3_preimage (a b c : Uint8Array) :
  poseidonHash3 a b c = simpleHash (TextEncoder_encode "poseidon3" ++ a ++ b ++ c).
Proof.
  unfold poseidonHash3. cbv zeta.
  set (prefix := TextEncoder_encode "poseidon3").
  rewrite set_at_0, set_next.
  rewrite <- (length_app prefix a). rewrite set_next.
  rewrite <- (length_app (prefix ++ a) b). rewrite set_next.
  replace (length a + length b + length c + 9 - length prefix - length a
           - length b - length c)%nat with 0%nat
    by (change (length prefix) with 9%nat; lia).
  cbn [new_Uint8Array repeat]. rewrite app_nil_r, <- !app_assoc. reflexivity.
Qed.

(** X7: the local hashes see their arguments only through the
    concatenation of the bytes: two pairs (or triples) of arrays with the
    same concatenation have the same hash, so moving bytes from the end of
    one argument to the start of the next does not change the hash. *)
Theorem hash_of_concatenation (a b c a' b' c' : Uint8Array) :
  (a ++ b = a' ++ b' -> poseidonHash2 a b = poseidonHash2 a' b') /\
  (a ++ b ++ c = a' ++ b' ++ c' -> poseidonHash3 a b c = poseidonHash3 a' b' c').
Proof.
  split; intros H.
  - rewrite !poseidonHash2_preimage, H. reflexivity.
  - rewrite !poseidonHash3_preimage, H. reflexivity.
Qed.

(** *** The 32 bytes of a hash *)

Lemma land_lxor (a b m : Z) :
  Z.land (Z.lxor a b) m = Z.lxor (Z.land a m) (Z.land b m).
Proof.
  apply Z.bits_inj'. intros n Hn.
  rewrite !Z.land_spec, !Z.lxor_spec, !Z.land_spec.
  destruct (Z.testbit a n), (Z.testbit b n), (Z.testbit m n); reflexivity.
Qed.

Lemma ToUint32_mod (z : Z) : ToUint32 z = z mod 2 ^ 32.
Proof.
  unfold ToUint32. change 0xffffffff with (Z.ones 32). apply Z.land_ones. lia.
Qed.

Lemma ToUint32_ToInt32 (z : Z) : ToUint32 (ToInt32 z) = ToUint32 z.
Proof.
  unfold ToInt32. cbv zeta. destruct (0x80000000 <=? ToUint32 z).
  - rewrite !ToUint32_mod. change 0x100000000 with (1 * 2 ^ 32).
    rewrite <- (Z.mod_add (z mod 2 ^ 32 - 1 * 2 ^ 32) 1 (2 ^ 32)) by lia.
    replace (z mod 2 ^ 32 - 1 * 2 ^ 32 + 1 * 2 ^ 32) with (z mod 2 ^ 32) by lia.
    apply Z.mod_mod. lia.
  - rewrite !ToUint32_mod. apply Z.mod_mod. lia.
Qed.

Lemma ToUint32_xor32 (a b : Z) :
  ToUint32 (ToUint32 (xor32 a b)) = Z.lxor (ToUint32 (ToUint32 a)) (ToUint32 (ToUint32 b)).
Proof.
  unfold xor32. rewrite ToUint32_ToInt32.
  assert (Hi : forall z, ToUint32 (ToUint32 z) = ToUint32 z).
  { intros z. rewrite !ToUint32_mod. apply Z.mod_mod. lia. }
  rewrite !Hi. unfold ToUint32 at 1. rewrite land_lxor.
  fold (ToUint32 (ToInt32 a)). fold (ToUint32 (ToInt32 b)).
  rewrite !ToUint32_ToInt32. reflexivity.
Qed.

Lemma byte_of_Z_land (z : Z) : byte_of_Z (Z.land z 255) = byte_of_Z z.
Proof.
  unfold byte_of_Z. rewrite <- Z.land_assoc, Z.land_diag. reflexivity.
Qed.

Lemma Z_of_byte_land (z : Z) : Z_of_byte (byte_of_Z z) = Z.land z 255.
Proof.
  unfold byte_of_Z, Z_of_byte.
  assert (Hr : 0 <= Z.land z 255 < 256).
  { change 255 with (Z.ones 8). rewrite Z.land_ones by lia.
    apply Z.mod_pos_bound. reflexivity. }
  destruct (Byte.of_N (Z.to_N (Z.land z 255))) as [b|] eqn:E.
  - apply Byte.to_of_N in E. rewrite E. lia.
  - apply Byte.of_N_None_iff in E. lia.
Qed.

Lemma byte_of_lxor (x y : Z) (s : Z) :
  byte_of_Z (Z.shiftr (Z.lxor x y) s) =
  byte_xor (byte_of_Z (Z.shiftr x s)) (byte_of_Z (Z.shiftr y s)).
Proof.
  unfold byte_xor. rewrite !Z_of_byte_land, <- land_lxor, byte_of_Z_land.
  rewrite Z.shiftr_lxor. reflexivity.
Qed.

(** The bytes that [simpleHash] writes, in order. *)
Lemma simpleHash_result_bytes (h : hstate) :
  simpleHash_result h =
  le_bytes 4 (ToUint32 (ToUint32 (h1 h))) ++ le_bytes 4 (ToUint32 (ToUint32 (h2 h))) ++
  le_bytes 4 (ToUint32 (ToUint32 (h3 h))) ++ le_bytes 4 (ToUint32 (ToUint32 (h4 h))) ++
  le_bytes 4 (ToUint32 (ToUint32 (xor32 (h1 h) (h2 h)))) ++
  le_bytes 4 (ToUint32 (ToUint32 (xor32 (h2 h) (h3 h)))) ++
  le_bytes 4 (ToUint32 (ToUint32 (xor32 (h3 h) (h4 h)))) ++
  le_bytes 4 (ToUint32 (ToUint32 (xor32 (h4 h) (h1 h)))).
Proof. reflexivity. Qed.

Lemma le_bytes_lxor (x y : Z) :
  le_bytes 4 (Z.lxor x y) =
  map (fun p => byte_xor (fst p) (snd p)) (combine (le_bytes 4 x) (le_bytes 4 y)).
Proof.
  unfold le_bytes. cbn [seq map combine fst snd].
  rewrite !byte_of_lxor. reflexivity.
Qed.

(** X8: every local hash is 32 bytes long, and its last 16 bytes are
    determined by its first 16: byte [16 + k] is the XOR of byte [k] and
    byte [(k + 4) mod 16].  The 32 bytes carry 128 bits. *)
Theorem hash_second_half (data : Uint8Array) :
  length (simpleHash data) = 32%nat /\
  forall k : nat,
    (k < 16)%nat ->
    exists x y,
      nth_error (simpleHash data) k = Some x /\
      nth_error (simpleHash data) ((k + 4) mod 16) = Some y /\
      nth_error (simpleHash data) (16 + k) = Some (byte_xor x y).
Proof.
  unfold simpleHash. set (h := fold_left simpleHash_step data simpleHash_init).
  rewrite simpleHash_result_bytes, !ToUint32_xor32, !le_bytes_lxor.
  generalize (ToUint32 (ToUint32 (h1 h))) (ToUint32 (ToUint32 (h2 h)))
             (ToUint32 (ToUint32 (h3 h))) (ToUint32 (ToUint32 (h4 h))).
  intros u1 u2 u3 u4. unfold le_bytes. cbn [seq map combine fst snd app].
  split; [reflexivity|].
  intros k Hk.
  do 16 (destruct k as [|k]; [do 2 eexists; repeat split; reflexivity|]).
  lia.
Qed.

End HashFacts.

(** ** The hex codec *)

Module HexFacts.

Lemma string_pair_ind (P : string -> Prop) :
  P EmptyString -> (forall a, P (String a EmptyString)) ->
  (forall a b s, P s -> P (String a (String b s))) ->
  forall s, P s.
Proof.
  intros H0 H1 H2 s.
  assert (H : P s /\ forall a, P (String a s)).
  { induction s as [|x s [IH1 IH2]]; split; auto. }
  apply H.
Qed.

Lemma hex2_shape (b : byte) :
  exists c1 c2,
    hex2 b = String c1 (String c2 EmptyString) /\
    is_lower_hex c1 = true /\ is_lower_hex c2 = true /\
    ToUint8 (parseInt16 (String c1 (String c2 EmptyString))) = b.
Proof.
  destruct b; do 2 eexists; (split; [reflexivity|]); repeat split; reflexivity.
Qed.

Lemma lower_hex_cases (c : ascii) :
  is_lower_hex c = true -> In c lower_hex_digits.
Proof.
  intros H.
  assert (E : existsb (Ascii.eqb c) lower_hex_digits = true).
  { revert H. destruct c as [[] [] [] [] [] [] [] []]; vm_compute; intros H; exact H. }
  apply existsb_exists in E. destruct E as (d & Hd & E).
  apply Ascii.eqb_eq in E. subst d. exact Hd.
Qed.

Lemma hex2_parse (a b : ascii) :
  is_lower_hex a = true -> is_lower_hex b = true ->
  hex2 (ToUint8 (parseInt16 (String a (String b EmptyString))))
  = String a (String b EmptyString).
Proof.
  intros Ha Hb. apply lower_hex_cases in Ha. apply lower_hex_cases in Hb.
  unfold lower_hex_digits in Ha, Hb. cbn [In] in Ha, Hb.
  repeat (destruct Ha as [<-|Ha]; [repeat (destruct Hb as [<-|Hb]; [reflexivity|]); contradiction|]).
  contradiction.
Qed.

Lemma toHex_cons (b : byte) (x : Uint8Array) :
  Local.toHex (b :: x) = String.append (hex2 b) (Local.toHex x).
Proof. reflexivity. Qed.

Lemma fromHex_bytes_cons (a b : ascii) (s : string) (n : nat) :
  Local.fromHex_bytes (String a (String b s)) (S n) =
  ToUint8 (parseInt16 (String a (String b EmptyString))) :: Local.fromHex_bytes s n.
Proof.
  induction n as [|n IH].
  - destruct s; reflexivity.
  - change (Local.fromHex_bytes (String a (String b s)) (S (S n)))
      with (Local.fromHex_bytes (String a (String b s)) (S n)
            ++ [ToUint8 (parseInt16 (substr (String a (String b s)) (S n * 2) 2))]).
    rewrite IH. reflexivity.
Qed.

Lemma fromHex_cons (a b : ascii) (s : string) :
  Local.fromHex (String a (String b s)) =
  ToUint8 (parseInt16 (String a (String b EmptyString))) :: Local.fromHex s.
Proof.
  unfold Local.fromHex. cbn [String.length].
  replace (S (S (String.length s)) / 2)%nat with (S (String.length s / 2)).
  - apply fromHex_bytes_cons.
  - change (S (S (String.length s))) with (1 * 2 + String.length s)%nat.
    rewrite Nat.div_add_l by discriminate. reflexivity.
Qed.

Lemma fromHex_toHex (x : Uint8Array) : Local.fromHex (Local.toHex x) = x.
Proof.
  induction x as [|b x IH]; [reflexivity|].
  rewrite toHex_cons. destruct (hex2_shape b) as (c1 & c2 & -> & _ & _ & Hb).
  cbn [String.append]. rewrite fromHex_cons, Hb, IH. reflexivity.
Qed.

Lemma toHex_length (x : Uint8Array) :
  String.length (Local.toHex x) = (2 * length x)%nat.
Proof.
  induction x as [|b x IH]; [reflexivity|].
  rewrite toHex_cons. destruct (hex2_shape b) as (c1 & c2 & -> & _).
  cbn [String.append String.length length]. rewrite IH. lia.
Qed.

Lemma toHex_lower (x : Uint8Array) : all_lower_hex (Local.toHex x) = true.
Proof.
  induction x as [|b x IH]; [reflexivity|].
  rewrite toHex_cons. destruct (hex2_shape b) as (c1 & c2 & -> & H1 & H2 & _).
  cbn [String.append all_lower_hex]. rewrite H1, H2, IH. reflexivity.
Qed.

Lemma toHex_fromHex (s : string) :
  canonical s = true -> Local.toHex (Local.fromHex s) = s.
Proof.
  unfold canonical. induction s as [| a | a b s IH] using string_pair_ind; intros H.
  - reflexivity.
  - apply andb_true_iff in H. destruct H as [_ H]. discriminate.
  - apply andb_true_iff in H. destruct H as [Hl He].
    cbn [all_lower_hex] in Hl.
    apply andb_true_iff in Hl. destruct Hl as [Ha Hl].
    apply andb_true_iff in Hl. destruct Hl as [Hb Hl].
    rewrite fromHex_cons, toHex_cons, hex2_parse by assumption.
    cbn [String.append]. rewrite IH; [reflexivity|].
    rewrite Hl. exact He.
Qed.

Lemma delegated_toHex (x : Uint8Array) : Delegated.toHex x = Local.toHex x.
Proof. reflexivity. Qed.

Lemma delegated_fromHex (s : string) : Delegated.fromHex s = Local.fromHex s.
Proof.
  unfold Delegated.fromHex, Local.fromHex.
  induction (String.length s / 2)%nat as [|n IH]; [reflexivity|].
  cbn [Delegated.fromHex_bytes Local.fromHex_bytes]. rewrite IH.
  unfold substring, substr.
  replace (n * 2 + 2 - n * 2)%nat with 2%nat by lia. reflexivity.
Qed.

(** C8: in both modules [fromHex (toHex x) = x] for every byte array [x];
    [toHex x] consists of lowercase hexadecimal digits only (so it has no
    prefix), two for each byte; and [toHex (fromHex s) = s] for every
    string [s] of an even number of lowercase hexadecimal digits. *)
Theorem hex_round_trip (x : Uint8Array) (s : string) :
  canonical s = true ->
  Local.fromHex (Local.toHex x) = x /\
  Delegated.fromHex (Delegated.toHex x) = x /\
  String.length (Local.toHex x) = (2 * length x)%nat /\
  String.length (Delegated.toHex x) = (2 * length x)%nat /\
  all_lower_hex (Local.toHex x) = true /\
  all_lower_hex (Delegated.toHex x) = true /\
  Local.toHex (Local.fromHex s) = s /\
  Delegated.toHex (Delegated.fromHex s) = s.
Proof.
  intros Hs. repeat split.
  - apply fromHex_toHex.
  - rewrite delegated_fromHex. apply fromHex_toHex.
  - apply toHex_length.
  - apply toHex_length.
  - apply toHex_lower.
  - apply toHex_lower.
  - apply toHex_fromHex. exact Hs.
  - rewrite delegated_fromHex. apply toHex_fromHex. exact Hs.
Qed.

Lemma hex_round_trip_witness :
  canonical "00ff1a" = true /\
  Local.toHex (Local.fromHex "00ff1a") = "00ff1a"%string /\
  Local.fromHex (Local.toHex [x00; xff; x1a]) = [x00; xff; x1a].
Proof.
  assert (H : canonical "00ff1a" = true) by reflexivity.
  split; [exact H|].
  pose proof (hex_round_trip [x00; xff; x1a] "00ff1a" H) as R.
  split; [exact (proj1 (proj2 (proj2 (proj2 (proj2 (proj2 (proj2 R)))))))
         | exact (proj1 R)].
Defined.

End HexFacts.

(** ** More on the hex codec *)

Module CodecMore.
Import HexFacts.

Lemma fromHex_bytes_map (hex : string) (n : nat) :
  Local.fromHex_bytes hex n = map (byte_at hex) (seq 0 n).
Proof.
  induction n as [|n IH]; [reflexivity|].
  cbn [Local.fromHex_bytes]. rewrite IH, seq_S, map_app. reflexivity.
Qed.

Lemma hexToBytes_bytes_map (hex : string) (n : nat) :
  Hooks.hexToBytes_bytes hex n = map (byte_at hex) (seq 0 n).
Proof.
  induction n as [|n IH]; [reflexivity|].
  cbn [Hooks.hexToBytes_bytes]. rewrite IH, seq_S, map_app.
  unfold slice, byte_at. replace (n * 2 + 2 - n * 2)%nat with 2%nat by lia.
  reflexivity.
Qed.

(** X9: [fromHex], in both modules, returns one byte for every two
    characters of the string, whatever the characters are: a last odd
    character is dropped. *)
Theorem fromHex_length (hex : string) :
  length (Local.fromHex hex) = (String.length hex / 2)%nat /\
  length (Delegated.fromHex hex) = (String.length hex / 2)%nat.
Proof.
  rewrite delegated_fromHex. unfold Local.fromHex.
  rewrite fromHex_bytes_map, length_map, length_seq. split; reflexivity.
Qed.

Lemma hex_cases (c : ascii) : hex_value c <> None -> In c hex_digits.
Proof.
  intros H.
  assert (E : existsb (Ascii.eqb c) hex_digits = true).
  { revert H. destruct c as [[] [] [] [] [] [] [] []]; vm_compute; intros H;
      try reflexivity; exfalso; apply H; reflexivity. }
  apply existsb_exists in E. destruct E as (d & Hd & E).
  apply Ascii.eqb_eq in E. subst d. exact Hd.
Qed.

(** Two hexadecimal digits of either case, decoded and encoded. *)
Lemma pair_decoded (a b : ascii) :
  hex_value a <> None -> hex_value b <> None ->
  hex2 (byte_at (String a (String b EmptyString)) 0)
  = String (lower_digit a) (String (lower_digit b) EmptyString) /\
  Some (Z_of_byte (byte_at (String a (String b EmptyString)) 0))
  = option_map (fun va => 16 * va + match hex_value b with Some vb => vb | None => 0 end)
               (hex_value a).
Proof.
  intros Ha Hb. apply hex_cases in Ha. apply hex_cases in Hb.
  unfold hex_digits in Ha, Hb. cbn [In] in Ha, Hb.
  repeat (destruct Ha as [<-|Ha];
          [repeat (destruct Hb as [<-|Hb]; [split; reflexivity|]); contradiction|]).
  contradiction.
Qed.

Lemma all_hex_cons (c : ascii) (s : string) :
  all_hex (String c s) = true -> hex_value c <> None /\ all_hex s = true.
Proof.
  cbn [all_hex]. destruct (hex_value c); [|discriminate]. split; [discriminate|assumption].
Qed.

(** X10: decoding accepts hexadecimal digits of either case and encoding
    writes lowercase: for every string [s] of an even number of
    hexadecimal digits, [toHex (fromHex s)] is [s] in lowercase, in both
    modules. *)
Theorem toHex_fromHex_lowercase (s : string) :
  all_hex s = true ->
  Nat.even (String.length s) = true ->
  Local.toHex (Local.fromHex s) = lower_digits s /\
  Delegated.toHex (Delegated.fromHex s) = lower_digits s.
Proof.
  rewrite delegated_fromHex. change (Delegated.toHex (Local.fromHex s))
    with (Local.toHex (Local.fromHex s)).
  intros Hs He. split; [|]; 
  (revert Hs He; induction s as [| a | a b s IH] using string_pair_ind; intros Hs He;
   [reflexivity | discriminate |];
   apply all_hex_cons in Hs; destruct Hs as [Ha Hs];
   apply all_hex_cons in Hs; destruct Hs as [Hb Hs];
   rewrite fromHex_cons, toHex_cons;
   destruct (pair_decoded a b Ha Hb) as [Hp _]; unfold byte_at in Hp;
   cbn [String.substring Nat.mul] in Hp; rewrite Hp;
   cbn [String.append lower_digits]; rewrite (IH Hs He); reflexivity).
Qed.

(** *** [hexToBytes] *)

Lemma substring_beyond (s : string) :
  forall n m : nat, (String.length s <= n)%nat -> String.substring n m s = EmptyString.
Proof.
  induction s as [|c s IH]; intros n m Hn.
  - destruct n, m; reflexivity.
  - destruct n as [|n]; [simpl in Hn; lia|]. cbn [String.substring].
    apply IH. simpl in Hn. lia.
Qed.

Lemma byte_at_beyond (hex : string) (i : nat) :
  (String.length hex <= i * 2)%nat -> byte_at hex i = x00.
Proof.
  intros H. unfold byte_at. rewrite substring_beyond by assumption. reflexivity.
Qed.

Lemma map_seq_zeros (hex : string) (k n : nat) :
  (String.length hex <= k * 2)%nat ->
  map (byte_at hex) (seq k n) = repeat x00 n.
Proof.
  revert k. induction n as [|n IH]; intros k Hk; [reflexivity|].
  cbn [seq map repeat]. rewrite byte_at_beyond by assumption.
  rewrite IH by lia. reflexivity.
Qed.

Lemma firstn_seq_min (n : nat) : forall a m : nat, firstn n (seq a m) = seq a (Nat.min n m).
Proof.
  induction n as [|n IH]; intros a m; [reflexivity|].
  destruct m as [|m]; [reflexivity|]. cbn [seq firstn Nat.min]. rewrite IH. reflexivity.
Qed.

Lemma firstn_repeat_min {X : Type} (x : X) (n : nat) :
  forall m : nat, firstn n (repeat x m) = repeat x (Nat.min n m).
Proof.
  induction n as [|n IH]; intros m; [reflexivity|].
  destruct m as [|m]; [reflexivity|]. cbn [repeat firstn Nat.min]. rewrite IH. reflexivity.
Qed.

(** X11: [hexToBytes] always returns 32 bytes.  On a string of even
    length they are the bytes that [fromHex] decodes, cut after 32 bytes
    or filled up with zero bytes; so [hexToBytes (toHex x) = x] for every
    array [x] of 32 bytes. *)
Theorem hexToBytes_32 (hex : string) (x : Uint8Array) :
  length (Hooks.hexToBytes hex) = 32%nat /\
  (Nat.even (String.length hex) = true ->
   Hooks.hexToBytes hex = firstn 32 (Local.fromHex hex ++ repeat x00 32)) /\
  (length x = 32%nat -> Hooks.hexToBytes (Local.toHex x) = x).
Proof.
  unfold Hooks.hexToBytes. rewrite !hexToBytes_bytes_map.
  split; [rewrite length_map, length_seq; reflexivity|].
  assert (Heven : forall h, Nat.even (String.length h) = true ->
            map (byte_at h) (seq 0 32) = firstn 32 (Local.fromHex h ++ repeat x00 32)).
  { intros h He. unfold Local.fromHex. rewrite fromHex_bytes_map.
    set (m := (String.length h / 2)%nat).
    assert (Hm : String.length h = (2 * m)%nat).
    { apply Nat.even_spec in He. destruct He as [q Hq]. unfold m. rewrite Hq.
      rewrite Nat.mul_comm, Nat.div_mul by discriminate. lia. }
    destruct (Nat.le_gt_cases 32 m) as [Hle|Hgt].
    - rewrite firstn_app. rewrite length_map, length_seq.
      replace (32 - m)%nat with 0%nat by lia. rewrite firstn_O, app_nil_r.
      rewrite firstn_map. rewrite firstn_seq_min.
      replace (Nat.min 32 m) with 32%nat by lia. reflexivity.
    - replace 32%nat with (m + (32 - m))%nat at 1 by lia.
      rewrite seq_app, map_app. cbn [Nat.add].
      rewrite (map_seq_zeros h m (32 - m)) by lia.
      rewrite firstn_app, length_map, length_seq.
      rewrite firstn_all2 by (rewrite length_map, length_seq; lia).
      rewrite firstn_repeat_min. replace (Nat.min (32 - m) 32) with (32 - m)%nat by lia.
      reflexivity. }
  split; [apply Heven|].
  intros Hx. rewrite Heven.
  - rewrite fromHex_toHex. rewrite firstn_app, Hx, Nat.sub_diag, firstn_O, app_nil_r.
    apply firstn_all2. lia.
  - rewrite toHex_length. rewrite Nat.even_mul. reflexivity.
Qed.

End CodecMore.

(** ** Numbers written and read in hexadecimal *)

Module BigIntFacts.

Lemma hex_literal_number (s : string) :
  all_hex s = true ->
  forall acc : option Z,
    hex_literal s acc =
    match s, acc with
    | EmptyString, _ => acc
    | _, Some a => Some (hex_number s a)
    | _, None => Some (hex_number s 0)
    end.
Proof.
  induction s as [|c s IH]; intros H acc; [reflexivity|].
  cbn [all_hex] in H. cbn [hex_literal hex_number].
  destruct (hex_value c) as [d|]; [|discriminate].
  rewrite (IH H). destruct s; destruct acc; reflexivity.
Qed.

Lemma hex_number_app (s1 s2 : string) (acc : Z) :
  hex_number (String.append s1 s2) acc = hex_number s2 (hex_number s1 acc).
Proof.
  revert acc. induction s1 as [|c s1 IH]; intros acc; [reflexivity|].
  cbn [String.append hex_number]. apply IH.
Qed.

Lemma all_hex_app (s1 s2 : string) :
  all_hex (String.append s1 s2) = all_hex s1 && all_hex s2.
Proof.
  induction s1 as [|c s1 IH]; [reflexivity|].
  cbn [String.append all_hex]. destruct (hex_value c); [exact IH|reflexivity].
Qed.

Lemma hex_value_digit (d : Z) : 0 <= d < 16 -> hex_value (hex_digit d) = Some d.
Proof.
  intros H.
  assert (C : d = 0 \/ d = 1 \/ d = 2 \/ d = 3 \/ d = 4 \/ d = 5 \/ d = 6 \/ d = 7 \/
              d = 8 \/ d = 9 \/ d = 10 \/ d = 11 \/ d = 12 \/ d = 13 \/ d = 14 \/ d = 15)
    by lia.
  repeat (destruct C as [->|C]; [reflexivity|]). subst d. reflexivity.
Qed.

Lemma append_assoc (s1 s2 s3 : string) :
  String.append (String.append s1 s2) s3 = String.append s1 (String.append s2 s3).
Proof.
  induction s1 as [|c s1 IH]; [reflexivity|].
  cbn [String.append]. rewrite IH. reflexivity.
Qed.

Lemma hex_of_nonneg_acc (fuel : nat) :
  forall (n : Z) (acc : string),
    hex_of_nonneg fuel n acc = String.append (hex_of_nonneg fuel n EmptyString) acc.
Proof.
  induction fuel as [|f IH]; intros n acc; cbn [hex_of_nonneg].
  - reflexivity.
  - destruct (n / 16 =? 0); [reflexivity|].
    rewrite IH. rewrite (IH _ (String _ EmptyString)).
    rewrite append_assoc. reflexivity.
Qed.

(** With enough fuel the digits written denote the number. *)
Lemma hex_of_nonneg_number (fuel : nat) :
  forall n : Z,
    0 <= n < 16 ^ (Z.of_nat fuel + 1) ->
    all_hex (hex_of_nonneg fuel n EmptyString) = true /\
    hex_number (hex_of_nonneg fuel n EmptyString) 0 = n /\
    hex_of_nonneg fuel n EmptyString <> EmptyString.
Proof.
  induction fuel as [|f IH]; intros n Hn; cbn [hex_of_nonneg].
  - assert (Hd : 0 <= n mod 16 < 16) by (apply Z.mod_pos_bound; lia).
    change (16 ^ (Z.of_nat 0 + 1)) with 16 in Hn.
    cbn [all_hex hex_number]. rewrite (hex_value_digit _ Hd).
    repeat split; [|discriminate]. rewrite Z.mod_small; lia.
  - assert (Hd : 0 <= n mod 16 < 16) by (apply Z.mod_pos_bound; lia).
    destruct (Z.eqb_spec (n / 16) 0) as [E|E].
    + cbn [all_hex hex_number]. rewrite (hex_value_digit _ Hd).
      repeat split; [|discriminate].
      pose proof (Z.div_mod n 16). lia.
    + rewrite hex_of_nonneg_acc.
      destruct (IH (n / 16)) as (H1 & H2 & H3).
      { replace (Z.of_nat (S f) + 1) with (Z.succ (Z.of_nat f + 1)) in Hn by lia.
        rewrite Z.pow_succ_r in Hn by lia. div_lia. }
      rewrite all_hex_app, hex_number_app, H1, H2.
      cbn [all_hex hex_number andb]. rewrite (hex_value_digit _ Hd).
      repeat split.
      * pose proof (Z.div_mod n 16). lia.
      * destruct (hex_of_nonneg f (n / 16) EmptyString); [congruence|discriminate].
Qed.

Lemma toString16_number (n : Z) :
  0 <= n ->
  all_hex (toString16 n) = true /\ hex_number (toString16 n) 0 = n /\
  toString16 n <> EmptyString.
Proof.
  intros Hn. unfold toString16. destruct (Z.ltb_spec n 0) as [H|_]; [lia|].
  apply hex_of_nonneg_number. split; [assumption|].
  destruct (Z.eq_dec n 0) as [->|Hz]; [reflexivity|].
  rewrite Z2Nat.id by apply Z.log2_nonneg.
  pose proof (Z.log2_spec n ltac:(lia)) as [_ Hlt].
  eapply Z.lt_le_trans; [exact Hlt|].
  replace (Z.succ (Z.log2 n)) with (Z.log2 n + 1) by lia.
  apply Z.pow_le_mono_l. lia.
Qed.

(** The hexadecimal string sent for a non-negative input denotes it. *)
Lemma BigInt_hexInput (n : Z) :
  0 <= n -> BigInt_0x (Delegated.hexInput n) = Ok n.
Proof.
  intros Hn. destruct (toString16_number n Hn) as (H1 & H2 & H3).
  unfold BigInt_0x, Delegated.hexInput.
  destruct (Nat.eqb _ 0).
  - rewrite hex_literal_number by assumption. rewrite H2.
    destruct (toString16 n); [congruence|reflexivity].
  - rewrite hex_literal_number by (cbn [all_hex hex_value]; exact H1).
    cbn [hex_number]. change (16 * 0 + _) with 0. rewrite H2. reflexivity.
Qed.

Lemma Z_of_byte_range (b : byte) : 0 <= Z_of_byte b < 256.
Proof.
  unfold Z_of_byte. pose proof (Byte.to_N_bounded b). lia.
Qed.

Lemma hex2_digits (b : byte) :
  hex2 b = String (hex_digit (Z_of_byte b / 16))
                  (String (hex_digit (Z_of_byte b mod 16)) EmptyString).
Proof. destruct b; reflexivity. Qed.

Lemma hex2_number (b : byte) (acc : Z) :
  all_hex (hex2 b) = true /\ hex_number (hex2 b) acc = 256 * acc + Z_of_byte b.
Proof.
  pose proof (Z_of_byte_range b) as Hb.
  rewrite hex2_digits. cbn [all_hex hex_number].
  rewrite !hex_value_digit by div_lia.
  split; [reflexivity|]. div_lia.
Qed.

Lemma Buffer_hex_number (bytes : Uint8Array) :
  forall acc : Z,
    all_hex (Buffer_toString_hex bytes) = true /\
    hex_number (Buffer_toString_hex bytes) acc =
    fold_left (fun a b => 256 * a + Z_of_byte b) bytes acc.
Proof.
  induction bytes as [|b bytes IH]; intros acc; [split; reflexivity|].
  change (Buffer_toString_hex (b :: bytes))
    with (String.append (hex2 b) (Buffer_toString_hex bytes)).
  destruct (hex2_number b acc) as [H1 H2]. destruct (IH (256 * acc + Z_of_byte b)) as [H3 H4].
  rewrite all_hex_app, hex_number_app, H1, H2, H3, H4. split; reflexivity.
Qed.

(** [BigInt("0x" + Buffer.from(bytes).toString("hex"))] is the big-endian
    value of the bytes; there must be at least one byte. *)
Lemma BigInt_of_bytes (bytes : Uint8Array) :
  bytes <> [] -> BigInt_0x (Buffer_toString_hex bytes) = Ok (be_value bytes).
Proof.
  intros Hne. destruct (Buffer_hex_number bytes 0) as [H1 H2].
  unfold BigInt_0x. rewrite hex_literal_number by assumption. rewrite H2.
  destruct bytes as [|b bytes]; [congruence|].
  change (Buffer_toString_hex (b :: bytes))
    with (String.append (hex2 b) (Buffer_toString_hex bytes)).
  destruct (HexFacts.hex2_shape b) as (c1 & c2 & -> & _). reflexivity.
Qed.

End BigIntFacts.

(** ** The masked secret of the delegated module *)

Module SecretFacts.

Lemma be_value_nonneg (bytes : Uint8Array) :
  forall acc : Z,
    0 <= acc -> acc <= fold_left (fun a b => 256 * a + Z_of_byte b) bytes acc.
Proof.
  induction bytes as [|b bytes IH]; intros acc Hacc; cbn [fold_left]; [lia|].
  pose proof (BigIntFacts.Z_of_byte_range b).
  etransitivity; [|apply IH]; lia.
Qed.

Lemma be_value_pos (bytes : Uint8Array) : 0 <= be_value bytes.
Proof. unfold be_value. apply be_value_nonneg. lia. Qed.

Lemma be_value_cons (bytes : Uint8Array) :
  forall acc : Z,
    fold_left (fun a b => 256 * a + Z_of_byte b) bytes acc =
    acc * 256 ^ Z.of_nat (length bytes) + be_value bytes.
Proof.
  unfold be_value.
  induction bytes as [|b bytes IH]; intros acc; cbn [fold_left length].
  - change (256 ^ Z.of_nat 0) with 1. lia.
  - rewrite IH. rewrite (IH (256 * 0 + Z_of_byte b)).
    rewrite Nat2Z.inj_succ, Z.pow_succ_r by lia. lia.
Qed.

Lemma be_value_head (b : byte) (rest : Uint8Array) :
  be_value (b :: rest) = Z_of_byte b * 256 ^ Z.of_nat (length rest) + be_value rest.
Proof.
  unfold be_value at 1. cbn [fold_left]. rewrite be_value_cons.
  replace (256 * 0 + Z_of_byte b) with (Z_of_byte b) by lia. reflexivity.
Qed.

(** What [generateSecret] returns: the 32 bytes drawn, the last one
    masked. *)
Lemma generateSecret_bytes (g : entropy) :
  fst (Delegated.generateSecret g) =
  map g (seq 0 31) ++ [byte_of_Z (Z.land (Z_of_byte (g 31%nat)) 0x1f)].
Proof. reflexivity. Qed.

(** C2: the mask clears bits of the last byte, which is the least
    significant one in the big-endian reading of [computeLeafHash] and
    [computeNullifier].  Whenever the first byte drawn is 0x20 or more, the
    integer read from the secret is 2^253 or more. *)
Theorem generateSecret_exceeds_field (g : entropy) :
  32 <= Z_of_byte (g 0%nat) ->
  exists v,
    BigInt_0x (Buffer_toString_hex (fst (Delegated.generateSecret g))) = Ok v /\
    2 ^ 253 <= v.
Proof.
  intros H0. rewrite generateSecret_bytes.
  exists (be_value (map g (seq 0 31) ++ [byte_of_Z (Z.land (Z_of_byte (g 31%nat)) 0x1f)])).
  split.
  - apply BigIntFacts.BigInt_of_bytes. discriminate.
  - set (rest := map g (seq 1 30) ++ [byte_of_Z (Z.land (Z_of_byte (g 31%nat)) 31)]).
    change (map g (seq 0 31) ++ [byte_of_Z (Z.land (Z_of_byte (g 31%nat)) 31)])
      with (g 0%nat :: rest).
    rewrite be_value_head.
    pose proof (be_value_pos rest) as Hn.
    assert (Hlen : Z.of_nat (length rest) = 31).
    { unfold rest. rewrite length_app, length_map, length_seq. reflexivity. }
    rewrite Hlen.
    assert (E : 2 ^ 253 = 32 * 256 ^ 31) by (vm_compute; reflexivity).
    rewrite E.
    assert (HP : 0 < 256 ^ 31) by (vm_compute; reflexivity).
    revert HP. generalize (256 ^ 31). intros P HP. nia.
Qed.

Lemma generateSecret_exceeds_field_witness :
  32 <= Z_of_byte xff /\
  exists v,
    BigInt_0x (Buffer_toString_hex (fst (Delegated.generateSecret (fun _ => xff)))) = Ok v /\
    2 ^ 253 <= v.
Proof.
  assert (H : 32 <= Z_of_byte xff) by discriminate.
  split; [exact H|].
  exact (generateSecret_exceeds_field (fun _ => xff) H).
Defined.

(** The secret drawn from 32 bytes [0xff] reads as [2^256 - 225]. *)
Lemma generateSecret_all_ones :
  BigInt_0x (Buffer_toString_hex (fst (Delegated.generateSecret (fun _ => xff))))
  = Ok (2 ^ 256 - 225).
Proof. vm_compute. reflexivity. Qed.

End SecretFacts.

(** ** The 32-byte encoding of a field element *)

Module FieldCodec.
Import HexFacts CodecMore BigIntFacts SecretFacts.

Lemma hex_of_nonneg_length (fuel : nat) :
  forall (n : Z) (k : nat),
    0 <= n < 16 ^ (Z.of_nat k + 1) ->
    (String.length (hex_of_nonneg fuel n EmptyString) <= k + 1)%nat.
Proof.
  induction fuel as [|f IH]; intros n k Hn; cbn [hex_of_nonneg].
  - cbn [String.length]. lia.
  - destruct (Z.eqb_spec (n / 16) 0) as [E|E]; [cbn [String.length]; lia|].
    rewrite hex_of_nonneg_acc.
    assert (Hlen : forall s1 s2, String.length (String.append s1 s2)
                                 = (String.length s1 + String.length s2)%nat).
    { intros s1 s2. induction s1 as [|c s1 IH1]; [reflexivity|].
      cbn [String.append String.length]. rewrite IH1. reflexivity. }
    rewrite Hlen. cbn [String.length].
    destruct k as [|k].
    + exfalso. apply E. apply Z.div_small. cbn in Hn. lia.
    + specialize (IH (n / 16) k).
      assert (0 <= n / 16 < 16 ^ (Z.of_nat k + 1)).
      { replace (Z.of_nat (S k) + 1) with (Z.succ (Z.of_nat k + 1)) in Hn by lia.
        rewrite Z.pow_succ_r in Hn by lia. div_lia. }
      specialize (IH H). lia.
Qed.

Lemma append_length (s1 s2 : string) :
  String.length (String.append s1 s2) = (String.length s1 + String.length s2)%nat.
Proof.
  induction s1 as [|c s1 IH]; [reflexivity|].
  cbn [String.append String.length]. rewrite IH. reflexivity.
Qed.

Lemma zeros_length (k : nat) : String.length (string_repeat "0" k) = k.
Proof. induction k as [|k IH]; [reflexivity|]. cbn. rewrite IH. reflexivity. Qed.

Lemma zeros_number (k : nat) (s : string) :
  all_hex (String.append (string_repeat "0" k) s) = all_hex s /\
  hex_number (String.append (string_repeat "0" k) s) 0 = hex_number s 0.
Proof.
  induction k as [|k [IH1 IH2]]; [split; reflexivity|].
  cbn [string_repeat String.append all_hex hex_number]. split; assumption.
Qed.

(** The string that [bigIntToBytes] reads: 64 digits that denote [n]. *)
Lemma padded_hex (n : Z) :
  0 <= n < 2 ^ 256 ->
  let hex := toString16 n in
  let hex := if Nat.eqb (Nat.modulo (String.length hex) 2) 0 then hex else String "0" hex in
  let hex := padStart hex 64 "0" in
  String.length hex = 64%nat /\ all_hex hex = true /\ hex_number hex 0 = n.
Proof.
  intros Hn. cbv zeta.
  destruct (toString16_number n (proj1 Hn)) as (H1 & H2 & _).
  assert (Hlen : (String.length (toString16 n) <= 64)%nat).
  { unfold toString16. destruct (Z.ltb_spec n 0); [lia|].
    apply (hex_of_nonneg_length _ n 63). change (16 ^ (Z.of_nat 63 + 1)) with (2 ^ 256).
    exact Hn. }
  set (hex := if Nat.eqb (Nat.modulo (String.length (toString16 n)) 2) 0
              then toString16 n else String "0" (toString16 n)).
  assert (Hhex : (String.length hex <= 64)%nat /\ all_hex hex = true /\ hex_number hex 0 = n).
  { unfold hex. destruct (Nat.eqb_spec (Nat.modulo (String.length (toString16 n)) 2) 0) as [E|E].
    - auto.
    - cbn [String.length all_hex hex_number hex_value]. repeat split; auto.
      assert (String.length (toString16 n) <> 64%nat).
      { intros E64. rewrite E64 in E. apply E. reflexivity. }
      lia. }
  destruct Hhex as (Hl & Ha & Hv).
  unfold padStart. rewrite append_length, zeros_length.
  destruct (zeros_number (64 - String.length hex) hex) as [Z1 Z2].
  rewrite Z1, Z2. repeat split; auto. lia.
Qed.

Lemma bigIntToBytes_map (n : Z) :
  0 <= n < 2 ^ 256 ->
  exists hex,
    String.length hex = 64%nat /\ all_hex hex = true /\ hex_number hex 0 = n /\
    Delegated.bigIntToBytes n = map (byte_at hex) (seq 0 32).
Proof.
  intros Hn. pose proof (padded_hex n Hn) as H. cbv zeta in H.
  destruct H as (Hl & Ha & Hv).
  eexists. split; [exact Hl|]. split; [exact Ha|]. split; [exact Hv|].
  unfold Delegated.bigIntToBytes. cbv zeta. apply map_ext_in.
  intros i Hi. apply in_seq in Hi.
  change (32 * 2)%nat with 64%nat. rewrite Hl.
  destruct (Nat.ltb_spec (i * 2) 64); [|lia].
  unfold substring, byte_at. replace (i * 2 + 2 - i * 2)%nat with 2%nat by lia.
  reflexivity.
Qed.

(** The bytes decoded from hexadecimal digits denote the same number. *)
Lemma fromHex_number (s : string) :
  all_hex s = true ->
  Nat.even (String.length s) = true ->
  forall acc : Z,
    fold_left (fun a b => 256 * a + Z_of_byte b) (Local.fromHex s) acc = hex_number s acc.
Proof.
  induction s as [| a | a b s IH] using string_pair_ind; intros Hs He acc.
  - reflexivity.
  - discriminate.
  - apply all_hex_cons in Hs. destruct Hs as [Ha Hs].
    apply all_hex_cons in Hs. destruct Hs as [Hb Hs].
    rewrite fromHex_cons. cbn [fold_left hex_number].
    destruct (pair_decoded a b Ha Hb) as [_ Hp]. unfold byte_at in Hp.
    cbn [String.substring Nat.mul] in Hp.
    destruct (hex_value a) as [va|]; [|congruence].
    destruct (hex_value b) as [vb|]; [|congruence].
    unfold option_map in Hp.
    assert (Hp' : Z_of_byte (ToUint8 (parseInt16 (String a (String b EmptyString))))
                  = 16 * va + vb) by congruence.
    rewrite Hp'. rewrite (IH Hs He). f_equal. lia.
Qed.

Lemma be_value_bound (x : Uint8Array) : 0 <= be_value x < 256 ^ Z.of_nat (length x).
Proof.
  induction x as [|b x IH].
  - cbn. lia.
  - rewrite be_value_head. pose proof (Z_of_byte_range b).
    cbn [length]. rewrite Nat2Z.inj_succ, Z.pow_succ_r by lia. nia.
Qed.

Lemma Z_of_byte_inj (a b : byte) : Z_of_byte a = Z_of_byte b -> a = b.
Proof.
  unfold Z_of_byte. intros H. apply N2Z.inj in H.
  pose proof (Byte.of_to_N a) as Ha. pose proof (Byte.of_to_N b) as Hb.
  rewrite H in Ha. congruence.
Qed.

Lemma be_value_inj (x : Uint8Array) :
  forall y : Uint8Array, length x = length y -> be_value x = be_value y -> x = y.
Proof.
  induction x as [|a x IH]; intros y Hl Hv; destruct y as [|b y]; try discriminate.
  - reflexivity.
  - cbn [length] in Hl. injection Hl as Hl.
    rewrite !be_value_head, <- Hl in Hv.
    pose proof (be_value_bound x) as Bx. pose proof (be_value_bound y) as By.
    rewrite <- Hl in By.
    pose proof (Z_of_byte_range a). pose proof (Z_of_byte_range b).
    assert (Hp : 0 < 256 ^ Z.of_nat (length x)) by (apply Z.pow_pos_nonneg; lia).
    assert (Hab : Z_of_byte a = Z_of_byte b) by nia.
    rewrite Hab in Hv. f_equal; [apply Z_of_byte_inj; assumption|].
    apply IH; [assumption|lia].
Qed.

(** X12: [bigIntToBytes] is the 32-byte big-endian encoding of every
    number from 0 to 2^256 - 1: the result has 32 bytes, its big-endian
    value is the number, and reading it back as [computeLeafHash] reads a
    secret ([BigInt("0x" + hex)]) returns the number; conversely every
    array of 32 bytes is the encoding of its value. *)
Theorem bigIntToBytes_round_trip (n : Z) (x : Uint8Array) :
  (0 <= n < 2 ^ 256 ->
   length (Delegated.bigIntToBytes n) = 32%nat /\
   be_value (Delegated.bigIntToBytes n) = n /\
   BigInt_0x (Buffer_toString_hex (Delegated.bigIntToBytes n)) = Ok n) /\
  (length x = 32%nat -> Delegated.bigIntToBytes (be_value x) = x).
Proof.
  assert (Hfwd : forall m, 0 <= m < 2 ^ 256 ->
            length (Delegated.bigIntToBytes m) = 32%nat /\
            be_value (Delegated.bigIntToBytes m) = m).
  { intros m Hm. destruct (bigIntToBytes_map m Hm) as (hex & Hl & Ha & Hv & ->).
    split; [rewrite length_map, length_seq; reflexivity|].
    assert (He : Nat.even (String.length hex) = true) by (rewrite Hl; reflexivity).
    pose proof (fromHex_number hex Ha He 0) as Hf.
    unfold Local.fromHex in Hf. rewrite fromHex_bytes_map, Hl in Hf.
    change (64 / 2)%nat with 32%nat in Hf. unfold be_value. rewrite Hf. exact Hv. }
  split.
  - intros Hn. destruct (Hfwd n Hn) as [Hl Hv]. repeat split; auto.
    rewrite BigInt_of_bytes; [rewrite Hv; reflexivity|].
    intros E. rewrite E in Hl. discriminate.
  - intros Hx. pose proof (be_value_bound x) as Hb. rewrite Hx in Hb.
    change (256 ^ Z.of_nat 32) with (2 ^ 256) in Hb.
    destruct (Hfwd _ Hb) as [Hl Hv].
    apply be_value_inj; [lia|assumption].
Qed.

End FieldCodec.

(** ** Failures of the backend *)

Module DelegatedFacts.
Import Delegated.

Section WithBackend.

Variable service : backend.













End WithBackend.

End DelegatedFacts.

(** ** More on the delegated build *)

Module DelegatedMore.
Import Delegated.

Section WithBackend.

Variable service : backend.

Lemma poseidonHash_undefined (inputs : list (option Z)) (l : log) :
  In None inputs -> poseidonHash service inputs l = (Throw TypeError, l).
Proof.
  intros H. unfold poseidonHash.
  assert (E : mapM (fun i => match i with
                             | Some i => Ok (hexInput i)
                             | None => Throw TypeError
                             end) inputs = Throw TypeError).
  { induction inputs as [|i inputs IH]; [contradiction|].
    cbn [mapM]. destruct i as [i|]; [|reflexivity]. cbn [bind].
    destruct H as [H|H]; [discriminate|]. rewrite (IH H). reflexivity. }
  rewrite E. reflexivity.
Qed.

Lemma poseidonHash_defined (inputs : list Z) (l : log) :
  poseidonHash service (map Some inputs) l =
  (hash_of_response (service (length l) (map hexInput inputs)),
   l ++ [map hexInput inputs]).
Proof.
  unfold poseidonHash.
  assert (E : mapM (fun i => match i with
                             | Some i => Ok (hexInput i)
                             | None => Throw TypeError
                             end) (map Some inputs) = Ok (map hexInput inputs)).
  { induction inputs as [|i inputs IH]; [reflexivity|].
    cbn [map mapM bind]. rewrite IH. reflexivity. }
  rewrite E. reflexivity.
Qed.

(** A leaf that is computed took one request. *)
Lemma computeLeafHash_sends (wallet : string) (amount : Z) (secret : Uint8Array)
    (l l' : log) (leaf : Uint8Array) :
  computeLeafHash service wallet amount secret l = (Ok leaf, l') ->
  length l' = S (length l).
Proof.
  unfold computeLeafHash, await, ret.
  destruct (PublicKey_toBuffer wallet) as [wb|e]; [|discriminate].
  destruct (BigInt_0x (Buffer_toString_hex wb)) as [w|e]; [|discriminate].
  destruct (BigInt_0x (Buffer_toString_hex secret)) as [sb|e]; [|discriminate].
  change [Some w; Some amount; Some sb] with (map Some [w; amount; sb]).
  rewrite (poseidonHash_defined [w; amount; sb] l).
  destruct (hash_of_response _); [|discriminate].
  intros H. inversion H; subst. rewrite length_app. cbn [length]. lia.
Qed.

Lemma start_all_counts {A : Type} (ms : list (async A)) :
  (forall m, In m ms ->
     forall l a l', m l = (Ok a, l') -> length l' = S (length l)) ->
  forall (l : log) (vs : list A),
    settle (fst (start_all ms l)) = Ok vs ->
    length vs = length ms /\
    length (snd (start_all ms l)) = (length l + length ms)%nat.
Proof.
  induction ms as [|m ms IH]; intros Hone l vs H; cbn [start_all] in *.
  - cbn [fst snd settle] in *. inversion H. cbn. lia.
  - destruct (m l) as [r l1] eqn:Em.
    destruct (start_all ms l1) as [rs l2] eqn:Es. cbn [fst snd settle] in *.
    destruct r as [a|e]; [|discriminate].
    destruct (settle rs) as [more|e] eqn:E; [|discriminate].
    inversion H; subst; clear H.
    pose proof (Hone m (or_introl eq_refl) l a l1 Em) as H1.
    destruct (IH (fun m' Hm' => Hone m' (or_intror Hm')) l1 more) as [H2 H3].
    { rewrite Es. exact E. }
    rewrite Es in H3. cbn [snd length] in *. lia.
Qed.

(** One level: as many requests as entries of the next level. *)
Lemma level_counts (cur : list Z) :
  forall (l : log) (next : list Z),
    settle (fst (start_all (levelPromises service cur) l)) = Ok next ->
    length cur = (2 * length next)%nat /\
    length (snd (start_all (levelPromises service cur) l)) = (length l + length next)%nat.
Proof.
  induction cur as [| a | a b rest IH] using pair_ind; intros l next H;
    cbn [levelPromises start_all] in *.
  - cbn [fst snd settle] in *. inversion H. cbn. lia.
  - rewrite (poseidonHash_undefined [Some a; None] l) in H by (cbn; auto).
    discriminate.
  - change [Some a; Some b] with (map Some [a; b]) in *.
    rewrite (poseidonHash_defined [a; b] l) in *.
    destruct (start_all (levelPromises service rest) (l ++ [map hexInput [a; b]]))
      as [rs l2] eqn:Es.
    cbn [fst snd settle] in *.
    destruct (hash_of_response _) as [v|e]; [|discriminate].
    destruct (settle rs) as [more|e] eqn:E; [|discriminate].
    inversion H; subst; clear H.
    destruct (IH (l ++ [map hexInput [a; b]]) more) as [H1 H2].
    { rewrite Es. exact E. }
    rewrite Es in H2. cbn [snd length] in *. rewrite length_app in H2. cbn [length] in H2.
    lia.
Qed.

Lemma buildLevels_counts (depth : nat) :
  forall (cur : list Z) (l l' : log) (top : list Z),
    buildLevels service depth cur l = (Ok top, l') ->
    length cur = (2 ^ depth * length top)%nat /\
    (length l' + length top = length l + length cur)%nat.
Proof.
  induction depth as [|d IH]; intros cur l l' top H; cbn [buildLevels] in H.
  - unfold ret in H. inversion H; subst. cbn. lia.
  - unfold await, Promise_all in H.
    destruct (start_all (levelPromises service cur) l) as [rs l1] eqn:Es.
    destruct (settle rs) as [next|e] eqn:E; [|discriminate].
    destruct (level_counts cur l next) as [H1 H2]; [rewrite Es; exact E|].
    rewrite Es in H2. cbn [snd] in H2.
    destruct (IH next l1 l' top H) as [H3 H4].
    rewrite Nat.pow_succ_r'. split; nia.
Qed.

Lemma assigned_length (rs : list Recipient) (g : entropy) :
  length (fst (assignSecrets rs g)) = length rs.
Proof.
  revert g. induction rs as [|r rs IH]; intros g; cbn [assignSecrets]; [reflexivity|].
  destruct (match secret r with Some s => (s, g) | None => generateSecret g end) as [s g1].
  specialize (IH g1). destruct (assignSecrets rs g1) as [rest g2].
  cbn [fst length] in *. congruence.
Qed.

Lemma await_Ok {A B : Type} (m : async A) (k : A -> async B) (l l' : log) (b : B) :
  await m k l = (Ok b, l') ->
  exists a l1, m l = (Ok a, l1) /\ k a l1 = (Ok b, l').
Proof.
  unfold await. destruct (m l) as [[a|e] l1]; [eauto|discriminate].
Qed.

Lemma await_Throw {A B : Type} (m : async A) (k : A -> async B) (l : log) (e : exn) :
  fst (m l) = Throw e -> fst (await m k l) = Throw e.
Proof.
  unfold await. destruct (m l) as [[a|e0] l1]; cbn [fst]; intros H; [discriminate|congruence].
Qed.

Lemma Promise_all_run {A : Type} (ms : list (async A)) (l : log) :
  Promise_all ms l = (settle (fst (start_all ms l)), snd (start_all ms l)).
Proof.
  unfold Promise_all. destruct (start_all ms l). reflexivity.
Qed.

(** What a successful delegated build did and returned. *)
Lemma build_Ok (recipients : list Recipient) (g : entropy) (l l' : log) (t : MerkleTree) :
  (length recipients <= 256)%nat ->
  fst (buildMerkleTree service recipients g) l = (Ok t, l') ->
  exists leavesBn rootBn,
    length leavesBn = length recipients /\
    t = {| root := bigIntToBytes rootBn;
           leaves := map bigIntToBytes (leavesBn ++ repeat 0 (256 - length recipients)) |} /\
    length l' = (length l + length recipients + 255)%nat.
Proof.
  intros Hn. unfold buildMerkleTree. pose proof (assigned_length recipients g) as Hlen.
  destruct (assignSecrets recipients g) as [rws g']. cbn [fst] in *.
  unfold buildFrom. intros H.
  apply await_Ok in H. destruct H as (leavesBn & l1 & Hleaves & H).
  rewrite Promise_all_run in Hleaves. inversion Hleaves as [[E Hl1]]; clear Hleaves.
  apply start_all_counts in E.
  2:{ intros m Hm l0 a l0' Hrun. apply in_map_iff in Hm.
      destruct Hm as (r & <- & _). apply await_Ok in Hrun.
      destruct Hrun as (leaf & l2 & Hleaf & Hret). unfold ret in Hret.
      inversion Hret; subst. eapply computeLeafHash_sends; eauto. }
  destruct E as [H1 H2]. rewrite Hl1 in H2. rewrite length_map in H1, H2.
  cbv zeta in H. change (Nat.shiftl 1 TREE_DEPTH) with 256%nat in H.
  apply await_Ok in H. destruct H as (top & l2 & B & H).
  destruct (buildLevels_counts _ _ _ _ _ B) as [H3 H4].
  assert (Hpad : length (pad leavesBn 256) = 256%nat).
  { unfold pad. rewrite length_app, repeat_length. lia. }
  rewrite Hpad in H3, H4. change (2 ^ TREE_DEPTH)%nat with 256%nat in H3.
  destruct top as [|rootBn [|x top]]; cbn [length] in H3; try lia.
  cbn [get Z.ltb Z.compare Z.to_nat nth_error] in H. unfold ret in H.
  inversion H; subst; clear H.
  exists leavesBn, rootBn. unfold pad. rewrite H1, Hlen.
  repeat split; auto. cbn [length] in H4. lia.
Qed.

(** X13: a delegated build of [n <= 256] recipients that succeeds has
    sent exactly [n + 255] requests: one for each recipient and one for
    each node of the 8 levels above the leaves. *)
Theorem build_sends (recipients : list Recipient) (g : entropy) (l l' : log)
    (t : MerkleTree) :
  (length recipients <= 256)%nat ->
  fst (buildMerkleTree service recipients g) l = (Ok t, l') ->
  length l' = (length l + length recipients + 255)%nat.
Proof.
  intros Hn H. destruct (build_Ok _ _ _ _ _ Hn H) as (bn & rt & _ & _ & Hl). exact Hl.
Qed.

(** X14: a delegated build of [n <= 256] recipients that succeeds returns
    a root of 32 bytes and 256 leaves of 32 bytes each; the leaves from
    position [n] on are 32 zero bytes. *)
Theorem build_returns (recipients : list Recipient) (g : entropy) (l l' : log)
    (t : MerkleTree) :
  (length recipients <= 256)%nat ->
  fst (buildMerkleTree service recipients g) l = (Ok t, l') ->
  length (root t) = 32%nat /\
  length (leaves t) = 256%nat /\
  (forall leaf, In leaf (leaves t) -> length leaf = 32%nat) /\
  (forall i : nat, (length recipients <= i < 256)%nat ->
                   nth_error (leaves t) i = Some (new_Uint8Array 32)).
Proof.
  intros Hn H. destruct (build_Ok _ _ _ _ _ Hn H) as (bn & rt & Hb & -> & _).
  cbn [root leaves].
  assert (H32 : forall z, length (bigIntToBytes z) = 32%nat).
  { intros z. unfold bigIntToBytes. cbv zeta. rewrite length_map, length_seq. reflexivity. }
  split; [apply H32|]. split.
  - rewrite length_map, length_app, repeat_length. lia.
  - split.
    + intros leaf Hl. apply in_map_iff in Hl. destruct Hl as (z & <- & _). apply H32.
    + intros i Hi. rewrite nth_error_map, nth_error_app2 by lia.
      rewrite nth_error_repeat by lia. reflexivity.
Qed.

(** *** Secrets without bytes *)

Lemma settle_Throw {A : Type} (rs : list (result A)) (e : exn) :
  In (Throw e) rs -> exists e', settle rs = Throw e'.
Proof.
  induction rs as [|r rs IH]; intros H; [contradiction|].
  cbn [settle]. destruct r as [a|e0]; [|eauto].
  destruct H as [H|H]; [discriminate|].
  destruct (IH H) as [e' ->]. eauto.
Qed.

Lemma start_all_Throw {A : Type} (ms : list (async A)) (m : async A) :
  In m ms ->
  (forall l, exists e, fst (m l) = Throw e) ->
  forall l, exists e, In (Throw e) (fst (start_all ms l)).
Proof.
  induction ms as [|m0 ms IH]; intros Hin Hm l; [contradiction|].
  cbn [start_all]. destruct (m0 l) as [r l1] eqn:E0.
  destruct (start_all ms l1) as [rs l2] eqn:Es. cbn [fst].
  destruct Hin as [->|Hin].
  - destruct (Hm l) as [e He]. rewrite E0 in He. cbn [fst] in He. subst r.
    exists e. left. reflexivity.
  - destruct (IH Hin Hm l1) as [e He]. rewrite Es in He. exists e. right. exact He.
Qed.

Lemma computeLeafHash_empty_secret (wallet : string) (amount : Z) (l : log) :
  exists e, computeLeafHash service wallet amount [] l = (Throw e, l).
Proof.
  unfold computeLeafHash, await, ret.
  destruct (PublicKey_toBuffer wallet) as [wb|e]; [|eauto].
  destruct (BigInt_0x (Buffer_toString_hex wb)) as [w|e]; [|eauto].
  cbn. eauto.
Qed.

Lemma assignSecrets_keeps (rs : list Recipient) :
  forall (g : entropy) (r : Recipient) (s : Uint8Array),
    In r rs -> secret r = Some s ->
    In {| rs_wallet := wallet r; rs_amount := amount r; rs_secret := s |}
       (fst (assignSecrets rs g)).
Proof.
  induction rs as [|r0 rs IH]; intros g r s Hin Hs; [contradiction|].
  cbn [assignSecrets].
  destruct (match secret r0 with Some s => (s, g) | None => generateSecret g end)
    as [s0 g1] eqn:E0.
  specialize (IH g1 r s). destruct (assignSecrets rs g1) as [rest g2]. cbn [fst] in *.
  destruct Hin as [->|Hin].
  - left. rewrite Hs in E0. inversion E0. reflexivity.
  - right. auto.
Qed.

(** X15: an empty array given as a secret is not replaced by a generated
    secret, and it makes the delegated module fail before any request:
    [computeNullifier] and [computeLeafHash] reject without sending
    anything ([BigInt("0x")] is a [SyntaxError]), and [buildMerkleTree]
    rejects as soon as one recipient has such a secret. *)
Theorem empty_secret_rejected
    (wallet : string) (amount : Z) (idx : number) (l : log)
    (recipients : list Recipient) (r : Recipient) (g : entropy) :
  computeNullifier service [] idx l = (Throw SyntaxError, l) /\
  (exists e, computeLeafHash service wallet amount [] l = (Throw e, l)) /\
  (In r recipients -> secret r = Some [] ->
   exists e, fst (fst (buildMerkleTree service recipients g) l) = Throw e).
Proof.
  split; [reflexivity|]. split; [apply computeLeafHash_empty_secret|].
  intros Hin Hs. unfold buildMerkleTree.
  pose proof (assignSecrets_keeps recipients g r [] Hin Hs) as Hk.
  destruct (assignSecrets recipients g) as [rws g']. cbn [fst] in *.
  unfold buildFrom.
  set (leafPromise := fun r0 : RecipientWithSecret =>
         await (computeLeafHash service (rs_wallet r0) (rs_amount r0) (rs_secret r0))
               (fun leafBytes => ret (BigInt_0x (Buffer_toString_hex leafBytes)))).
  destruct (start_all_Throw (map leafPromise rws)
              (leafPromise {| rs_wallet := Delegated.wallet r;
                              rs_amount := Delegated.amount r; rs_secret := [] |}))
    with (l := l) as [e He].
  { apply in_map. exact Hk. }
  { intros l0. unfold leafPromise. cbn [rs_wallet rs_amount rs_secret].
    destruct (computeLeafHash_empty_secret (Delegated.wallet r) (Delegated.amount r) l0)
      as [e He]. exists e. apply await_Throw. rewrite He. reflexivity. }
  destruct (settle_Throw _ e He) as [e' He']. exists e'.
  apply await_Throw. rewrite Promise_all_run. exact He'.
Qed.

(** *** The inputs on the wire *)

(** X16: the hexadecimal string sent for a non-negative input has an even
    number of digits and denotes the input; the string sent for a
    negative input contains a minus sign and denotes no number
    ([BigInt("0x" + ...)] of it is a [SyntaxError]). *)
Theorem hexInput_codec (n : Z) :
  (0 <= n ->
   Nat.even (String.length (hexInput n)) = true /\
   BigInt_0x (hexInput n) = Ok n) /\
  (n < 0 -> BigInt_0x (hexInput n) = Throw SyntaxError).
Proof.
  split; intros Hn.
  - split; [|apply BigIntFacts.BigInt_hexInput; assumption].
    unfold hexInput. cbv zeta.
    destruct (Nat.eqb_spec (Nat.modulo (String.length (toString16 n)) 2) 0) as [E|E].
    + apply Nat.even_spec. exists (String.length (toString16 n) / 2)%nat.
      pose proof (Nat.div_mod_eq (String.length (toString16 n)) 2). lia.
    + cbn [String.length]. rewrite Nat.even_succ. apply Nat.odd_spec.
      exists (String.length (toString16 n) / 2)%nat.
      pose proof (Nat.div_mod_eq (String.length (toString16 n)) 2).
      pose proof (Nat.mod_upper_bound (String.length (toString16 n)) 2). lia.
  - unfold hexInput, toString16. cbv zeta.
    destruct (Z.ltb_spec n 0) as [_|H]; [|lia].
    destruct (Nat.eqb _ 0); reflexivity.
Qed.

End WithBackend.

(** *** [generateMerkleRoot] *)

Lemma assignSecrets_draws (recipients : list (string * Z)) :
  forall (g : entropy) (k : nat),
    snd (assignSecrets
           (map (fun r => {| wallet := fst r; amount := snd r; secret := None |}) recipients)
           g) k
    = g (k + 32 * length recipients)%nat.
Proof.
  induction recipients as [|r rs IH]; intros g k.
  - cbn. f_equal. lia.
  - cbn [map assignSecrets secret generateSecret getRandomValues new_Uint8Array
         repeat length].
    specialize (IH (fun k0 => g (k0 + 32)%nat) k).
    destruct (assignSecrets _ (fun k0 => g (k0 + 32)%nat)) as [rest g2].
    cbn [snd] in *. rewrite IH. f_equal. lia.
Qed.

(** X17: [generateMerkleRoot] draws 32 random bytes for each recipient,
    whether it succeeds or not; if it succeeds for [n <= 256] recipients,
    it returns 32 bytes and has sent [n + 255] requests. *)
Theorem generateMerkleRoot_cost
    (service : backend) (recipients : list (string * Z)) (g : entropy)
    (l l' : log) (rootBytes : Uint8Array) :
  (forall k : nat,
      snd (Solana.generateMerkleRoot service recipients g) k
      = g (k + 32 * length recipients)%nat) /\
  ((length recipients <= 256)%nat ->
   fst (Solana.generateMerkleRoot service recipients g) l = (Ok rootBytes, l') ->
   length rootBytes = 32%nat /\
   length l' = (length l + length recipients + 255)%nat).
Proof.
  unfold Solana.generateMerkleRoot.
  set (rs := map (fun r => {| wallet := fst r; amount := snd r; secret := None |})
                 recipients).
  assert (Hrs : length rs = length recipients) by (unfold rs; apply length_map).
  pose proof (assignSecrets_draws recipients g) as Hd. fold rs in Hd.
  pose proof (build_Ok service rs g l) as Hb.
  unfold buildMerkleTree in *.
  destruct (assignSecrets rs g) as [rws g']. cbn [fst snd] in *.
  split; [exact Hd|].
  intros Hn H. apply await_Ok in H. destruct H as (t & l1 & Ht & H).
  unfold ret in H. inversion H; subst; clear H.
  rewrite Hrs in Hb.
  destruct (Hb l' t Hn Ht) as (bn & rt & _ & -> & Hl).
  split; [|exact Hl].
  cbn [root]. unfold bigIntToBytes. cbv zeta. rewrite length_map, length_seq. reflexivity.
Qed.

End DelegatedMore.

(** ** The choice of the network *)

Module NetworkFacts.
Import Network.

(** X18: the network chosen with [setNetwork] is the network of the
    provider after the page is loaded again, whatever the host name, and
    no other item of the storage is changed; when the stored item is none
    of the two names (or there is none), the host name decides. *)
Theorem network_persists (st : storage) (hostname key : string) (n : NetworkType) :
  initialNetwork (setNetwork n st) hostname = n /\
  (key <> "shadow-drop-network"%string ->
   getItem (setNetwork n st) key = getItem st key) /\
  (getItem st "shadow-drop-network" <> Some "localnet"%string ->
   getItem st "shadow-drop-network" <> Some "devnet"%string ->
   initialNetwork st hostname
   = if String.eqb hostname "localhost" then localnet else devnet).
Proof.
  split; [destruct n; reflexivity|]. split.
  - intros Hk. unfold setNetwork, setItem, getItem.
    destruct (String.eqb_spec key "shadow-drop-network"); [contradiction|reflexivity].
  - intros H1 H2. unfold initialNetwork.
    destruct (getItem st "shadow-drop-network") as [saved|]; [|reflexivity].
    destruct (String.eqb_spec saved "localnet") as [->|_]; [contradiction|].
    destruct (String.eqb_spec saved "devnet") as [->|_]; [contradiction|].
    reflexivity.
Qed.

(** X19: the link made by [getExplorerUrl] carries the query of the
    [explorerUrl] configured for the network, after the kind of the link
    and its value. *)
Theorem getExplorerUrl_query (n : NetworkType) (type value : string) :
  exists query : string,
    explorerUrl n = ("https://explorer.solana.com/" ++ query)%string /\
    getExplorerUrl n type value
    = ("https://explorer.solana.com/" ++ type ++ "/" ++ value ++ query)%string.
Proof.
  destruct n; eexists; split; reflexivity.
Qed.

End NetworkFacts.

(** ** What the two modules hash for a leaf *)

Module LeafFacts.

Lemma skipn_repeat {A : Type} (x : A) (n k : nat) :
  skipn k (repeat x n) = repeat x (n - k).
Proof.
  revert k. induction n as [|n IH]; intros k; destruct k; simpl; auto.
Qed.

(** Writing [src] right after the part already written of a buffer whose
    rest is still zero. *)
Lemma set_after (pre src : Uint8Array) (n : nat) :
  set (pre ++ new_Uint8Array n) src (length pre) =
  (pre ++ src) ++ new_Uint8Array (n - length src).
Proof.
  unfold set, new_Uint8Array.
  rewrite firstn_app, firstn_all, Nat.sub_diag, firstn_O, app_nil_r.
  rewrite skipn_app, skipn_all2 by lia.
  replace (length pre + length src - length pre)%nat with (length src) by lia.
  rewrite skipn_repeat. cbn [app]. rewrite <- app_assoc. reflexivity.
Qed.

Lemma set_first (src : Uint8Array) (n : nat) :
  set (new_Uint8Array n) src 0 = src ++ new_Uint8Array (n - length src).
Proof. apply (set_after [] src n). Qed.


Lemma Z_of_byte_of_Z (z : Z) : Z_of_byte (byte_of_Z z) = z mod 256.
Proof.
  unfold byte_of_Z, Z_of_byte.
  change 255 with (Z.ones 8). rewrite Z.land_ones by lia. change (2 ^ 8) with 256.
  pose proof (Z.mod_pos_bound z 256 ltac:(lia)) as Hr.
  destruct (Byte.of_N (Z.to_N (z mod 256))) as [b|] eqn:E.
  - apply Byte.to_of_N in E. rewrite E. lia.
  - apply Byte.of_N_None_iff in E. lia.
Qed.

Lemma le_value_le_bytes (n : nat) :
  forall (v : Z) (s : nat),
    le_value (map (fun k => byte_of_Z (Z.shiftr v (8 * Z.of_nat k))) (seq s n)) =
    Z.shiftr v (8 * Z.of_nat s) mod 256 ^ Z.of_nat n.
Proof.
  induction n as [|n IH]; intros v s; cbn [seq map le_value fold_right].
  - change (256 ^ Z.of_nat 0) with 1. now rewrite Z.mod_1_r.
  - fold (le_value (map (fun k => byte_of_Z (Z.shiftr v (8 * Z.of_nat k))) (seq (S s) n))).
    rewrite IH, Z_of_byte_of_Z.
    replace (Z.shiftr v (8 * Z.of_nat (S s))) with (Z.shiftr v (8 * Z.of_nat s) / 256).
    2:{ rewrite !Z.shiftr_div_pow2 by lia.
        replace (8 * Z.of_nat (S s)) with (8 * Z.of_nat s + 8) by lia.
        rewrite Z.pow_add_r by lia. rewrite Z.div_div by lia. reflexivity. }
    rewrite Nat2Z.inj_succ, Z.pow_succ_r by lia.
    set (x := Z.shiftr v (8 * Z.of_nat s)). set (p := 256 ^ Z.of_nat n).
    assert (Hp : 0 < p) by (apply Z.pow_pos_nonneg; lia).
    rewrite Z.rem_mul_r by lia. reflexivity.
Qed.

Lemma setBigUint64_value (v : Z) :
  length (setBigUint64 (new_Uint8Array 8) 0 v) = 8%nat /\
  le_value (setBigUint64 (new_Uint8Array 8) 0 v) = v mod 2 ^ 64.
Proof.
  unfold setBigUint64. rewrite set_first.
  assert (Hlen : length (le_bytes 8 (Z.land v 0xffffffffffffffff)) = 8%nat)
    by (unfold le_bytes; rewrite length_map, length_seq; reflexivity).
  rewrite Hlen. cbn [Nat.sub new_Uint8Array repeat]. rewrite app_nil_r.
  split; [exact Hlen|].
  unfold le_bytes. rewrite le_value_le_bytes.
  change (8 * Z.of_nat 0) with 0. rewrite Z.shiftr_0_r.
  change 0xffffffffffffffff with (Z.ones 64). rewrite Z.land_ones by lia.
  change (256 ^ Z.of_nat 8) with (2 ^ 64). apply Z.mod_mod. discriminate.
Qed.

Lemma PublicKey_length (wallet : string) (bytes : Uint8Array) :
  PublicKey_toBuffer wallet = Ok bytes -> length bytes = 32%nat.
Proof.
  unfold PublicKey_toBuffer. destruct (bs58_decode wallet) as [b|]; [|discriminate].
  destruct (Nat.eqb_spec (length b) 32); [|discriminate]. congruence.
Qed.



End LeafFacts.

(** ** The nullifier of the local module *)

Module NullifierFacts.

(** X20: the local [computeNullifier] throws a [RangeError] on an index
    that is no integer.  On an integer index it is the hash of
    ["poseidon2"], the secret and 8 bytes whose little-endian value is the
    index modulo 2^64; so two indices that agree modulo 2^64 (0 and 2^64,
    for instance) have the same nullifier. *)
Theorem nullifier_index (secret : Uint8Array) (leafIndex other : number) (i j : Z) :
  (BigInt_of_number leafIndex = Throw RangeError ->
   Local.computeNullifier secret leafIndex = Throw RangeError) /\
  (BigInt_of_number leafIndex = Ok i ->
   exists indexBytes,
     length indexBytes = 8%nat /\
     le_value indexBytes = i mod 2 ^ 64 /\
     Local.computeNullifier secret leafIndex
     = Ok (Local.simpleHash (TextEncoder_encode "poseidon2" ++ secret ++ indexBytes))) /\
  (BigInt_of_number leafIndex = Ok i ->
   BigInt_of_number other = Ok j ->
   i mod 2 ^ 64 = j mod 2 ^ 64 ->
   Local.computeNullifier secret leafIndex = Local.computeNullifier secret other).
Proof.
  unfold Local.computeNullifier. cbv zeta. split; [|split].
  - intros ->. reflexivity.
  - intros ->. cbn [bind].
    destruct (LeafFacts.setBigUint64_value i) as [Hlen Hval].
    exists (setBigUint64 (new_Uint8Array 8) 0 i).
    split; [exact Hlen|]. split; [exact Hval|].
    rewrite HashFacts.poseidonHash2_preimage. reflexivity.
  - intros -> -> H. cbn [bind]. unfold setBigUint64.
    change 0xffffffffffffffff with (Z.ones 64).
    rewrite !Z.land_ones by lia. rewrite H. reflexivity.
Qed.

End NullifierFacts.

(** ** No capacity is checked *)

Module CapacityFacts.
Import Delegated.

Section WithBackend.

Variable service : backend.

(** What a delegated build that returns has done, whatever the number of
    recipients. *)
Lemma build_Ok_any (recipients : list Recipient) (g : entropy) (l l' : log)
    (t : MerkleTree) :
  fst (buildMerkleTree service recipients g) l = (Ok t, l') ->
  exists leavesBn top : list Z,
    length leavesBn = length recipients /\
    length (pad leavesBn 256) = (256 * length top)%nat /\
    leaves t = map bigIntToBytes (pad leavesBn 256) /\
    (length l' + length top
     = length l + length recipients + length (pad leavesBn 256))%nat.
Proof.
  unfold buildMerkleTree. pose proof (DelegatedMore.assigned_length recipients g) as Hlen.
  destruct (assignSecrets recipients g) as [rws g']. cbn [fst] in *.
  unfold buildFrom. intros H.
  apply DelegatedMore.await_Ok in H. destruct H as (leavesBn & l1 & Hleaves & H).
  rewrite DelegatedMore.Promise_all_run in Hleaves.
  inversion Hleaves as [[E Hl1]]; clear Hleaves.
  apply DelegatedMore.start_all_counts in E.
  2:{ intros m Hm l0 a l0' Hrun. apply in_map_iff in Hm.
      destruct Hm as (r & <- & _). apply DelegatedMore.await_Ok in Hrun.
      destruct Hrun as (leaf & l2 & Hleaf & Hret). unfold ret in Hret.
      inversion Hret; subst. eapply DelegatedMore.computeLeafHash_sends; eauto. }
  destruct E as [H1 H2]. rewrite Hl1 in H2. rewrite length_map in H1, H2.
  cbv zeta in H. change (Nat.shiftl 1 TREE_DEPTH) with 256%nat in H.
  apply DelegatedMore.await_Ok in H. destruct H as (top & l2 & B & H).
  destruct (DelegatedMore.buildLevels_counts _ _ _ _ _ _ B) as [H3 H4].
  change (2 ^ TREE_DEPTH)%nat with 256%nat in H3.
  destruct (get top 0) as [rootBn|]; unfold ret in H; [|discriminate].
  inversion H; subst; clear H. exists leavesBn, top. cbn [leaves].
  repeat split; auto; lia.
Qed.

(** With 256 recipients or more, a build that returns has a multiple of
    256 recipients, one leaf for each, and has sent a request for every
    leaf and every node above. *)
Lemma returned_multiple (recipients : list Recipient) (g : entropy) (l l' : log)
    (t : MerkleTree) :
  (256 <= length recipients)%nat ->
  fst (buildMerkleTree service recipients g) l = (Ok t, l') ->
  (length recipients mod 256 = 0)%nat /\
  length (leaves t) = length recipients /\
  length l' = (length l + length recipients + 255 * (length recipients / 256))%nat.
Proof.
  intros Hn H.
  destruct (build_Ok_any _ _ _ _ _ H) as (bn & top & Hb & Hp & -> & Hl).
  assert (Epad : pad bn 256 = bn).
  { unfold pad. replace (256 - length bn)%nat with 0%nat by lia. apply app_nil_r. }
  rewrite Epad in *. rewrite length_map, Hb in *.
  assert (Hdiv : (length recipients / 256 = length top)%nat).
  { rewrite Hp, Nat.mul_comm. apply Nat.div_mul. discriminate. }
  assert (Hmod : (length recipients mod 256 = 0)%nat).
  { rewrite Hp, Nat.mul_comm. apply Nat.Div0.mod_mul. }
  rewrite Hdiv. repeat split; auto; lia.
Qed.

(** *** A backend that answers *)

Hypothesis answering :
  forall (k : nat) (inputs : list string),
    exists v, hash_of_response (service k inputs) = Ok v.

Lemma poseidonHash_answers (inputs : list Z) (l : log) :
  exists v, poseidonHash service (map Some inputs) l = (Ok v, l ++ [map hexInput inputs]).
Proof.
  rewrite DelegatedMore.poseidonHash_defined.
  destruct (answering (length l) (map hexInput inputs)) as [v ->]. eauto.
Qed.

Lemma bigIntToBytes_nonempty (z : Z) : bigIntToBytes z <> [].
Proof.
  intros H. apply (f_equal (@length byte)) in H.
  unfold bigIntToBytes in H. cbv zeta in H. rewrite length_map, length_seq in H.
  discriminate.
Qed.

Lemma computeLeafHash_answers (w : string) (a : Z) (s : Uint8Array) (l : log) :
  (exists bytes, PublicKey_toBuffer w = Ok bytes) ->
  s <> [] ->
  exists leaf l', computeLeafHash service w a s l = (Ok leaf, l') /\ leaf <> [].
Proof.
  intros [wb Hw] Hs. unfold computeLeafHash, await, ret. rewrite Hw.
  assert (Hwb : wb <> []).
  { intros ->. apply LeafFacts.PublicKey_length in Hw. discriminate. }
  rewrite (BigIntFacts.BigInt_of_bytes wb Hwb), (BigIntFacts.BigInt_of_bytes s Hs).
  change [Some (be_value wb); Some a; Some (be_value s)]
    with (map Some [be_value wb; a; be_value s]).
  destruct (poseidonHash_answers [be_value wb; a; be_value s] l) as [v ->].
  eexists _, _. split; [reflexivity | apply bigIntToBytes_nonempty].
Qed.

Lemma start_all_answers {A : Type} (ms : list (async A)) :
  (forall m, In m ms -> forall l, exists a l', m l = (Ok a, l')) ->
  forall l, exists vs, settle (fst (start_all ms l)) = Ok vs /\ length vs = length ms.
Proof.
  induction ms as [|m ms IH]; intros H l; cbn [start_all].
  - exists []. split; reflexivity.
  - destruct (H m (or_introl eq_refl) l) as (a & l1 & ->).
    destruct (IH (fun m' Hm' => H m' (or_intror Hm')) l1) as (vs & Hvs & Hlen).
    destruct (start_all ms l1) as [rs l2]. cbn [fst settle] in *. rewrite Hvs.
    exists (a :: vs). split; [reflexivity|]. cbn [length]. congruence.
Qed.

Lemma levelPromises_answer (cur : list Z) :
  Nat.even (length cur) = true ->
  forall m, In m (levelPromises service cur) ->
  forall l, exists a l', m l = (Ok a, l').
Proof.
  induction cur as [| a | a b rest IH] using pair_ind; intros He m Hm l.
  - destruct Hm.
  - discriminate He.
  - cbn [levelPromises] in Hm. destruct Hm as [<-|Hm].
    + change [Some a; Some b] with (map Some [a; b]).
      destruct (poseidonHash_answers [a; b] l) as [v ->]. eauto.
    + apply IH; assumption.
Qed.

Lemma buildLevels_answers (depth : nat) :
  forall (cur : list Z) (k : nat) (l : log),
    length cur = (2 ^ depth * k)%nat ->
    exists top l', buildLevels service depth cur l = (Ok top, l').
Proof.
  induction depth as [|d IH]; intros cur k l Hk; cbn [buildLevels].
  - unfold ret. eauto.
  - assert (He : Nat.even (length cur) = true).
    { apply Nat.even_spec. exists (2 ^ d * k)%nat.
      rewrite Hk, Nat.pow_succ_r'. lia. }
    destruct (start_all_answers (levelPromises service cur)
                (levelPromises_answer cur He) l) as (next & Hnext & _).
    destruct (DelegatedMore.level_counts service cur l next Hnext) as [H1 _].
    unfold await. rewrite DelegatedMore.Promise_all_run, Hnext.
    apply (IH next k). rewrite Nat.pow_succ_r' in Hk. lia.
Qed.

Lemma generateSecret_nonempty (g : entropy) : fst (generateSecret g) <> [].
Proof.
  unfold generateSecret, getRandomValues. cbn [fst]. unfold mask31.
  destruct (nth_error _ 31) as [b|].
  - intros H. apply app_eq_nil in H. destruct H as [_ H]. discriminate.
  - change (length (new_Uint8Array 32)) with 32%nat.
    change (seq 0 32) with (0%nat :: seq 1 31). cbn [map]. discriminate.
Qed.

Lemma assignSecrets_valid (recipients : list Recipient) :
  forall (g : entropy) (rw : RecipientWithSecret),
    (forall r, In r recipients ->
               (exists bytes, PublicKey_toBuffer (wallet r) = Ok bytes) /\
               secret r <> Some []) ->
    In rw (fst (assignSecrets recipients g)) ->
    (exists bytes, PublicKey_toBuffer (rs_wallet rw) = Ok bytes) /\ rs_secret rw <> [].
Proof.
  induction recipients as [|r rs IH]; intros g rw Hv Hin; cbn [assignSecrets] in Hin.
  - destruct Hin.
  - destruct (Hv r (or_introl eq_refl)) as [Hw Hs].
    assert (H0 : fst (match secret r with
                      | Some s => (s, g)
                      | None => generateSecret g
                      end) <> []).
    { destruct (secret r) as [s|]; [|apply generateSecret_nonempty].
      cbn [fst]. intros ->. apply Hs. reflexivity. }
    destruct (match secret r with Some s => (s, g) | None => generateSecret g end)
      as [s0 g1].
    specialize (IH g1 rw (fun r' Hr' => Hv r' (or_intror Hr'))).
    destruct (assignSecrets rs g1) as [rest g2]. cbn [fst] in *.
    destruct Hin as [<-|Hin]; [|auto].
    cbn [rs_wallet rs_secret]. auto.
Qed.

(** Every multiple of 256 goes through. *)
Lemma delegated_multiple (recipients : list Recipient) (g : entropy) (l : log) :
  (forall r, In r recipients ->
             (exists bytes, PublicKey_toBuffer (wallet r) = Ok bytes) /\
             secret r <> Some []) ->
  (256 <= length recipients)%nat ->
  (length recipients mod 256 = 0)%nat ->
  exists t l', fst (buildMerkleTree service recipients g) l = (Ok t, l').
Proof.
  intros Hv Hn Hm. unfold buildMerkleTree.
  pose proof (DelegatedMore.assigned_length recipients g) as Hlen.
  pose proof (fun rw => assignSecrets_valid recipients g rw Hv) as Hrw.
  destruct (assignSecrets recipients g) as [rws g']. cbn [fst] in *.
  unfold buildFrom.
  set (leafPromise := fun r0 : RecipientWithSecret =>
         await (computeLeafHash service (rs_wallet r0) (rs_amount r0) (rs_secret r0))
               (fun leafBytes => ret (BigInt_0x (Buffer_toString_hex leafBytes)))).
  destruct (start_all_answers (map leafPromise rws)) with (l := l)
    as (leavesBn & E & Hbn).
  { intros m Hm' l0. apply in_map_iff in Hm'. destruct Hm' as (rw & <- & Hin).
    destruct (Hrw rw Hin) as [Hw Hs].
    destruct (computeLeafHash_answers _ (rs_amount rw) _ l0 Hw Hs)
      as (leaf & l1 & Hleaf & Hne).
    unfold leafPromise, await. rewrite Hleaf. unfold ret.
    rewrite (BigIntFacts.BigInt_of_bytes leaf Hne). eauto. }
  rewrite length_map in Hbn.
  unfold await at 1. rewrite DelegatedMore.Promise_all_run, E. cbv zeta.
  change (Nat.shiftl 1 TREE_DEPTH) with 256%nat.
  assert (Epad : pad leavesBn 256 = leavesBn).
  { unfold pad. replace (256 - length leavesBn)%nat with 0%nat by lia. apply app_nil_r. }
  rewrite Epad.
  destruct (buildLevels_answers TREE_DEPTH leavesBn (length recipients / 256)
              (snd (start_all (map leafPromise rws) l))) as (top & l2 & B).
  { change (2 ^ TREE_DEPTH)%nat with 256%nat.
    pose proof (Nat.div_mod_eq (length recipients) 256). lia. }
  destruct (DelegatedMore.buildLevels_counts _ _ _ _ _ _ B) as [H3 _].
  change (2 ^ TREE_DEPTH)%nat with 256%nat in H3.
  unfold await. rewrite B.
  destruct top as [|rootBn top]; [cbn [length] in H3; lia|].
  cbn [get Z.ltb Z.compare Z.to_nat nth_error]. unfold ret. eauto.
Qed.

End WithBackend.

(** The delegated build, 256 recipients or more. *)
Lemma delegated_capacity
    (service : backend) (recipients : list Recipient) (g : entropy) (l : log) :
  (256 <= length recipients)%nat ->
  (forall t l',
      fst (buildMerkleTree service recipients g) l = (Ok t, l') ->
      (length recipients mod 256 = 0)%nat /\
      length (leaves t) = length recipients /\
      length l' = (length l + length recipients + 255 * (length recipients / 256))%nat) /\
  ((length recipients mod 256 <> 0)%nat ->
   exists e, fst (fst (buildMerkleTree service recipients g) l) = Throw e) /\
  ((forall (k : nat) (inputs : list string),
       exists v, hash_of_response (service k inputs) = Ok v) ->
   (forall r, In r recipients ->
              (exists bytes, PublicKey_toBuffer (wallet r) = Ok bytes) /\
              secret r <> Some []) ->
   (length recipients mod 256 = 0)%nat ->
   exists t l', fst (buildMerkleTree service recipients g) l = (Ok t, l')).
Proof.
  intros Hn. split; [|split].
  - intros t l' H. exact (returned_multiple service recipients g l l' t Hn H).
  - intros Hm.
    destruct (fst (buildMerkleTree service recipients g) l) as [[t|e] l'] eqn:E;
      cbn [fst]; [|eauto].
    destruct (returned_multiple service recipients g l l' t Hn E) as [H _].
    contradiction.
  - intros Ha Hv Hm. exact (delegated_multiple service Ha recipients g l Hv Hn Hm).
Qed.

(** C3 (amended): neither build checks a capacity.  With 256 recipients
    or more, the local build (amounts payable) succeeds exactly when the
    count is a multiple of 256; then all the computed leaves are returned
    and none is added, the tree has 9 levels, and the root is the root of
    the first 256 leaves alone; for any other count it ends in the
    [TypeError] of hashing an entry that does not exist.  With 256
    recipients or more, a delegated build that returns a tree had a
    multiple of 256 recipients and returns one leaf for each and none
    more, after [n + 255 * (n / 256)] requests; for any other count it
    ends in an exception; and when the backend answers every request with
    a hash, the wallets are addresses and no secret given is empty, it
    returns a tree for every multiple of 256. *)
Theorem capacity_boundary :
  (forall (rs : list Local.Recipient) (g : entropy),
      (256 <= length rs)%nat ->
      forallb Local.payable (map Local.amount rs) = true ->
      ((length rs mod 256 = 0)%nat ->
       exists t tr top,
         fst (Local.buildMerkleTree rs g) = Ok t /\
         mapM (fun r => Local.computeLeafHash (Local.rs_wallet r) (Local.rs_amount r)
                                              (Local.rs_secret r))
              (fst (Local.assignSecrets rs g)) = Ok (Local.leaves t) /\
         length (Local.leaves t) = length rs /\
         length (Local.tree t) = 9%nat /\
         Local.buildLevels Local.TREE_DEPTH [firstn 256 (Local.leaves t)]
                           (firstn 256 (Local.leaves t)) = Ok (tr, top) /\
         Local.root t = get top 0) /\
      ((length rs mod 256 <> 0)%nat ->
       fst (Local.buildMerkleTree rs g) = Throw TypeError)) /\
  (forall (service : backend) (recipients : list Recipient) (g : entropy) (l : log),
      (256 <= length recipients)%nat ->
      (forall t l',
          fst (buildMerkleTree service recipients g) l = (Ok t, l') ->
          (length recipients mod 256 = 0)%nat /\
          length (leaves t) = length recipients /\
          length l'
          = (length l + length recipients + 255 * (length recipients / 256))%nat) /\
      ((length recipients mod 256 <> 0)%nat ->
       exists e, fst (fst (buildMerkleTree service recipients g) l) = Throw e) /\
      ((forall (k : nat) (inputs : list string),
           exists v, hash_of_response (service k inputs) = Ok v) ->
       (forall r, In r recipients ->
                  (exists bytes, PublicKey_toBuffer (wallet r) = Ok bytes) /\
                  secret r <> Some []) ->
       (length recipients mod 256 = 0)%nat ->
       exists t l', fst (buildMerkleTree service recipients g) l = (Ok t, l'))).
Proof.
  split.
  - intros rs g Hn Hp. split.
    + apply LocalFacts.build_multiple; assumption.
    + apply LocalFacts.build_not_multiple; assumption.
  - intros service recipients g l. apply delegated_capacity.
Qed.

End CapacityFacts.

(** ** Builds on a store *)

Module StoreFacts.
Import Store.

Section Objects.

Variable A : Type.
Variable generateSecret : entropy -> Uint8Array * entropy.
Variable secretOf : Uint8Array -> Uint8Array.

(** [generateSecret] draws 32 bytes. *)
Hypothesis generateSecret_draws :
  forall g : entropy,
    generateSecret g = (secretOf (map g (seq 0 32)), fun k => g (k + 32)%nat).

Abbreviation store := (store A).
Abbreviation object := (object A).

Lemma reaches_below (h h' : store) (l l' : loc) :
  closed h ->
  (forall k o, nth_error h k = Some o -> nth_error h' k = Some o) ->
  (l < length h)%nat -> reaches h' l l' -> (l' < length h)%nat.
Proof.
  intros Hc Hext Hl Hr. induction Hr as [l | l m l' o Ho Hm Hr IH]; [assumption|].
  apply IH. destruct (nth_error h l) as [o0|] eqn:E.
  - pose proof (Hext _ _ E) as E'. rewrite Ho in E'. inversion E'; subst.
    eapply Hc; eauto.
  - apply nth_error_None in E. lia.
Qed.

Lemma reaches_above (n : nat) (h' : store) (l l' : loc) :
  above n h' -> (n <= l)%nat -> reaches h' l l' -> (n <= l')%nat.
Proof.
  intros Ha Hl Hr. induction Hr as [l | l m l' o Ho Hm Hr IH]; [assumption|].
  apply IH. eapply Ha; eauto.
Qed.

Lemma above_app (h1 added : store) :
  Forall (fun o => forall m, In m (refs o) -> (length h1 <= m)%nat) added ->
  above (length h1) (h1 ++ added).
Proof.
  intros Hall l m o Hl Ho Hm.
  rewrite nth_error_app2 in Ho by assumption.
  apply nth_error_In in Ho. rewrite Forall_forall in Hall. eapply Hall; eauto.
Qed.

(** *** Allocation *)

Lemma alloc_all_spec (xs : list Uint8Array) :
  forall h : store,
    alloc_all h xs = (seq (length h) (length xs), h ++ map Bytes xs).
Proof.
  induction xs as [|x xs IH]; intros h; cbn [alloc_all alloc].
  - now rewrite app_nil_r.
  - rewrite IH. rewrite length_app. cbn [length map seq].
    rewrite Nat.add_1_r, <- app_assoc. reflexivity.
Qed.

Lemma alloc_levels_spec (levels : list (list Uint8Array)) :
  forall (h : store) (n : nat),
    (n <= length h)%nat ->
    exists added,
      snd (alloc_levels h levels) = h ++ added /\
      Forall (fun o => forall m, In m (refs o) -> (n <= m)%nat) added /\
      Forall (fun p => (n <= fst p)%nat /\ Forall (fun e => (n <= e)%nat) (snd p))
             (fst (alloc_levels h levels)) /\
      length (fst (alloc_levels h levels)) = length levels.
Proof.
  induction levels as [|level more IH]; intros h n Hn; cbn [alloc_levels].
  - exists []. cbn. rewrite app_nil_r. repeat split; constructor.
  - rewrite alloc_all_spec. cbn [alloc].
    set (es := seq (length h) (length level)).
    set (h2 := (h ++ map Bytes level) ++ [Arr es]).
    assert (Hes : Forall (fun e => (n <= e)%nat) es).
    { apply Forall_forall. intros e He. apply in_seq in He. lia. }
    destruct (IH h2 n) as (added & E & Hadd & Hlv & Hlen).
    { unfold h2. rewrite !length_app. lia. }
    destruct (alloc_levels h2 more) as [rest h3]. cbn [fst snd] in *.
    exists (map Bytes level ++ [Arr es] ++ added). repeat split.
    + rewrite E. unfold h2. now rewrite <- !app_assoc.
    + apply Forall_app. split.
      * apply Forall_forall. intros o Ho. apply in_map_iff in Ho.
        destruct Ho as (x & <- & _). intros m [].
      * constructor; [|assumption]. intros m Hm. cbn [refs] in Hm.
        rewrite Forall_forall in Hes. auto.
    + constructor; [|assumption]. cbn [fst snd]. split; [|assumption].
      rewrite length_app, length_map. lia.
    + cbn [length]. congruence.
Qed.

(** *** Secrets *)

Lemma withSecret_spec (r r' : loc) (h h1 : store) (g g1 : entropy) :
  withSecret generateSecret r h g = (Ok r', h1, g1) ->
  exists w a sopt,
    nth_error h r = Some (Rec w a sopt) /\
    match sopt with
    | Some l =>
        h1 = h ++ [Rec w a (Some l)] /\ r' = length h /\ g1 = g
    | None =>
        h1 = h ++ [Bytes (fst (generateSecret g)); Rec w a (Some (length h))] /\
        r' = S (length h) /\ g1 = snd (generateSecret g)
    end.
Proof.
  unfold withSecret. destruct (nth_error h r) as [[bytes|w a sopt|es]|]; try discriminate.
  intros H. exists w, a, sopt. split; [reflexivity|].
  destruct sopt as [l|].
  - cbn [alloc] in H. inversion H; subst. auto.
  - destruct (generateSecret g) as [bytes g2]. cbn [alloc fst snd] in *.
    inversion H; subst. rewrite length_app, Nat.add_1_r, <- app_assoc.
    auto.
Qed.

Lemma closed_app (h : store) (added : store) :
  closed h ->
  Forall (fun o => forall m, In m (refs o) -> (m < length h + length added)%nat) added ->
  closed (h ++ added).
Proof.
  intros Hc Hall l m o Ho Hm. rewrite length_app.
  destruct (Nat.lt_ge_cases l (length h)) as [Hl|Hl].
  - rewrite nth_error_app1 in Ho by assumption.
    pose proof (Hc _ _ _ Ho Hm). lia.
  - rewrite nth_error_app2 in Ho by assumption.
    apply nth_error_In in Ho. rewrite Forall_forall in Hall. eauto.
Qed.

Lemma withSecret_closed (r r' : loc) (h h1 : store) (g g1 : entropy) :
  closed h ->
  withSecret generateSecret r h g = (Ok r', h1, g1) ->
  closed h1 /\ exists added, h1 = h ++ added.
Proof.
  intros Hc H. destruct (withSecret_spec _ _ _ _ _ _ H) as (w & a & sopt & Hr & Hs).
  destruct sopt as [l|].
  - destruct Hs as (-> & _ & _). split; [|eauto].
    apply closed_app; [assumption|]. constructor; [|constructor].
    intros m Hm. cbn [refs In] in Hm. destruct Hm as [<-|[]].
    pose proof (Hc r l _ Hr ltac:(cbn; auto)). lia.
  - destruct Hs as (-> & _ & _). split; [|eauto].
    apply closed_app; [assumption|].
    constructor; [intros m []|]. constructor; [|constructor].
    intros m Hm. cbn [refs In] in Hm. destruct Hm as [<-|[]]. cbn [length]. lia.
Qed.

(** *** The blocks drawn *)

Lemma lacks_app (h added : store) (r : loc) :
  (r < length h)%nat -> lacks (h ++ added) r = lacks h r.
Proof.
  intros H. unfold lacks. rewrite nth_error_app1 by assumption. reflexivity.
Qed.

Lemma missing_app (h added : store) (rs : list loc) :
  Forall (fun r => (r < length h)%nat) rs -> missing (h ++ added) rs = missing h rs.
Proof.
  unfold missing. induction 1 as [|r rs Hr _ IH]; [reflexivity|].
  cbn [filter]. rewrite lacks_app by assumption.
  destruct (lacks h r); cbn [length]; rewrite IH; reflexivity.
Qed.

Lemma firstn_Forall {X : Type} (P : X -> Prop) (l : list X) (i : nat) :
  Forall P l -> Forall P (firstn i l).
Proof.
  intros H. revert i. induction H as [|x l Hx _ IH]; intros [|i]; cbn [firstn];
    constructor; auto.
Qed.

Lemma draw_shift (g g2 : entropy) (m j : nat) :
  (forall k, g2 k = g (k + 32 * m)%nat) -> draw g2 j = draw g (m + j).
Proof.
  intros H. unfold draw. apply map_ext. intros k. rewrite H. f_equal. lia.
Qed.

(** What [assignSecrets] leaves in the store. *)
Lemma assignSecrets_spec (rs : list loc) :
  forall (h h1 : store) (g g1 : entropy) (rws : list loc),
    closed h ->
    Forall (fun r => (r < length h)%nat) rs ->
    assignSecrets generateSecret rs h g = (Ok rws, h1, g1) ->
    closed h1 /\
    (exists added, h1 = h ++ added) /\
    (forall k : nat, g1 k = g (k + 32 * missing h rs)%nat) /\
    (forall (i : nat) (r : loc) (w : string) (a : A),
        nth_error rs i = Some r ->
        nth_error h r = Some (Rec w a None) ->
        exists r' s : loc,
          nth_error rws i = Some r' /\
          nth_error h1 r' = Some (Rec w a (Some s)) /\
          (length h <= s < length h1)%nat /\
          nth_error h1 s
          = Some (Bytes (secretOf (draw g (missing h (firstn i rs)))))).
Proof.
  induction rs as [|r0 rs IH]; intros h h1 g g1 rws Hc Hin H; cbn [assignSecrets] in H.
  - inversion H; subst. split; [assumption|]. split; [exists []; now rewrite app_nil_r|].
    split.
    + intros k. unfold missing. cbn [filter length]. f_equal. lia.
    + intros i r w a Hi. destruct i; discriminate.
  - destruct (withSecret generateSecret r0 h g) as [[[r0'|e] h2] g2] eqn:E0;
      [|discriminate].
    destruct (assignSecrets generateSecret rs h2 g2) as [[[rest|e] h3] g3] eqn:E1;
      [|discriminate].
    inversion H; subst; clear H.
    inversion Hin as [|? ? Hr0 Hrs]; subst.
    destruct (withSecret_closed _ _ _ _ _ _ Hc E0) as [Hc2 [added2 ->]].
    assert (Hrs2 : Forall (fun r => (r < length (h ++ added2))%nat) rs).
    { eapply Forall_impl; [|exact Hrs]. intros r Hr. cbn beta in *.
      rewrite length_app. lia. }
    destruct (IH _ _ _ _ _ Hc2 Hrs2 E1) as (Hc1 & [added1 ->] & Hg & Hrest).
    destruct (withSecret_spec _ _ _ _ _ _ E0) as (w0 & a0 & sopt & Hr0' & Hs).
    set (m0 := if lacks h r0 then 1%nat else 0%nat).
    assert (Hg2 : forall k, g2 k = g (k + 32 * m0)%nat).
    { unfold m0, lacks. rewrite Hr0'. destruct sopt as [l|].
      - destruct Hs as (_ & _ & ->). intros k. f_equal; lia.
      - destruct Hs as (_ & _ & ->). rewrite generateSecret_draws. cbn [snd].
        intros k. f_equal; lia. }
    assert (Hm : forall l, missing h (r0 :: l) = (m0 + missing h l)%nat).
    { intros l. unfold missing, m0. cbn [filter]. destruct (lacks h r0); reflexivity. }
    split; [assumption|]. split; [exists (added2 ++ added1); now rewrite app_assoc|].
    split.
    + intros k. rewrite Hg, Hg2, Hm, (missing_app h added2 rs Hrs). f_equal. lia.
    + intros i r w a Hi Hr. destruct i as [|i].
      * cbn [nth_error] in Hi. inversion Hi; subst r0.
        rewrite Hr in Hr0'. inversion Hr0'; subst w0 a0 sopt.
        destruct Hs as (Eh & -> & _).
        apply app_inv_head in Eh. subst added2.
        exists (S (length h)), (length h).
        rewrite <- app_assoc. split; [reflexivity|]. repeat split.
        -- rewrite nth_error_app2 by lia.
           replace (S (length h) - length h)%nat with 1%nat by lia. reflexivity.
        -- lia.
        -- rewrite !length_app. cbn [length]. lia.
        -- rewrite nth_error_app2 by lia. rewrite Nat.sub_diag.
           cbn [app nth_error firstn]. rewrite generateSecret_draws. cbn [fst].
           do 3 f_equal.
      * cbn [nth_error] in Hi.
        destruct (Hrest i r w a Hi) as (r' & s & H1 & H2 & H3 & H4).
        { rewrite nth_error_app1; [exact Hr|].
          apply nth_error_Some. congruence. }
        exists r', s. cbn [nth_error]. repeat split; auto.
        -- rewrite length_app in H3. lia.
        -- lia.
        -- rewrite H4. do 3 f_equal. cbn [firstn]. rewrite Hm.
           rewrite missing_app by (apply firstn_Forall; exact Hrs).
           apply draw_shift. exact Hg2.
Qed.

(** The pieces put together: a store [h1] got from [h] by assigning
    secrets, then extended by objects that refer to new objects only. *)
Lemma discarded_intro (h h1 added : store) (g g1 : entropy)
    (rs rws outs : list loc) :
  closed h ->
  Forall (fun r => (r < length h)%nat) rs ->
  assignSecrets generateSecret rs h g = (Ok rws, h1, g1) ->
  Forall (fun o => forall m, In m (refs o) -> (length h1 <= m)%nat) added ->
  Forall (fun l => (length h1 <= l)%nat) outs ->
  discarded secretOf g g1 h (h1 ++ added) rs rws outs.
Proof.
  intros Hc Hin Has Hadd Houts.
  destruct (assignSecrets_spec _ _ _ _ _ _ Hc Hin Has)
    as (Hc1 & [added1 ->] & Hg & Hsec).
  assert (Hext : forall k o, nth_error h k = Some o ->
                             nth_error ((h ++ added1) ++ added) k = Some o).
  { intros k o Hk. assert (k < length h)%nat by (apply nth_error_Some; congruence).
    rewrite <- app_assoc, nth_error_app1 by assumption. exact Hk. }
  split; [exact Hext|]. split; [|exact Hg].
  intros i r w a Hi Hr.
  destruct (Hsec i r w a Hi Hr) as (r' & s & H1 & H2 & H3 & H4).
  exists r', s.
  assert (Hkeep : forall k o, nth_error (h ++ added1) k = Some o ->
                              nth_error ((h ++ added1) ++ added) k = Some o).
  { intros k o Hk. assert (k < length (h ++ added1))%nat by (apply nth_error_Some; congruence).
    rewrite nth_error_app1 by assumption. exact Hk. }
  split; [exact H1|]. split; [exact (Hkeep _ _ H2)|]. split; [lia|].
  split; [exact (Hkeep _ _ H4)|].
  intros l [Hl|Hl] Hreach.
  - pose proof (reaches_below _ _ _ _ Hc Hext Hl Hreach). lia.
  - rewrite Forall_forall in Houts. pose proof (Houts _ Hl) as Hge.
    pose proof (reaches_above _ _ _ _ (above_app _ _ Hadd) Hge Hreach). lia.
Qed.

(** The entries of an array of a closed store are in the store. *)
Lemma entries_in_store (h : store) (l : loc) (rs : list loc) :
  closed h -> nth_error h l = Some (Arr rs) ->
  Forall (fun r => (r < length h)%nat) rs.
Proof.
  intros Hc Hl. apply Forall_forall. intros r Hr. exact (Hc l r (Arr rs) Hl Hr).
Qed.

End Objects.

End StoreFacts.

(** ** Secrets are not handed back *)

Module DiscardFacts.
Import Store.

Lemma hd_in {X : Type} (d : X) (l : list X) : l <> [] -> In (hd d l) l.
Proof. destruct l; [congruence|]. intros _. left. reflexivity. Qed.

Lemma last_in {X : Type} (d : X) (l : list X) : l <> [] -> In (last l d) l.
Proof.
  induction l as [|x l IH]; [congruence|]. intros _.
  destruct l as [|y l]; [left; reflexivity|].
  right. apply IH. discriminate.
Qed.

Lemma buildFrom_tree (rws : list Local.RecipientWithSecret) (t : Local.MerkleTree) :
  Local.buildFrom rws = Ok t -> Local.tree t <> [].
Proof.
  unfold Local.buildFrom.
  destruct (mapM _ rws) as [computed|e]; cbn [bind]; [|discriminate].
  destruct (Local.buildLevels _ _ _) as [[t' top]|e] eqn:B; cbn [bind]; [|discriminate].
  intros H. inversion H; subst; clear H. cbn [Local.tree].
  destruct (LocalFacts.buildLevels_spec _ _ _ _ _ B) as (ls & -> & _). discriminate.
Qed.

Lemma local_draws (g : entropy) :
  Local.generateSecret g = (map g (seq 0 32), fun k => g (k + 32)%nat).
Proof. reflexivity. Qed.

Lemma delegated_draws (g : entropy) :
  Delegated.generateSecret g
  = ((fun bytes => firstn 31 bytes
                   ++ [byte_of_Z (Z.land (Z_of_byte (nth 31 bytes x00)) 0x1f)])
       (map g (seq 0 32)),
     fun k => g (k + 32)%nat).
Proof. reflexivity. Qed.

Lemma local_discarded
    (recipients : loc) (h h' : store number) (g g' : entropy)
    (t : LocalStore.MerkleTree) :
  closed h ->
  LocalStore.buildMerkleTree recipients h g = (Ok t, h', g') ->
  exists rs rws,
    nth_error h recipients = Some (Arr rs) /\
    discarded (fun bytes => bytes) g g' h h' rs rws (LocalStore.outs t).
Proof.
  intros Hc H. unfold LocalStore.buildMerkleTree in H.
  destruct (nth_error h recipients) as [[bytes|w a sopt|rs]|] eqn:Er; try discriminate.
  pose proof (StoreFacts.entries_in_store _ _ _ _ Hc Er) as Hin.
  destruct (assignSecrets Local.generateSecret rs h g) as [[[rws|e] h1] g1] eqn:Has;
    [|discriminate].
  destruct (read_all (read_rec h1) rws) as [values|]; [|discriminate].
  destruct (Local.buildFrom _) as [t0|e] eqn:Hb; [|discriminate].
  pose proof (buildFrom_tree _ _ Hb) as Hne.
  destruct (StoreFacts.alloc_levels_spec number (Local.tree t0) h1 (length h1) (le_n _))
    as (added & Eh & Hadd & Hlv & Hlen).
  destruct (alloc_levels h1 (Local.tree t0)) as [levels h2]. cbn [fst snd alloc] in *.
  inversion H; subst; clear H.
  exists rs, rws. split; [reflexivity|].
  rewrite <- app_assoc.
  assert (Hlevels : levels <> []) by (intros ->; destruct (Local.tree t0); [congruence|discriminate]).
  pose proof (proj1 (Forall_forall _ _) Hlv) as Hin'. clear Hlv. rename Hin' into Hlv.
  eapply (StoreFacts.discarded_intro number Local.generateSecret (fun bytes => bytes)
            local_draws); eauto.
  - apply Forall_app. split; [assumption|]. constructor; [|constructor].
    intros m Hm. cbn [refs] in Hm. apply in_map_iff in Hm.
    destruct Hm as (p & <- & Hp). apply (Hlv p Hp).
  - assert (Hleaves : (length h1 <= fst (hd (0%nat, []) levels))%nat)
      by (apply (Hlv _ (hd_in _ _ Hlevels))).
    assert (Htree : (length h1 <= length (h1 ++ added))%nat)
      by (rewrite length_app; lia).
    unfold LocalStore.outs. cbn [LocalStore.root LocalStore.leaves LocalStore.tree].
    destruct (get (snd (last levels (0%nat, []))) 0) as [l|] eqn:Eroot.
    + constructor; [|repeat constructor; assumption].
      destruct (Hlv _ (last_in (0%nat, []) _ Hlevels)) as [_ Hes].
      pose proof (proj1 (Forall_forall _ _) Hes) as Hin'. apply Hin'.
      eapply get_In. exact Eroot.
    + repeat constructor; assumption.
Qed.

Lemma delegated_discarded
    (service : backend) (recipients : loc) (h h' : store Z) (g g' : entropy)
    (l l' : log) (t : DelegatedStore.MerkleTree) :
  closed h ->
  DelegatedStore.buildMerkleTree service recipients h g l = (Ok t, h', g', l') ->
  exists rs rws,
    nth_error h recipients = Some (Arr rs) /\
    discarded (fun bytes => firstn 31 bytes
                      ++ [byte_of_Z (Z.land (Z_of_byte (nth 31 bytes x00)) 0x1f)])
          g g' h h' rs rws (DelegatedStore.outs t).
Proof.
  intros Hc H. unfold DelegatedStore.buildMerkleTree in H.
  destruct (nth_error h recipients) as [[bytes|w a sopt|rs]|] eqn:Er; try discriminate.
  pose proof (StoreFacts.entries_in_store _ _ _ _ Hc Er) as Hin.
  destruct (assignSecrets Delegated.generateSecret rs h g) as [[[rws|e] h1] g1] eqn:Has;
    [|discriminate].
  destruct (read_all (read_rec h1) rws) as [values|]; [|discriminate].
  destruct (Delegated.buildFrom _ _ _) as [[t0|e] l0]; [|discriminate].
  cbn [alloc] in H. rewrite StoreFacts.alloc_all_spec in H.
  inversion H; subst; clear H.
  exists rs, rws. split; [reflexivity|].
  rewrite <- !app_assoc.
  eapply (StoreFacts.discarded_intro Z Delegated.generateSecret _ delegated_draws); eauto.
  - constructor; [intros m []|]. apply Forall_app. split.
    + apply Forall_forall. intros o Ho. apply in_map_iff in Ho.
      destruct Ho as (x & <- & _). intros m [].
    + constructor; [|constructor]. intros m Hm. cbn [refs] in Hm.
      apply in_seq in Hm. rewrite length_app in Hm. lia.
  - unfold DelegatedStore.outs. cbn [DelegatedStore.root DelegatedStore.leaves].
    repeat constructor. rewrite !length_app. lia.
Qed.

(** C9 (amended): both builds, run on a store the caller holds, read the
    array of recipients and the recipients only: every object of the
    caller is afterwards as it was.  Each recipient without a secret gets
    as its secret the next 32 bytes of the source of randomness (in the
    delegated module with the last of them taken modulo 32): a block of
    its own, used up by the build.  The secret is put into a new object, and
    no reference leads to that object from any object the caller had nor
    from the object returned ([root], [leaves], [tree], respectively
    [root], [leaves]).  Nothing is stated about the bytes that the
    returned arrays hold: they can be those of a secret. *)
Theorem secrets_discarded :
  (forall (recipients : loc) (h h' : store number) (g g' : entropy)
          (t : LocalStore.MerkleTree),
      closed h ->
      LocalStore.buildMerkleTree recipients h g = (Ok t, h', g') ->
      exists rs rws,
        nth_error h recipients = Some (Arr rs) /\
        discarded (fun bytes => bytes) g g' h h' rs rws (LocalStore.outs t)) /\
  (forall (service : backend) (recipients : loc) (h h' : store Z) (g g' : entropy)
          (l l' : log) (t : DelegatedStore.MerkleTree),
      closed h ->
      DelegatedStore.buildMerkleTree service recipients h g l = (Ok t, h', g', l') ->
      exists rs rws,
        nth_error h recipients = Some (Arr rs) /\
        discarded (fun bytes => firstn 31 bytes
                      ++ [byte_of_Z (Z.land (Z_of_byte (nth 31 bytes x00)) 0x1f)])
          g g' h h' rs rws (DelegatedStore.outs t)).
Proof.
  split.
  - apply local_discarded.
  - apply delegated_discarded.
Qed.

End DiscardFacts.

(** ** The delegated build and the store on sample inputs *)

Module DelegatedExamples.
Import Samples.


Lemma held_closed : Store.closed held.
Proof.
  intros l m o Ho Hm.
  destruct l as [|[|[|[|l]]]]; cbn in Ho; inversion Ho; subst; cbn in Hm;
    try contradiction.
  - destruct Hm as [<-|[]]. cbn. lia.
  - destruct Hm as [<-|[<-|[]]]; cbn; lia.
  - destruct l; discriminate.
Defined.

Lemma held_paid_closed : Store.closed held_paid.
Proof.
  intros l m o Ho Hm.
  destruct l as [|[|[|[|l]]]]; cbn in Ho; inversion Ho; subst; cbn in Hm;
    try contradiction.
  - destruct Hm as [<-|[]]. cbn. lia.
  - destruct Hm as [<-|[<-|[]]]; cbn; lia.
  - destruct l; discriminate.
Defined.

Lemma secrets_discarded_witness :
  (Store.closed held /\
   fst (fst (LocalStore.buildMerkleTree 3%nat held sample_entropy)) = Ok held_tree /\
   exists rs rws,
     nth_error held 3%nat = Some (Store.Arr rs) /\
     Store.discarded (fun bytes => bytes) sample_entropy
       (snd (LocalStore.buildMerkleTree 3%nat held sample_entropy))
       held (snd (fst (LocalStore.buildMerkleTree 3%nat held sample_entropy)))
       rs rws (LocalStore.outs held_tree)) /\
  (Store.closed held_paid /\
   fst (fst (fst (DelegatedStore.buildMerkleTree steady 3%nat held_paid sample_entropy [])))
   = Ok held_paid_tree /\
   exists rs rws,
     nth_error held_paid 3%nat = Some (Store.Arr rs) /\
     Store.discarded
       (fun bytes => firstn 31 bytes
                     ++ [byte_of_Z (Z.land (Z_of_byte (nth 31 bytes x00)) 0x1f)])
       sample_entropy
       (snd (fst (DelegatedStore.buildMerkleTree steady 3%nat held_paid sample_entropy [])))
       held_paid
       (snd (fst (fst (DelegatedStore.buildMerkleTree steady 3%nat held_paid
                         sample_entropy []))))
       rs rws (DelegatedStore.outs held_paid_tree)).
Proof.
  assert (E : fst (fst (LocalStore.buildMerkleTree 3%nat held sample_entropy)) = Ok held_tree)
    by (vm_cast_no_check (@eq_refl _ (@Ok LocalStore.MerkleTree held_tree))).
  assert (D : fst (fst (fst (DelegatedStore.buildMerkleTree steady 3%nat held_paid
                               sample_entropy [])))
              = Ok held_paid_tree)
    by (vm_cast_no_check (@eq_refl _ (@Ok DelegatedStore.MerkleTree held_paid_tree))).
  destruct DiscardFacts.secrets_discarded as [HL HD].
  split.
  - split; [exact held_closed|]. split; [exact E|].
    refine (HL 3%nat held _ sample_entropy
              (snd (LocalStore.buildMerkleTree 3%nat held sample_entropy))
              held_tree held_closed _).
    destruct (LocalStore.buildMerkleTree 3%nat held sample_entropy) as [[r h'] g'].
    cbn [fst snd] in *. rewrite E. reflexivity.
  - split; [exact held_paid_closed|]. split; [exact D|].
    refine (HD steady 3%nat held_paid _ sample_entropy
              (snd (fst (DelegatedStore.buildMerkleTree steady 3%nat held_paid
                           sample_entropy [])))
              []
              (snd (DelegatedStore.buildMerkleTree steady 3%nat held_paid sample_entropy []))
              held_paid_tree held_paid_closed _).
    destruct (DelegatedStore.buildMerkleTree steady 3%nat held_paid sample_entropy [])
      as [[[r h'] g'] l'].
    cbn [fst snd] in *. rewrite D. reflexivity.
Defined.

(** C9, as stated, fails: the value returned can contain a generated
    secret.  The leaves that the delegated build returns are what the
    backend answers, and with a backend that answers with the last input
    of the request the first leaf returned is the secret generated for the
    first recipient.  The local build fills the leaves up with arrays of
    32 zero bytes, which is also the secret generated from random bytes
    that are all zero. *)
Lemma secret_handed_back :
  (Delegated.secret paidA = None /\
   fst (Delegated.buildMerkleTree echo [paidA] sample_entropy) [] = (Ok echo_tree, echo_log) /\
   nth_error (Delegated.leaves echo_tree) 0
   = Some (fst (Delegated.generateSecret sample_entropy))) /\
  (Local.secret recipientA = None /\
   fst (Local.buildMerkleTree [recipientA] zero_entropy) = Ok zero_tree /\
   nth_error (Local.leaves zero_tree) 1
   = Some (fst (Local.generateSecret zero_entropy))).
Proof.
  split.
  - split; [reflexivity|]. split.
    + vm_cast_no_check (@eq_refl _ (@Ok Delegated.MerkleTree echo_tree, echo_log)).
    + vm_compute. reflexivity.
  - split; [reflexivity|]. split.
    + vm_cast_no_check (@eq_refl _ (@Ok Local.MerkleTree zero_tree)).
    + vm_compute. reflexivity.
Qed.

End DelegatedExamples.

(** ** The local tree on sample inputs *)

Module LocalExamples.
Import Local Samples.

Lemma two_built : fst (buildMerkleTree two sample_entropy) = Ok two_tree.
Proof. vm_cast_no_check (@eq_refl _ (Ok two_tree)). Defined.

Lemma tree_invariant_witness :
  (length two <= 256)%nat /\
  fst (buildMerkleTree two sample_entropy) = Ok two_tree /\
  length (tree two_tree) = 9%nat.
Proof.
  assert (H1 : (length two <= 256)%nat) by (apply Nat.leb_le; reflexivity).
  split; [exact H1|]. split; [exact two_built|].
  exact (proj1 (LocalFacts.tree_invariant two sample_entropy two_tree H1 two_built)).
Defined.

Lemma proof_round_trip_witness :
  (length two <= 256)%nat /\
  fst (buildMerkleTree two sample_entropy) = Ok two_tree /\
  0 <= 1 < 256 /\
  exists p,
    getMerkleProof (tree two_tree) 1 = Ok p /\
    verifyMerkleProof (root two_tree) (leaf p) 1 (siblings p) = Ok true.
Proof.
  assert (H1 : (length two <= 256)%nat) by (apply Nat.leb_le; reflexivity).
  assert (H2 : 0 <= 1 < 256) by (split; [discriminate | reflexivity]).
  split; [exact H1|]. split; [exact two_built|]. split; [exact H2|].
  exact (LocalFacts.proof_round_trip two sample_entropy two_tree 1 H1 two_built H2).
Defined.

Lemma calm_answers (k : nat) (inputs : list string) :
  exists v, hash_of_response (calm k inputs) = Ok v.
Proof. exists 31. reflexivity. Defined.

Lemma paid_valid (n : nat) (r : Delegated.Recipient) :
  In r (repeat paidB n) ->
  (exists bytes, PublicKey_toBuffer (Delegated.wallet r) = Ok bytes) /\
  Delegated.secret r <> Some [].
Proof.
  intros H. apply repeat_spec in H. subst r. split.
  - eexists. vm_compute. reflexivity.
  - discriminate.
Defined.

(** C3, as stated, fails: 512 recipients are more than the capacity, and
    both builds return a tree instead of raising an error. *)
Lemma capacity_not_checked :
  (256 < length crowd)%nat /\
  (exists t, fst (buildMerkleTree crowd sample_entropy) = Ok t /\
             length (leaves t) = 512%nat) /\
  (256 < length paid_crowd)%nat /\
  (exists t l',
      fst (Delegated.buildMerkleTree calm paid_crowd sample_entropy) [] = (Ok t, l') /\
      length (Delegated.leaves t) = 512%nat).
Proof.
  split; [apply Nat.ltb_lt; reflexivity|]. split.
  - destruct (LocalFacts.build_multiple crowd sample_entropy)
      as (t & _ & _ & Hb & _ & Hl & _).
    + apply Nat.leb_le. reflexivity.
    + vm_compute. reflexivity.
    + reflexivity.
    + exists t. split; [exact Hb | exact Hl].
  - split; [apply Nat.ltb_lt; reflexivity|].
    assert (Hn : (256 <= length paid_crowd)%nat) by (apply Nat.leb_le; reflexivity).
    destruct (CapacityFacts.delegated_multiple calm calm_answers paid_crowd
                sample_entropy [] (paid_valid 512) Hn eq_refl) as (t & l' & Hb).
    exists t, l'. split; [exact Hb|].
    destruct (CapacityFacts.returned_multiple calm paid_crowd sample_entropy [] l' t
                Hn Hb) as (_ & Hl & _).
    exact Hl.
Qed.

Lemma capacity_boundary_witness :
  ((256 <= length full)%nat /\
   forallb payable (map amount full) = true /\
   (length full mod 256 = 0)%nat /\
   exists t, fst (buildMerkleTree full sample_entropy) = Ok t /\
             length (leaves t) = length full) /\
  ((256 <= length paid_full)%nat /\
   (forall (k : nat) (inputs : list string),
       exists v, hash_of_response (calm k inputs) = Ok v) /\
   (forall r, In r paid_full ->
              (exists bytes, PublicKey_toBuffer (Delegated.wallet r) = Ok bytes) /\
              Delegated.secret r <> Some []) /\
   (length paid_full mod 256 = 0)%nat /\
   exists t l',
     fst (Delegated.buildMerkleTree calm paid_full sample_entropy) [] = (Ok t, l') /\
     length (Delegated.leaves t) = length paid_full /\
     length l'
     = (length (@nil (list string)) + length paid_full
        + 255 * (length paid_full / 256))%nat).
Proof.
  assert (H1 : (256 <= length full)%nat) by (apply Nat.leb_le; reflexivity).
  assert (H2 : forallb payable (map amount full) = true) by (vm_compute; reflexivity).
  assert (H3 : (length full mod 256 = 0)%nat) by reflexivity.
  assert (D1 : (256 <= length paid_full)%nat) by (apply Nat.leb_le; reflexivity).
  assert (D3 : (length paid_full mod 256 = 0)%nat) by reflexivity.
  destruct CapacityFacts.capacity_boundary as [HL HD].
  split.
  - split; [exact H1|]. split; [exact H2|]. split; [exact H3|].
    destruct (HL full sample_entropy H1 H2) as [H _].
    destruct (H H3) as (t & tr & top & Hb & _ & Hl & _).
    exists t. split; assumption.
  - split; [exact D1|]. split; [exact calm_answers|]. split; [exact (paid_valid 256)|].
    split; [exact D3|].
    destruct (HD calm paid_full sample_entropy [] D1) as (Hret & _ & Hok).
    destruct (Hok calm_answers (paid_valid 256) D3) as (t & l' & Hb).
    destruct (Hret t l' Hb) as (_ & Hl & Hreq).
    exists t, l'. split; [exact Hb|]. split; [exact Hl | exact Hreq].
Defined.

(** C4, as stated, fails: the index 256 is out of range, and
    [getMerkleProof] returns a proof instead of raising an error. *)
Lemma index_not_checked :
  fst (buildMerkleTree [] sample_entropy) = Ok empty_tree /\
  getMerkleProof (tree empty_tree) 256 =
  Ok {| leafIndex := 256; siblings := repeat None 8; leaf := None |} /\
  getMerkleProof (tree empty_tree) (-1) =
  Ok {| leafIndex := -1; siblings := repeat None 8; leaf := None |}.
Proof.
  split; [vm_cast_no_check (@eq_refl _ (Ok empty_tree))|].
  split; vm_compute; reflexivity.
Qed.

Lemma getMerkleProof_out_of_range_witness :
  fst (buildMerkleTree two sample_entropy) = Ok two_tree /\
  (300 < 0 \/ Z.of_nat (Nat.max 256 (length two)) <= 300) /\
  length (leaves two_tree) = Nat.max 256 (length two) /\
  getMerkleProof (tree two_tree) 300 =
  Ok {| leafIndex := 300; siblings := repeat None 8; leaf := None |}.
Proof.
  assert (H2 : 300 < 0 \/ Z.of_nat (Nat.max 256 (length two)) <= 300)
    by (right; discriminate).
  split; [exact two_built|]. split; [exact H2|].
  destruct (LocalFacts.getMerkleProof_out_of_range two sample_entropy two_tree 300
              two_built) as (Hn & _ & Hp).
  split; [exact Hn | exact (Hp H2)].
Defined.

(** C5, as stated, fails: with no sibling at all, or with the index 256,
    [verifyMerkleProof] returns a boolean instead of raising an error. *)
Lemma malformed_not_rejected :
  length (@nil value) <> 8%nat /\
  verifyMerkleProof (Some (new_Uint8Array 32)) (Some (new_Uint8Array 32)) 0 []
  = Ok true /\
  ~ (0 <= 256 < 256) /\
  verifyMerkleProof (root two_tree) (Some (new_Uint8Array 32)) 256
                    (repeat (Some (new_Uint8Array 32)) 8)
  = Ok false.
Proof.
  split; [discriminate|]. split; [vm_compute; reflexivity|].
  split; [lia|]. vm_compute. reflexivity.
Qed.

End LocalExamples.

(** ** More sample runs *)

Module MoreExamples.
Import Samples.

Lemma two_fit : (length two <= 256)%nat.
Proof. apply Nat.leb_le. reflexivity. Defined.

Lemma leaves_padded_witness :
  (length two <= 256)%nat /\
  fst (Local.buildMerkleTree two sample_entropy) = Ok two_tree /\
  nth_error (Local.tree two_tree) 0 = Some (Local.leaves two_tree) /\
  length (Local.leaves two_tree) = 256%nat.
Proof.
  split; [exact two_fit|]. split; [exact LocalExamples.two_built|].
  destruct (LocalMore.leaves_padded two sample_entropy two_tree two_fit
              LocalExamples.two_built) as (H1 & H2 & _).
  split; [exact H1 | exact H2].
Defined.

Lemma build_without_randomness_witness :
  forallb (fun r => match Local.secret r with Some _ => true | None => false end)
          [recipientB] = true /\
  fst (Local.buildMerkleTree [recipientB] sample_entropy)
  = fst (Local.buildMerkleTree [recipientB] (fun _ => x00)).
Proof.
  split; [reflexivity|].
  exact (proj1 (LocalMore.build_without_randomness [recipientB] sample_entropy
                  (fun _ => x00) eq_refl)).
Defined.

Lemma build_RangeError_witness :
  forallb Local.payable (map Local.amount [recipientA; spendthrift]) = false /\
  fst (Local.buildMerkleTree [recipientA; spendthrift] sample_entropy) = Throw RangeError.
Proof.
  assert (H : forallb Local.payable (map Local.amount [recipientA; spendthrift]) = false)
    by (vm_compute; reflexivity).
  split; [exact H|].
  exact (LocalMore.build_RangeError [recipientA; spendthrift] sample_entropy H).
Defined.

Lemma verify_index_low_bits_witness :
  0 <= 1 /\ 0 <= 3 /\
  Local.verifyMerkleProof (Local.root two_tree) (Some (new_Uint8Array 32))
    (1 + 3 * 2 ^ Z.of_nat (length (repeat (Some (new_Uint8Array 32)) 8)))
    (repeat (Some (new_Uint8Array 32)) 8)
  = Local.verifyMerkleProof (Local.root two_tree) (Some (new_Uint8Array 32)) 1
      (repeat (Some (new_Uint8Array 32)) 8).
Proof.
  assert (H1 : 0 <= 1) by discriminate.
  assert (H3 : 0 <= 3) by discriminate.
  split; [exact H1|]. split; [exact H3|].
  exact (proj1 (LocalMore.verify_index_low_bits (Local.root two_tree)
                  (Some (new_Uint8Array 32)) (repeat (Some (new_Uint8Array 32)) 8)
                  1 3 H1 H3)).
Defined.

Lemma getMerkleProof_shape_witness :
  (8 <= length (Local.tree two_tree))%nat /\
  exists p,
    Local.getMerkleProof (Local.tree two_tree) 1 = Ok p /\
    Local.leafIndex p = 1 /\
    length (Local.siblings p) = 8%nat.
Proof.
  assert (H : (8 <= length (Local.tree two_tree))%nat) by (apply Nat.leb_le; reflexivity).
  split; [exact H|].
  destruct (proj2 (LocalMore.getMerkleProof_shape (Local.tree two_tree) 1) H)
    as (p & Hp & Hi & _ & Hs & _).
  exists p. split; [exact Hp|]. split; [exact Hi | exact Hs].
Defined.

Lemma out_of_range_proof_throws_witness :
  fst (Local.buildMerkleTree two sample_entropy) = Ok two_tree /\
  (300 < 0 \/ Z.of_nat (Nat.max 256 (length two)) <= 300) /\
  exists p,
    Local.getMerkleProof (Local.tree two_tree) 300 = Ok p /\
    Local.verifyMerkleProof (Local.root two_tree) (Local.leaf p) 300 (Local.siblings p)
    = Throw TypeError.
Proof.
  assert (H : 300 < 0 \/ Z.of_nat (Nat.max 256 (length two)) <= 300)
    by (right; discriminate).
  split; [exact LocalExamples.two_built|]. split; [exact H|].
  exact (LocalMore.out_of_range_proof_throws two sample_entropy two_tree 300
           LocalExamples.two_built H).
Defined.

Lemma hash_of_concatenation_witness :
  [x01] ++ [x02; x03] = [x01; x02] ++ [x03] /\
  Local.poseidonHash2 [x01] [x02; x03] = Local.poseidonHash2 [x01; x02] [x03].
Proof.
  split; [reflexivity|].
  exact (proj1 (HashFacts.hash_of_concatenation [x01] [x02; x03] [] [x01; x02] [x03] [])
           eq_refl).
Defined.

Lemma hash_second_half_witness :
  (3 < 16)%nat /\
  exists x y,
    nth_error (Local.simpleHash [x01]) 3 = Some x /\
    nth_error (Local.simpleHash [x01]) ((3 + 4) mod 16) = Some y /\
    nth_error (Local.simpleHash [x01]) (16 + 3) = Some (byte_xor x y).
Proof.
  assert (H : (3 < 16)%nat) by (apply Nat.ltb_lt; reflexivity).
  split; [exact H|].
  exact (proj2 (HashFacts.hash_second_half [x01]) 3%nat H).
Defined.

Lemma nullifier_index_witness :
  BigInt_of_number half = Throw RangeError /\
  BigInt_of_number (number_of_Z (2 ^ 64)) = Ok (2 ^ 64) /\
  BigInt_of_number (number_of_Z 0) = Ok 0 /\
  2 ^ 64 mod 2 ^ 64 = 0 mod 2 ^ 64 /\
  Local.computeNullifier secretB half = Throw RangeError /\
  Local.computeNullifier secretB (number_of_Z (2 ^ 64))
  = Local.computeNullifier secretB (number_of_Z 0).
Proof.
  assert (H0 : BigInt_of_number half = Throw RangeError) by reflexivity.
  assert (H1 : BigInt_of_number (number_of_Z (2 ^ 64)) = Ok (2 ^ 64)) by reflexivity.
  assert (H2 : BigInt_of_number (number_of_Z 0) = Ok 0) by reflexivity.
  assert (H3 : 2 ^ 64 mod 2 ^ 64 = 0 mod 2 ^ 64) by reflexivity.
  split; [exact H0|]. split; [exact H1|]. split; [exact H2|]. split; [exact H3|].
  split.
  - exact (proj1 (NullifierFacts.nullifier_index secretB half half 0 0) H0).
  - exact (proj2 (proj2 (NullifierFacts.nullifier_index secretB (number_of_Z (2 ^ 64))
                           (number_of_Z 0) (2 ^ 64) 0)) H1 H2 H3).
Defined.

Lemma toHex_fromHex_lowercase_witness :
  all_hex "00FF1a" = true /\
  Nat.even (String.length "00FF1a") = true /\
  Local.toHex (Local.fromHex "00FF1a") = lower_digits "00FF1a" /\
  Delegated.toHex (Delegated.fromHex "00FF1a") = lower_digits "00FF1a".
Proof.
  split; [reflexivity|]. split; [reflexivity|].
  exact (CodecMore.toHex_fromHex_lowercase "00FF1a" eq_refl eq_refl).
Defined.

Lemma hexToBytes_32_witness :
  Nat.even (String.length "00ff") = true /\
  length secretB = 32%nat /\
  Hooks.hexToBytes "00ff" = firstn 32 (Local.fromHex "00ff" ++ repeat x00 32) /\
  Hooks.hexToBytes (Local.toHex secretB) = secretB.
Proof.
  split; [reflexivity|]. split; [reflexivity|].
  destruct (CodecMore.hexToBytes_32 "00ff" secretB) as (_ & H1 & H2).
  split; [exact (H1 eq_refl) | exact (H2 eq_refl)].
Defined.

Lemma bigIntToBytes_round_trip_witness :
  0 <= 255 < 2 ^ 256 /\
  length secretB = 32%nat /\
  be_value (Delegated.bigIntToBytes 255) = 255 /\
  Delegated.bigIntToBytes (be_value secretB) = secretB.
Proof.
  assert (H : 0 <= 255 < 2 ^ 256) by (split; [discriminate | reflexivity]).
  split; [exact H|]. split; [reflexivity|].
  destruct (FieldCodec.bigIntToBytes_round_trip 255 secretB) as (H1 & H2).
  split; [exact (proj1 (proj2 (H1 H))) | exact (H2 eq_refl)].
Defined.

Lemma steady_built :
  fst (Delegated.buildMerkleTree steady [paidA; paidB] sample_entropy) []
  = (Ok steady_tree, steady_log).
Proof. vm_cast_no_check (@eq_refl _ (@Ok Delegated.MerkleTree steady_tree, steady_log)). Defined.

Lemma build_sends_witness :
  (length [paidA; paidB] <= 256)%nat /\
  fst (Delegated.buildMerkleTree steady [paidA; paidB] sample_entropy) []
  = (Ok steady_tree, steady_log) /\
  length steady_log = (length (@nil (list string)) + length [paidA; paidB] + 255)%nat.
Proof.
  assert (H : (length [paidA; paidB] <= 256)%nat) by (apply Nat.leb_le; reflexivity).
  split; [exact H|]. split; [exact steady_built|].
  exact (DelegatedMore.build_sends steady [paidA; paidB] sample_entropy [] steady_log
           steady_tree H steady_built).
Defined.

Lemma build_returns_witness :
  (length [paidA; paidB] <= 256)%nat /\
  fst (Delegated.buildMerkleTree steady [paidA; paidB] sample_entropy) []
  = (Ok steady_tree, steady_log) /\
  length (Delegated.root steady_tree) = 32%nat /\
  length (Delegated.leaves steady_tree) = 256%nat.
Proof.
  assert (H : (length [paidA; paidB] <= 256)%nat) by (apply Nat.leb_le; reflexivity).
  split; [exact H|]. split; [exact steady_built|].
  destruct (DelegatedMore.build_returns steady [paidA; paidB] sample_entropy []
              steady_log steady_tree H steady_built) as (H1 & H2 & _).
  split; [exact H1 | exact H2].
Defined.

Lemma empty_secret_rejected_witness :
  In hollow [paidA; hollow] /\
  Delegated.secret hollow = Some [] /\
  exists e,
    fst (fst (Delegated.buildMerkleTree steady [paidA; hollow] sample_entropy) [])
    = Throw e.
Proof.
  assert (H : In hollow [paidA; hollow]) by (right; left; reflexivity).
  split; [exact H|]. split; [reflexivity|].
  exact (proj2 (proj2 (DelegatedMore.empty_secret_rejected steady walletA 0 (number_of_Z 0) []
                         [paidA; hollow] hollow sample_entropy)) H eq_refl).
Defined.

Lemma hexInput_codec_witness :
  0 <= 255 /\ BigInt_0x (Delegated.hexInput 255) = Ok 255 /\
  -1 < 0 /\ BigInt_0x (Delegated.hexInput (-1)) = Throw SyntaxError.
Proof.
  assert (H1 : 0 <= 255) by discriminate.
  assert (H2 : -1 < 0) by reflexivity.
  split; [exact H1|].
  split; [exact (proj2 (proj1 (DelegatedMore.hexInput_codec 255) H1))|].
  split; [exact H2|].
  exact (proj2 (DelegatedMore.hexInput_codec (-1)) H2).
Defined.

Lemma steady_root_built :
  fst (Solana.generateMerkleRoot steady payees sample_entropy) []
  = (Ok steady_root, steady_root_log).
Proof. vm_cast_no_check (@eq_refl _ (@Ok Uint8Array steady_root, steady_root_log)). Defined.

Lemma generateMerkleRoot_cost_witness :
  (length payees <= 256)%nat /\
  fst (Solana.generateMerkleRoot steady payees sample_entropy) []
  = (Ok steady_root, steady_root_log) /\
  length steady_root = 32%nat /\
  length steady_root_log = (length (@nil (list string)) + length payees + 255)%nat.
Proof.
  assert (H : (length payees <= 256)%nat) by (apply Nat.leb_le; reflexivity).
  split; [exact H|]. split; [exact steady_root_built|].
  exact (proj2 (DelegatedMore.generateMerkleRoot_cost steady payees sample_entropy []
                  steady_root_log steady_root) H steady_root_built).
Defined.

Lemma network_persists_witness :
  "theme"%string <> "shadow-drop-network"%string /\
  Network.getItem no_item "shadow-drop-network" <> Some "localnet"%string /\
  Network.getItem no_item "shadow-drop-network" <> Some "devnet"%string /\
  Network.initialNetwork (Network.setNetwork Network.devnet no_item) "localhost"
  = Network.devnet /\
  Network.getItem (Network.setNetwork Network.devnet no_item) "theme"
  = Network.getItem no_item "theme" /\
  Network.initialNetwork no_item "localhost" = Network.localnet.
Proof.
  assert (H1 : "theme"%string <> "shadow-drop-network"%string) by discriminate.
  assert (H2 : Network.getItem no_item "shadow-drop-network" <> Some "localnet"%string)
    by discriminate.
  assert (H3 : Network.getItem no_item "shadow-drop-network" <> Some "devnet"%string)
    by discriminate.
  split; [exact H1|]. split; [exact H2|]. split; [exact H3|].
  destruct (NetworkFacts.network_persists no_item "localhost" "theme" Network.devnet)
    as (A & B & C).
  split; [exact A|]. split; [exact (B H1) | exact (C H2 H3)].
Defined.

End MoreExamples.
